(** * NanoBrain helper types: [nanobrain/types.py]

    A shallow embedding of the pure-Python helpers of the NanoBrain package:
    the [TruthValue] revision rule [merge], the Phase Prime Metric
    [compute_ppm_coherence] and the prime signature [prime_encode].

    Python's [float] is IEEE 754 binary64, which is the kernel's primitive
    [float]; Python's [int] is [Z].  A raised exception is the value
    [Raise name], with [name] the name of the exception class. *)

From Stdlib Require Import ZArith List Bool Lia String Sorted Permutation.
From Stdlib Require Import Floats Uint63.
From Stdlib Require Import Reals Lra Psatz.
Import ListNotations.

Set Implicit Arguments.

(** ** Results of Python calls *)

Inductive result (A : Type) : Type :=
| Ok (a : A)
| Raise (exc : string).

Arguments Ok {A} a.
Arguments Raise {A} exc.

Definition bind {A B : Type} (r : result A) (k : A -> result B) : result B :=
  match r with
  | Ok a => k a
  | Raise exc => Raise exc
  end.

Notation "x <- r ;; k" := (bind r (fun x => k))
  (at level 61, r at next level, right associativity).

Definition ZeroDivisionError : string := "ZeroDivisionError".
Definition OverflowError : string := "OverflowError".
Definition ValueError : string := "ValueError".
Definition IndexError : string := "IndexError".

(** ** Python's float operations that are not IEEE primitives *)

Module Py.

(** [int(x)]: truncation towards zero; [int(nan)] raises ValueError and
    [int(inf)] raises OverflowError. *)
Definition int (x : float) : result Z :=
  match Prim2SF x with
  | S754_nan => Raise ValueError
  | S754_infinity _ => Raise OverflowError
  | S754_zero _ => Ok 0%Z
  | S754_finite s m e =>
      let a := if (0 <=? e)%Z then Z.shiftl (Zpos m) e
               else Z.shiftr (Zpos m) (- e) in
      Ok (if s then (- a)%Z else a)
  end.

(** The conversion of an [int] operand to [float]: correctly rounded (ties to
    even), OverflowError when the rounded value is not finite. *)
Definition float_of_int (n : Z) : result float :=
  match binary_normalize prec emax n 0 false with
  | S754_infinity _ => Raise OverflowError
  | sf => Ok (SF2Prim sf)
  end.

(** C's [fmod(x, 1.0)]: the fractional part, with the sign of [x]; exact. *)
Definition fmod1 (x : float) : float :=
  match Prim2SF x with
  | S754_nan | S754_infinity _ => nan
  | S754_zero _ => x
  | S754_finite s m e =>
      if (0 <=? e)%Z then (if s then neg_zero else zero)
      else
        let r := (Zpos m mod 2 ^ (- e))%Z in
        let f := Z.ldexp (of_uint63 (Uint63.of_Z r)) e in
        if s then (- f)%float else f
  end.

(** [x % 1.0] (float_rem of CPython with [wx = 1.0]): [fmod], then a non-zero
    remainder of the wrong sign is moved up by [1.0] and a zero remainder takes
    the sign of [1.0]. *)
Definition mod1 (x : float) : float :=
  let m := fmod1 x in
  if is_nan m then m
  else if (m =? 0)%float then zero
  else if (m <? 0)%float then (m + 1)%float
  else m.

(** [seq[i]] for an index already reduced into range; IndexError otherwise. *)
Definition getitem {A : Type} (l : list A) (i : Z) : result A :=
  if (i <? 0)%Z then Raise IndexError
  else match nth_error l (Z.to_nat i) with
       | Some a => Ok a
       | None => Raise IndexError
       end.

(** [sorted(...)] on integers: insertion sort, ascending. *)
Fixpoint insert (x : Z) (l : list Z) : list Z :=
  match l with
  | [] => [x]
  | y :: l' => if (x <=? y)%Z then x :: l else y :: insert x l'
  end.

Definition sorted (l : list Z) : list Z := fold_right insert [] l.

(** [set(...)] on integers, as the list of its distinct elements. *)
Definition set (l : list Z) : list Z := nodup Z.eq_dec l.

End Py.

(** ** The arithmetic [merge] is written in

    The body of [merge] uses [+], [-], [*], [/], [> 0] and the literals of the
    dataclass defaults.  The class names them, so that the same text is read
    in binary64 (what Python runs) and in exact real arithmetic. *)

Class Arith (F : Type) : Type := {
  fadd : F -> F -> F;
  fsub : F -> F -> F;
  fmul : F -> F -> F;
  fdiv : F -> F -> result F;
  fpos : F -> bool;
  fzero : F;
  fhalf : F;
  fone : F
}.

#[export] Instance binary64 : Arith float := {
  fadd := PrimFloat.add;
  fsub := PrimFloat.sub;
  fmul := PrimFloat.mul;
  fdiv := fun x y => if (y =? 0)%float then Raise ZeroDivisionError
                     else Ok (x / y)%float;
  fpos := fun x => (0 <? x)%float;
  fzero := 0%float;
  fhalf := 0.5%float;
  fone := 1%float
}.

#[export] Instance exact : Arith R := {
  fadd := Rplus;
  fsub := Rminus;
  fmul := Rmult;
  fdiv := fun x y => if Req_EM_T y 0 then Raise ZeroDivisionError
                     else Ok (x / y)%R;
  fpos := fun x => if Rlt_dec 0 x then true else false;
  fzero := 0%R;
  fhalf := (1 / 2)%R;
  fone := 1%R
}.

Declare Scope arith_scope.
Delimit Scope arith_scope with ar.
Infix "+" := fadd : arith_scope.
Infix "-" := fsub : arith_scope.
Infix "*" := fmul : arith_scope.

(** ** TruthValue *)

Section TruthValues.

Context {F : Type} `{Arith F}.

Record TruthValue : Type := mkTruthValue {
  strength : F;
  confidence : F;
  count : F
}.

(** The dataclass constructor: it stores its three arguments. *)
Definition TruthValue_init (s c n : F) : result TruthValue :=
  Ok (mkTruthValue s c n).

(** [TruthValue()]: the field defaults 1.0, 0.0, 0.0. *)
Definition TruthValue_default : TruthValue := mkTruthValue fone fzero fzero.

Definition merge (self other : TruthValue) : result TruthValue :=
  let s1 := strength self in
  let c1 := confidence self in
  let s2 := strength other in
  let c2 := confidence other in
  let cnt := (c1 + c2 - c1 * c2)%ar in
  st <- (if fpos cnt
         then fdiv (s1 * c1 + s2 * c2 - s1 * c1 * c2 * s2)%ar cnt
         else Ok fhalf) ;;
  TruthValue_init st cnt (count self + count other)%ar.

End TruthValues.

Arguments TruthValue F : clear implicits.

(** ** Constants matching C++ *)

Set Warnings "-inexact-float".

Definition FUNDAMENTAL_PRIMES : list Z :=
  [2; 3; 5; 7; 11; 13; 17; 19; 23; 29; 31; 37; 41; 43; 47]%Z.
Definition GOLDEN_RATIO : float := 1.618033988749895%float.
Definition PI : float := 0x1.921fb54442d18p+1%float.

(** ** Loops *)

Definition len {A : Type} (l : list A) : Z := Z.of_nat (List.length l).

Definition range (n : Z) : list Z := map Z.of_nat (seq 0 (Z.to_nat n)).

(** [for i in l: st = body(st, i)], stopping at the first exception. *)
Fixpoint for_each {S : Type} (body : S -> Z -> result S) (l : list Z) (st : S)
  : result S :=
  match l with
  | [] => Ok st
  | i :: l' => st' <- body st i ;; for_each body l' st'
  end.

(** ** prime_encode *)

(** One turn of the loop; the state is [(primes, abs_val)]. *)
Definition prime_encode_body (st : list Z * float) (i : Z)
  : result (list Z * float) :=
  let '(primes, abs_val) := st in
  if (i <? len FUNDAMENTAL_PRIMES)%Z then
    n <- Py.float_of_int (len FUNDAMENTAL_PRIMES) ;;
    k <- Py.int (abs_val * n) ;;
    let idx := (k mod len FUNDAMENTAL_PRIMES)%Z in
    p <- Py.getitem FUNDAMENTAL_PRIMES idx ;;
    Ok (primes ++ [p], Py.mod1 (abs_val * GOLDEN_RATIO))
  else Ok st.

Definition prime_encode (value : float) (num_primes : Z) : result (list Z) :=
  st <- for_each prime_encode_body (range num_primes) ([], abs value) ;;
  Ok (Py.sorted (Py.set (fst st))).

(** ** compute_ppm_coherence *)

(** CPython's wrapper [math_1] around a C library function of one argument: a
    NaN result from a non-NaN argument and an infinite result from a finite
    argument raise ValueError. *)
Definition math_1 (f : float -> float) (x : float) : result float :=
  let r := f x in
  if is_nan r && negb (is_nan x) then Raise ValueError
  else if is_infinity r && is_finite x then Raise ValueError
  else Ok r.

Definition math_sqrt (n : Z) : result float :=
  x <- Py.float_of_int n ;; math_1 PrimFloat.sqrt x.

Section Coherence.

(** The C library's [sin], which [math.sin] calls. *)
Variable libm_sin : float -> float.

Definition math_sin : float -> result float := math_1 libm_sin.

Definition compute_ppm_coherence (primes : list Z) : result float :=
  match primes with
  | [] => Ok 0.5%float
  | _ =>
      let '(product, total) :=
        fold_left (fun '(product, total) p => (product * p, total + p)%Z)
                  primes (1, 0)%Z in
      if (total =? 0)%Z then Ok 0.5%float
      else
        sqrt_product <- math_sqrt product ;;
        t <- Py.float_of_int total ;;
        q <- fdiv (sqrt_product * PI)%float t ;;
        s <- math_sin q ;;
        Ok (0.5 + 0.5 * s)%float
  end.

End Coherence.

(** ** golden_spiral *)

Section Spiral.

(** The C library's [cos] and [sin], which [math.cos] and [math.sin] call. *)
Variables libm_cos libm_sin : float -> float.

(** One turn of the loop; the state is [points]. *)
Definition golden_spiral_body (points : list (float * float)) (i : Z)
  : result (list (float * float)) :=
  i2 <- Py.float_of_int (i * 2) ;;
  theta <- fdiv (i2 * PI)%float GOLDEN_RATIO ;;
  r <- math_sqrt (i + 1) ;;
  c <- math_1 libm_cos theta ;;
  let x := (r * c)%float in
  s <- math_1 libm_sin theta ;;
  let y := (r * s)%float in
  Ok (points ++ [(x, y)]).

Definition golden_spiral (n : Z) : result (list (float * float)) :=
  for_each golden_spiral_body (range n) [].

End Spiral.

(** ** The statements under test, as predicates on the inputs *)

Open Scope float_scope.

Definition tv (s c n : float) : TruthValue float := mkTruthValue s c n.

(** The classic revision blend: strength [(s1*c1 + s2*c2) / c] when the
    combined confidence [c] is positive, and 0.5 when it is zero. *)
Definition blend_strength (a b : TruthValue float) : Prop :=
  let c := confidence a + confidence b - confidence a * confidence b in
  exists r, merge a b = Ok r /\
    ((0 <? c) = true ->
     strength r
     = (strength a * confidence a + strength b * confidence b) / c) /\
    ((c =? 0) = true -> strength r = 0.5).

(** A value is in the unit interval, by Python's comparisons. *)
Definition in_unit (x : float) : bool := (0 <=? x) && (x <=? 1).

(** Construction rejects a strength or confidence outside [0,1]. *)
Definition init_validates (s c n : float) : Prop :=
  in_unit s && in_unit c = false ->
  TruthValue_init s c n = Raise "InvalidTruthValueError".

(** [merge a b] and [merge b a] are the same result. *)
Definition merge_commutes (a b : TruthValue float) : Prop :=
  merge a b = merge b a.

(** A TruthValue of the data model: strength and confidence in [0,1] and a
    count that is not negative. *)
Definition in_domain (t : TruthValue float) : bool :=
  in_unit (strength t) && in_unit (confidence t) && (0 <=? count t).

Definition merge_preserves_domain (a b : TruthValue float) : Prop :=
  in_domain a = true -> in_domain b = true ->
  exists r, merge a b = Ok r /\ in_domain r = true.



(** ** prime_encode as the specification words it

    Starting from [v = |value|], [min(num_primes, 15)] selection steps; a step
    in state [v] selects [table[floor(v * 15) mod 15]] and advances the state
    to [(v * phi) mod 1]; the result is the deduplicated ascending sort of the
    selected primes. *)

(** [floor] of a finite binary64 value (0 for a value that is not finite). *)
Definition floor (x : float) : Z :=
  match Prim2SF x with
  | S754_finite s m e =>
      let z := if s then Zneg m else Zpos m in
      if (0 <=? e)%Z then (z * 2 ^ e)%Z else (z / 2 ^ (- e))%Z
  | _ => 0%Z
  end.

Definition table_size : Z := 15.

Definition select (v : float) : Z :=
  nth (Z.to_nat (floor (v * 15) mod table_size)) FUNDAMENTAL_PRIMES 0%Z.

Definition advance (v : float) : float := Py.mod1 (v * GOLDEN_RATIO).

Fixpoint selections (steps : nat) (v : float) : list Z :=
  match steps with
  | O => []
  | S steps' => select v :: selections steps' (advance v)
  end.

Definition prime_encode_spec (value : float) (num_primes : Z) : list Z :=
  Py.sorted
    (Py.set (selections (Z.to_nat (Z.min num_primes table_size)) (abs value))).

(** Strictly ascending, hence free of duplicates. *)
Definition strictly_ascending (l : list Z) : Prop :=
  forall i j : nat, (i < j < List.length l)%nat -> (nth i l 0 < nth j l 0)%Z.

(** The first three claims about [prime_encode], as predicates on the input. *)
Definition encode_well_formed (v : float) (k : Z) : Prop :=
  is_finite v = true -> (0 <= k)%Z ->
  exists l, prime_encode v k = Ok l /\
    strictly_ascending l /\ NoDup l /\ (len l <= k)%Z /\
    forall p, In p l -> In p FUNDAMENTAL_PRIMES.

Definition encode_follows_spec (v : float) (k : Z) : Prop :=
  is_finite v = true -> (0 <= k)%Z ->
  prime_encode v k = Ok (prime_encode_spec v k).

Definition encode_errors (v : float) (k : Z) : Prop :=
  (is_finite v = true -> exists l, prime_encode v k = Ok l) /\
  (is_finite v = false -> prime_encode v k = Raise "InvalidSignalError").

(** The value [binary_round_aux] builds from the rounded mantissa and its
    exponent (the last [match] of its definition). *)
Definition round_result (sx : bool) (m e : Z) : spec_float :=
  match m with
  | Z0 => S754_zero sx
  | Zpos p => if (e <=? emax - prec)%Z then S754_finite sx p e else S754_infinity sx
  | Zneg _ => S754_nan
  end.

(** Rounding [q + r / 2 ^ n] to nearest, ties to even: [m] is [q] or
    [q + 1]. *)
Definition nearest_even (q r n m : Z) : Prop :=
  ((m = q /\ (2 * r < 2 ^ n \/ (2 * r = 2 ^ n /\ Z.even q = true))) \/
   (m = q + 1 /\ (2 ^ n < 2 * r \/ (2 * r = 2 ^ n /\ Z.even q = false))))%Z.

(** The value of a float that is finite and not negative, in units of
    [2 ^ -1074], the smallest positive binary64 value. *)
Definition units (x : spec_float) : Z :=
  match x with
  | S754_finite false m e => (Zpos m * 2 ^ (e + 1074))%Z
  | _ => 0%Z
  end.

(** [R] is [V] rounded to nearest, ties to even, on the grid its magnitude
    calls for: 53 significant bits, and no finer than [2 ^ gmin]. *)
Definition rounds_to (gmin V R : Z) : Prop :=
  let g := Z.max (Zdigits2 V - 53) gmin in
  exists m, (R = m * 2 ^ g)%Z /\
            nearest_even (V / 2 ^ g)%Z (V mod 2 ^ g)%Z g m.

(** A float that is zero or finite and positive. *)
Definition nonneg_finite (x : spec_float) : Prop :=
  (exists s, x = S754_zero s) \/
  (exists m e, x = S754_finite false m e /\
               SpecFloat.valid_binary prec emax x = true).



(** A finite or zero value of sign [s], below [2 ^ k] in magnitude. *)
Definition fin_below (s : bool) (k : Z) (x : spec_float) : Prop :=
  x = S754_zero s \/
  exists m e, x = S754_finite s m e /\ (Zpos (digits2_pos m) + e <= k)%Z.

(** The loop invariant: the state is not negative and [state * 15] is finite. *)
Definition state_ok (a : float) : Prop :=
  SFabs (Prim2SF a) = Prim2SF a /\ exists k, fin_below false k (Prim2SF (a * 15)%float).

(** * Properties *)

Unset Implicit Arguments.

(** ** Binary64 comparisons against zero *)

Lemma Prim2SF_zero : Prim2SF 0 = S754_zero false.
Proof. reflexivity. Qed.

Lemma ltb_pos_neq0 (x : float) : (0 <? x) = true -> (x =? 0) = false.
Proof.
  rewrite FloatAxioms.ltb_spec, FloatAxioms.eqb_spec, Prim2SF_zero.
  destruct (Prim2SF x) as [s|s| |s m e]; try destruct s; cbn; congruence.
Qed.

Lemma eqb0_not_pos (x : float) : (x =? 0) = true -> (0 <? x) = false.
Proof.
  intros E. destruct (0 <? x) eqn:L; [|reflexivity].
  apply ltb_pos_neq0 in L. congruence.
Qed.

(** Two binary64 values with different bit patterns are different. *)
Ltac float_neq H :=
  apply (f_equal Prim2SF) in H; vm_compute in H; discriminate H.

(** ** merge in binary64 *)

(** The guard [count > 0] keeps the division from raising: [merge] always
    returns, with the confidence and the count the source computes. *)
Lemma merge_ok (a b : TruthValue float) :
  let c := confidence a + confidence b - confidence a * confidence b in
  merge a b
  = Ok (tv (if 0 <? c
            then (strength a * confidence a + strength b * confidence b
                  - strength a * confidence a * confidence b * strength b) / c
            else 0.5)
           c (count a + count b)).
Proof.
  unfold merge; cbn.
  destruct (0 <? _) eqn:E; cbn; [rewrite (ltb_pos_neq0 _ E)|]; reflexivity.
Qed.

(** C7: for every pair of TruthValues, [merge] returns a result whose
    confidence is [a.confidence + b.confidence - a.confidence * b.confidence]
    and whose count is [a.count + b.count]. *)
Theorem merge_confidence_count (a b : TruthValue float) :
  exists r, merge a b = Ok r /\
    confidence r = confidence a + confidence b - confidence a * confidence b /\
    count r = count a + count b.
Proof.
  rewrite merge_ok. eexists; split; [reflexivity|]. split; reflexivity.
Qed.

(** C1, as stated, fails at [a = b = (1.0, 0.5, 0.0)]: the combined
    confidence is 0.75, the blend is 1.0 / 0.75, and [merge] returns the
    strength 1.0, because its numerator subtracts [s1*c1*c2*s2]. *)
Lemma blend_strength_counterexample :
  ~ blend_strength (tv 1 0.5 0) (tv 1 0.5 0).
Proof.
  intros (r & E & Hpos & _).
  rewrite merge_ok in E. injection E as <-.
  specialize (Hpos eq_refl). float_neq Hpos.
Qed.

(** C1, amended: when the combined confidence [c] is positive the strength
    is [(s1*c1 + s2*c2 - s1*c1*c2*s2) / c], the blend with the cross term
    subtracted; when [c] is zero the strength is 0.5. *)
Theorem merge_strength_revision (a b : TruthValue float) :
  let c := confidence a + confidence b - confidence a * confidence b in
  exists r, merge a b = Ok r /\
    ((0 <? c) = true ->
     strength r
     = (strength a * confidence a + strength b * confidence b
        - strength a * confidence a * confidence b * strength b) / c) /\
    ((c =? 0) = true -> strength r = 0.5).
Proof.
  intros c. rewrite merge_ok. fold c.
  eexists; split; [reflexivity|]. cbn. split; intros Hc.
  - now rewrite Hc.
  - now rewrite (eqb0_not_pos _ Hc).
Qed.

Lemma merge_strength_revision_witness :
  exists r, merge (tv 1 0.5 0) (tv 1 0.5 0) = Ok r /\ strength r = 1.
Proof.
  destruct (merge_strength_revision (tv 1 0.5 0) (tv 1 0.5 0))
    as (r & E & Hpos & _).
  exists r; split; [exact E|]. rewrite (Hpos eq_refl). reflexivity.
Defined.

(** C5, as stated, fails at [TruthValue(2.0, -1.0, 0.0)]: the dataclass
    constructor stores the values and raises nothing. *)
Lemma init_validates_counterexample : ~ init_validates 2 (-1) 0.
Proof.
  intros Hv. specialize (Hv eq_refl). discriminate Hv.
Qed.

(** C5, amended: construction accepts every triple of floats, inside [0,1]
    or not, and [merge] raises no error for any pair of TruthValues. *)
Theorem init_and_merge_never_raise :
  (forall s c n : float, TruthValue_init s c n = Ok (tv s c n)) /\
  (forall a b : TruthValue float, exists r, merge a b = Ok r).
Proof.
  split; [reflexivity|].
  intros a b. rewrite merge_ok. eexists; reflexivity.
Qed.

(** C8, as stated, fails in binary64 at [a = (0.1, 0.7, 0)],
    [b = (0.4, 0.8, 0)]: the products [s1*c1*c2*s2] and [s2*c2*c1*s1] are
    rounded in a different order and the two strengths differ in the last
    place (0.39106382978723414 and 0.3910638297872341). *)
Lemma merge_commutes_counterexample :
  ~ merge_commutes (tv 0.1 0.7 0) (tv 0.4 0.8 0).
Proof.
  unfold merge_commutes. rewrite !merge_ok. intros E.
  apply (f_equal (fun r => match r with
                           | Ok t => strength t
                           | Raise _ => 0
                           end)) in E.
  float_neq E.
Qed.

(** C9, as stated, fails in binary64 at [a = (0.0, 0.4, 0)],
    [b = (1.0, 1.0, 0)]: the confidence [0.4 + 1.0 - 0.4] rounds to
    0.9999999999999999 and the strength [1.0 / 0.9999999999999999] is
    1.0000000000000002. *)
Lemma merge_preserves_domain_counterexample :
  ~ merge_preserves_domain (tv 0 0.4 0) (tv 1 1 0).
Proof.
  intros Hd. destruct (Hd eq_refl eq_refl) as (r & E & Hr).
  rewrite merge_ok in E. injection E as <-.
  vm_compute in Hr. discriminate Hr.
Qed.


(** ** Binary64 addition and multiplication are commutative *)

Lemma SFadd_comm (x y : spec_float) : SFadd prec emax x y = SFadd prec emax y x.
Proof.
  destruct x as [sx|sx| |sx mx ex], y as [sy|sy| |sy my ey];
    try destruct sx; try destruct sy; try reflexivity.
  all: unfold SFadd; change (IntDef.Z.min ?a ?b) with (Z.min a b);
    rewrite (Z.min_comm ex ey); f_equal; change (IntDef.Z.add ?a ?b) with (Z.add a b); apply Z.add_comm.
Qed.

Lemma SFmul_comm (x y : spec_float) : SFmul prec emax x y = SFmul prec emax y x.
Proof.
  destruct x as [sx|sx| |sx mx ex], y as [sy|sy| |sy my ey];
    try destruct sx; try destruct sy; try reflexivity.
  all: unfold SFmul; change (PosDef.Pos.mul ?a ?b) with (Pos.mul a b); change (IntDef.Z.add ?a ?b) with (Z.add a b);
    rewrite (Pos.mul_comm mx my), (Z.add_comm ex ey); reflexivity.
Qed.

Lemma add_comm (x y : float) : (x + y = y + x)%float.
Proof. apply Prim2SF_inj. rewrite !FloatAxioms.add_spec. apply SFadd_comm. Qed.

Lemma mul_comm (x y : float) : (x * y = y * x)%float.
Proof. apply Prim2SF_inj. rewrite !FloatAxioms.mul_spec. apply SFmul_comm. Qed.

(** ** merge in exact arithmetic *)

Section Exact.

Local Open Scope R_scope.

Lemma merge_exact_ok (a b : TruthValue R) :
  let c := confidence a + confidence b - confidence a * confidence b in
  merge a b
  = Ok (mkTruthValue
          (if Rlt_dec 0 c
           then (strength a * confidence a + strength b * confidence b
                 - strength a * confidence a * confidence b * strength b) / c
           else 1 / 2)
          c (count a + count b)).
Proof.
  unfold merge; cbn.
  destruct (Rlt_dec 0 _) as [Hc|Hc]; cbn; [|reflexivity].
  destruct (Req_EM_T _ 0) as [E|E]; [lra|reflexivity].
Qed.

Lemma merge_exact_comm (a b : TruthValue R) : merge a b = merge b a.
Proof.
  rewrite !merge_exact_ok. cbv zeta.
  replace (confidence b + confidence a - confidence b * confidence a)
    with (confidence a + confidence b - confidence a * confidence b) by ring.
  replace (count b + count a) with (count a + count b) by ring.
  replace (strength b * confidence b + strength a * confidence a
           - strength b * confidence b * confidence a * strength a)
    with (strength a * confidence a + strength b * confidence b
          - strength a * confidence a * confidence b * strength b) by ring.
  reflexivity.
Qed.

(** Over the reals the revision formula stays inside the unit interval:
    the numerator is at most the merged confidence. *)
Lemma merge_exact_domain (a b : TruthValue R) :
  0 <= strength a <= 1 -> 0 <= confidence a <= 1 -> 0 <= count a ->
  0 <= strength b <= 1 -> 0 <= confidence b <= 1 -> 0 <= count b ->
  exists r, merge a b = Ok r /\
    0 <= strength r <= 1 /\ 0 <= confidence r <= 1 /\ 0 <= count r.
Proof.
  destruct a as [s1 c1 n1], b as [s2 c2 n2]; cbn.
  intros Hs1 Hc1 Hn1 Hs2 Hc2 Hn2.
  rewrite merge_exact_ok. eexists; split; [reflexivity|]. cbn.
  assert (Hc : 0 <= c1 + c2 - c1 * c2 <= 1) by nra.
  split; [|split; [exact Hc|lra]].
  destruct (Rlt_dec 0 _) as [Hpos|Hnpos]; [|lra].
  set (x := s1 * c1). set (y := s2 * c2).
  assert (Hx : 0 <= x <= c1) by (unfold x; nra).
  assert (Hy : 0 <= y <= c2) by (unfold y; nra).
  replace (x * c2 * s2) with (x * y) by (unfold y; ring).
  assert (Hn : 0 <= x + y - x * y <= c1 + c2 - c1 * c2).
  { split; [nra|].
    assert (0 <= (c1 - x) * (1 - c2)) by (apply Rmult_le_pos; lra).
    assert (0 <= (c2 - y) * (1 - x)) by (apply Rmult_le_pos; lra).
    nra. }
  split.
  - apply Rmult_le_pos; [lra|]. left. now apply Rinv_0_lt_compat.
  - apply Rmult_le_reg_r with (c1 + c2 - c1 * c2); [exact Hpos|].
    unfold Rdiv. rewrite Rmult_assoc, Rinv_l by lra. lra.
Qed.


End Exact.

(** ** Binary64 rounding: the exponent of a rounded result

    [SpecFloat] gives the operations on mantissas and exponents; what follows
    bounds the exponent [binary_round_aux] returns, which decides whether a
    product is finite. *)

Section Rounding.

Local Open Scope Z_scope.

Lemma digits2_pos_size (p : positive) : digits2_pos p = Pos.size p.
Proof. induction p; cbn; congruence. Qed.

Lemma digits2_pos_bounds (p : positive) :
  2 ^ (Zpos (digits2_pos p) - 1) <= Zpos p < 2 ^ Zpos (digits2_pos p).
Proof.
  induction p as [p IH|p IH|]; cbn [digits2_pos].
  - rewrite Pos2Z.inj_succ. change (Zpos p~1) with (2 * Zpos p + 1).
    replace (Z.succ (Zpos (digits2_pos p)) - 1) with (Z.succ (Zpos (digits2_pos p) - 1)) by lia.
    rewrite !Z.pow_succ_r by lia. lia.
  - rewrite Pos2Z.inj_succ. change (Zpos p~0) with (2 * Zpos p).
    replace (Z.succ (Zpos (digits2_pos p)) - 1) with (Z.succ (Zpos (digits2_pos p) - 1)) by lia.
    rewrite !Z.pow_succ_r by lia. lia.
  - cbn. lia.
Qed.

Lemma Zdigits2_nonneg (z : Z) : 0 <= Zdigits2 z.
Proof. destruct z; cbn; lia. Qed.

Lemma Zdigits2_bounds (z : Z) :
  0 < z -> 2 ^ (Zdigits2 z - 1) <= z < 2 ^ Zdigits2 z.
Proof. destruct z as [|p|p]; try lia. intros _. apply digits2_pos_bounds. Qed.

Lemma Zdigits2_le_of_lt_pow (z k : Z) : 0 <= k -> 0 <= z < 2 ^ k -> Zdigits2 z <= k.
Proof.
  intros Hk [H0 Hz]. destruct (Z.eq_dec z 0) as [->|Hn]; [cbn; lia|].
  destruct (Zdigits2_bounds z ltac:(lia)) as [Hl _].
  destruct (Z_le_gt_dec (Zdigits2 z) k) as [|Hgt]; [assumption|exfalso].
  assert (2 ^ k <= 2 ^ (Zdigits2 z - 1)) by (apply Z.pow_le_mono_r; lia).
  lia.
Qed.

Lemma Zdigits2_ge_of_pow_le (z k : Z) : 0 <= k -> 2 ^ k <= z -> k + 1 <= Zdigits2 z.
Proof.
  intros Hk Hz. assert (0 < z) by (pose proof (Z.pow_pos_nonneg 2 k); lia).
  destruct (Zdigits2_bounds z ltac:(lia)) as [_ Hu].
  destruct (Z_le_gt_dec (k + 1) (Zdigits2 z)) as [|Hgt]; [assumption|exfalso].
  assert (2 ^ Zdigits2 z <= 2 ^ k) by (apply Z.pow_le_mono_r; lia).
  lia.
Qed.

(** digits of a product *)
Lemma Zdigits2_mul (a b : positive) :
  Zdigits2 (Zpos a) + Zdigits2 (Zpos b) - 1 <= Zdigits2 (Zpos (a * b))
  <= Zdigits2 (Zpos a) + Zdigits2 (Zpos b).
Proof.
  pose proof (Zdigits2_bounds (Zpos a) ltac:(lia)) as [Ha1 Ha2].
  pose proof (Zdigits2_bounds (Zpos b) ltac:(lia)) as [Hb1 Hb2].
  pose proof (Zdigits2_nonneg (Zpos a)). pose proof (Zdigits2_nonneg (Zpos b)).
  assert (1 <= Zdigits2 (Zpos a)) by (cbn; lia).
  assert (1 <= Zdigits2 (Zpos b)) by (cbn; lia).
  rewrite Pos2Z.inj_mul. split.
  - assert (Zdigits2 (Zpos a) + Zdigits2 (Zpos b) - 2 + 1 <= Zdigits2 (Zpos a * Zpos b)); [|lia].
    apply Zdigits2_ge_of_pow_le; [lia|].
    replace (Zdigits2 (Zpos a) + Zdigits2 (Zpos b) - 2) with ((Zdigits2 (Zpos a) - 1) + (Zdigits2 (Zpos b) - 1)) by lia.
    rewrite Z.pow_add_r by lia. apply Z.mul_le_mono_nonneg; try lia; apply Z.pow_nonneg; lia.
  - apply Zdigits2_le_of_lt_pow; [lia|]. split; [lia|].
    rewrite Z.pow_add_r by lia. apply Z.mul_lt_mono_nonneg; lia.
Qed.

(** shr *)
Lemma shr_1_m (mrs : shr_record) :
  0 <= shr_m mrs -> shr_m (shr_1 mrs) = shr_m mrs / 2.
Proof.
  destruct mrs as [m r s]; cbn [shr_m]. intros Hm.
  destruct m as [|p|p]; [reflexivity| |lia].
  destruct p as [p|p|]; cbn [shr_1 shr_m].
  - change (Zpos p~1) with (2 * Zpos p + 1). rewrite Z.add_comm, Z.mul_comm, Z.div_add by lia. reflexivity.
  - change (Zpos p~0) with (2 * Zpos p). rewrite Z.mul_comm, Z.div_mul by lia. reflexivity.
  - reflexivity.
Qed.

Lemma iter_pos_shr_1_m (p : positive) (mrs : shr_record) :
  0 <= shr_m mrs -> shr_m (SpecFloat.iter_pos shr_1 p mrs) = shr_m mrs / 2 ^ Zpos p.
Proof.
  revert mrs. induction p as [p IH|p IH|]; intros mrs Hm; cbn [SpecFloat.iter_pos].
  - assert (H1 : 0 <= shr_m (shr_1 mrs)) by (rewrite shr_1_m by lia; apply Z.div_pos; lia).
    assert (H2 : 0 <= shr_m (SpecFloat.iter_pos shr_1 p (shr_1 mrs))) by (rewrite IH by lia; apply Z.div_pos; [lia|apply Z.pow_pos_nonneg; lia]).
    rewrite IH, IH, shr_1_m by lia.
    rewrite !Z.div_div by (try apply Z.pow_pos_nonneg; lia).
    f_equal. rewrite Pos2Z.inj_xI, Z.pow_add_r, Z.pow_mul_r, Z.pow_2_r by lia.
    replace (2 ^ 2) with 4 by reflexivity.
    rewrite <- Z.pow_mul_l. replace (Z.pow_pos 2 p) with (2 ^ Zpos p) by reflexivity.
    rewrite Z.pow_mul_l. 
    assert (2 ^ Zpos p * 2 ^ Zpos p = 4 ^ Zpos p).
    { rewrite <- Z.pow_mul_l. reflexivity. }
    lia.
  - assert (H2 : 0 <= shr_m (SpecFloat.iter_pos shr_1 p mrs)) by (rewrite IH by lia; apply Z.div_pos; [lia|apply Z.pow_pos_nonneg; lia]).
    rewrite IH, IH by lia.
    rewrite !Z.div_div by (try apply Z.pow_pos_nonneg; lia).
    f_equal. rewrite Pos2Z.inj_xO. rewrite <- Z.pow_add_r by lia. f_equal. lia.
  - rewrite shr_1_m by lia. reflexivity.
Qed.

Lemma fexp_eq (e : Z) : fexp prec emax e = Z.max (e - 53) (-1074).
Proof. reflexivity. Qed.

Lemma shr_snd (mrs : shr_record) (e n : Z) : snd (shr mrs e n) = e + Z.max n 0.
Proof. destruct n; cbn [shr snd]; change (IntDef.Z.add ?a ?b) with (a + b); lia. Qed.

Lemma shr_m_fst (mrs : shr_record) (e n : Z) :
  0 <= shr_m mrs -> shr_m (fst (shr mrs e n)) = shr_m mrs / 2 ^ Z.max n 0.
Proof.
  intros Hm. destruct n as [|p|p]; cbn [shr fst].
  - cbn. now rewrite Z.div_1_r.
  - rewrite iter_pos_shr_1_m by assumption. f_equal.
  - cbn. now rewrite Z.div_1_r.
Qed.

Lemma shr_record_of_loc_m (m : Z) (l : location) : shr_m (shr_record_of_loc m l) = m.
Proof. destruct l as [|[]]; reflexivity. Qed.

Lemma shr_fexp_snd (m e : Z) (l : location) :
  snd (shr_fexp prec emax m e l) = Z.max e (fexp prec emax (Zdigits2 m + e)).
Proof.
  unfold shr_fexp. rewrite shr_snd.
  change (IntDef.Z.sub ?a ?b) with (a - b). change (IntDef.Z.add ?a ?b) with (a + b). lia.
Qed.

Lemma shr_fexp_m (m e : Z) (l : location) :
  0 <= m ->
  shr_m (fst (shr_fexp prec emax m e l))
  = m / 2 ^ (Z.max e (fexp prec emax (Zdigits2 m + e)) - e).
Proof.
  intros Hm. unfold shr_fexp. rewrite shr_m_fst by now rewrite shr_record_of_loc_m.
  rewrite shr_record_of_loc_m. f_equal. f_equal.
  change (IntDef.Z.sub ?a ?b) with (a - b). change (IntDef.Z.add ?a ?b) with (a + b). lia.
Qed.

Lemma round_nearest_even_bounds (m : Z) (l : location) :
  m <= round_nearest_even m l <= m + 1.
Proof.
  destruct l as [|[]]; cbn [round_nearest_even]; try lia.
  all: try destruct (Z.even m); change (IntDef.Z.add ?a ?b) with (a + b); lia.
Qed.


Lemma binary_round_aux_shape (sx : bool) (mx ex : Z) (lx : location) :
  0 <= mx ->
  let e1 := Z.max ex (fexp prec emax (Zdigits2 mx + ex)) in
  exists m2 e2, 0 <= m2 /\ e1 <= e2 <= e1 + 1 /\
    binary_round_aux prec emax sx mx ex lx = round_result sx m2 e2 /\
    (0 < mx -> m2 = 0 -> Zdigits2 mx + ex <= -1074).
Proof.
  intros Hmx e1. unfold binary_round_aux.
  pose proof (shr_fexp_snd mx ex lx) as Hs1.
  pose proof (shr_fexp_m mx ex lx Hmx) as Hm1.
  destruct (shr_fexp prec emax mx ex lx) as [mrs' e'] eqn:E1.
  cbn [fst snd] in Hs1, Hm1. fold e1 in Hs1, Hm1.
  set (m2' := round_nearest_even (shr_m mrs') (loc_of_shr_record mrs')).
  pose proof (round_nearest_even_bounds (shr_m mrs') (loc_of_shr_record mrs')) as Hr.
  fold m2' in Hr.
  assert (H1 : 0 <= shr_m mrs' < 2 ^ 53).
  { rewrite Hm1. split; [apply Z.div_pos; [lia|apply Z.pow_pos_nonneg; unfold e1; lia]|].
    destruct (Z.eq_dec mx 0) as [->|Hnz]; [rewrite Z.div_0_l; [reflexivity|]; apply Z.pow_nonzero; unfold e1; lia|].
    apply Z.div_lt_upper_bound; [apply Z.pow_pos_nonneg; unfold e1; lia|].
    rewrite <- Z.pow_add_r by (unfold e1; lia).
    destruct (Zdigits2_bounds mx ltac:(lia)) as [_ Hu].
    eapply Z.lt_le_trans; [exact Hu|]. apply Z.pow_le_mono_r; [lia|].
    unfold e1. rewrite fexp_eq. lia. }
  assert (Hm2 : 0 <= m2') by lia.
  pose proof (shr_fexp_snd m2' e' loc_Exact) as Hs2.
  pose proof (shr_fexp_m m2' e' loc_Exact Hm2) as Hm2'.
  destruct (shr_fexp prec emax m2' e' loc_Exact) as [mrs'' e''] eqn:E2.
  cbn [fst snd] in Hs2, Hm2'.
  assert (Hd : Zdigits2 m2' <= 54).
  { apply Zdigits2_le_of_lt_pow; [lia|]. split; [lia|].
    change (2 ^ 54) with (2 * 2 ^ 53). lia. }
  assert (He1 : -1074 <= e1) by (unfold e1; rewrite fexp_eq; lia).
  exists (shr_m mrs''), e''. split; [|split; [|split]].
  - rewrite Hm2'. apply Z.div_pos; [lia|apply Z.pow_pos_nonneg; lia].
  - rewrite Hs2, Hs1. rewrite fexp_eq. clearbody e1 m2'. lia.
  - reflexivity.
  - intros Hpos Hz. rewrite Hm2', Hs1 in Hz.
    destruct (Z.eq_dec m2' 0) as [Hz2|Hnz2].
    + assert (Hm1z : mx / 2 ^ (e1 - ex) = 0) by lia.
      apply Z.div_small_iff in Hm1z; [|apply Z.pow_nonzero; unfold e1; lia].
      destruct Hm1z as [Hsm|Hsm]; [|pose proof (Z.pow_pos_nonneg 2 (e1 - ex)); unfold e1 in *; lia].
      assert (Hdl : Zdigits2 mx <= e1 - ex)
        by (apply Zdigits2_le_of_lt_pow; [unfold e1|]; lia).
      pose proof (Zdigits2_bounds mx Hpos) as _.
      assert (1 <= Zdigits2 mx) by (destruct mx; cbn; lia).
      unfold e1 in Hdl. rewrite fexp_eq in Hdl. lia.
    + exfalso.
      assert (Hpos2 : 0 < m2') by lia.
      destruct (Zdigits2_bounds m2' Hpos2) as [Hlo _].
      assert (1 <= Zdigits2 m2') by (destruct m2'; cbn; lia).
      set (k := Z.max e1 (fexp prec emax (Zdigits2 m2' + e1)) - e1) in *.
      assert (Hk : 0 <= k <= Zdigits2 m2' - 1)
        by (unfold k; rewrite fexp_eq; clearbody e1 m2'; lia).
      apply Z.div_small_iff in Hz; [|apply Z.pow_nonzero; lia].
      destruct Hz as [Hsm|Hsm]; [|pose proof (Z.pow_pos_nonneg 2 k); lia].
      assert (2 ^ k <= 2 ^ (Zdigits2 m2' - 1)) by (apply Z.pow_le_mono_r; lia).
      lia.
Qed.

Lemma valid_finite (s : bool) (m : positive) (e : Z) :
  SpecFloat.valid_binary prec emax (S754_finite s m e) = true ->
  e = Z.max (Zpos (digits2_pos m) + e - 53) (-1074) /\ e <= 971.
Proof.
  cbn [SpecFloat.valid_binary]. unfold bounded, canonical_mantissa.
  intros H. apply andb_prop in H. destruct H as [Hc Hb].
  apply Z.eqb_eq in Hc. apply Z.leb_le in Hb.
  rewrite fexp_eq in Hc. change (emax - prec) with 971 in Hb.
  change (IntDef.Z.add ?a ?b) with (a + b) in Hc. lia.
Qed.


Lemma round_result_finite (s : bool) (m2 e2 : Z) :
  0 <= m2 -> e2 <= 971 ->
  round_result s m2 e2 = S754_zero s \/
  exists m, round_result s m2 e2 = S754_finite s m e2.
Proof.
  intros Hm He. destruct m2 as [|p|p]; [now left| |lia].
  right. exists p. cbn [round_result].
  change (emax - prec) with 971. destruct (Z.leb_spec e2 971); [reflexivity|lia].
Qed.

Lemma SFmul_finite (sx sy : bool) (mx my : positive) (ex ey : Z) :
  SpecFloat.valid_binary prec emax (S754_finite sx mx ex) = true ->
  SpecFloat.valid_binary prec emax (S754_finite sy my ey) = true ->
  Zpos (digits2_pos mx) + ex + (Zpos (digits2_pos my) + ey) <= 1023 ->
  exists k, fin_below (xorb sx sy) k
    (SFmul prec emax (S754_finite sx mx ex) (S754_finite sy my ey)).
Proof.
  intros Vx Vy Hk. apply valid_finite in Vx, Vy.
  cbn [SFmul].
  destruct (binary_round_aux_shape (xorb sx sy) (Zpos (mx * my)) (ex + ey) loc_Exact
              ltac:(lia)) as (m2 & e2 & Hm2 & He2 & Heq & _).
  change (IntDef.Z.add ex ey) with (ex + ey). change (PosDef.Pos.mul mx my) with (mx * my)%positive.
  rewrite Heq.
  pose proof (Zdigits2_mul mx my) as Hd. cbn [Zdigits2] in Hd.
  rewrite fexp_eq in He2. cbn [Zdigits2] in He2.
  destruct (round_result_finite (xorb sx sy) m2 e2 Hm2 ltac:(lia)) as [Hz|[m Hf]].
  - exists 0. now left.
  - exists (Zpos (digits2_pos m) + e2). right. exists m, e2. split; [assumption|lia].
Qed.

Lemma SFmul_finite_inv (sx sy : bool) (mx my : positive) (ex ey : Z) (s : bool) (k : Z) :
  fin_below s k (SFmul prec emax (S754_finite sx mx ex) (S754_finite sy my ey)) ->
  Zpos (digits2_pos mx) + ex + (Zpos (digits2_pos my) + ey) <= 1025.
Proof.
  cbn [SFmul].
  destruct (binary_round_aux_shape (xorb sx sy) (Zpos (mx * my)) (ex + ey) loc_Exact
              ltac:(lia)) as (m2 & e2 & Hm2 & He2 & Heq & Hzero).
  change (IntDef.Z.add ex ey) with (ex + ey). change (PosDef.Pos.mul mx my) with (mx * my)%positive.
  rewrite Heq.
  pose proof (Zdigits2_mul mx my) as Hd. cbn [Zdigits2] in Hd, Hzero.
  rewrite fexp_eq in He2. cbn [Zdigits2] in He2.
  intros [Hz|(m & e & Hf & _)].
  - destruct m2 as [|p|p]; [|cbn [round_result] in Hz; destruct (_ <=? _); discriminate|lia].
    specialize (Hzero ltac:(lia) eq_refl). lia.
  - destruct m2 as [|p|p]; [discriminate| |discriminate].
    cbn [round_result] in Hf. change (emax - prec) with 971 in Hf.
    destruct (Z.leb_spec e2 971); [|discriminate]. lia.
Qed.

Lemma digits2_pos_iter_xO (m d : positive) :
  Zpos (digits2_pos (Pos.iter xO m d)) = Zpos (digits2_pos m) + Zpos d.
Proof.
  induction d as [|d IH] using Pos.peano_ind.
  - cbn. lia.
  - rewrite Pos.iter_succ. cbn [digits2_pos]. lia.
Qed.

Lemma shl_align_spec (m : positive) (e e' : Z) :
  Zpos (digits2_pos (fst (shl_align m e e'))) + snd (shl_align m e e')
  = Zpos (digits2_pos m) + e /\
  snd (shl_align m e e') = Z.min e e'.
Proof.
  unfold shl_align. change (IntDef.Z.sub e' e) with (e' - e).
  destruct (e' - e) as [|d|d] eqn:E; cbn [fst snd]; try lia.
  change (PosDef.Pos.iter xO m d) with (Pos.iter xO m d).
  rewrite digits2_pos_iter_xO. lia.
Qed.

Lemma binary_round_shape (s : bool) (m : positive) (e : Z) :
  let f := fexp prec emax (Zpos (digits2_pos m) + e) in
  exists m2 e2, 0 <= m2 /\ f <= e2 <= f + 1 /\
    binary_round prec emax s m e = round_result s m2 e2.
Proof.
  intros f. unfold binary_round.
  change (IntDef.Z.add (Zpos (digits2_pos m)) e) with (Zpos (digits2_pos m) + e).
  fold f.
  pose proof (shl_align_spec m e f) as [Hd Hs].
  destruct (shl_align m e f) as [mz ez]. cbn [fst snd] in Hd, Hs.
  destruct (binary_round_aux_shape s (Zpos mz) ez loc_Exact ltac:(lia))
    as (m2 & e2 & Hm2 & He2 & Heq & _).
  exists m2, e2. split; [assumption|]. split; [|assumption].
  cbn [Zdigits2] in He2. rewrite Hd in He2. fold f in He2. lia.
Qed.

Lemma fin_below_not_nan (x : float) (k : Z) :
  fin_below false k (Prim2SF x) -> is_nan x = false.
Proof.
  intros H. unfold is_nan. rewrite FloatAxioms.eqb_spec.
  destruct H as [H|(m & e & H & _)]; rewrite H; unfold SFeqb, SFcompare.
  - reflexivity.
  - change (IntDef.Z.compare e e) with (e ?= e). rewrite Z.compare_refl.
    change (PosDef.Pos.compare_cont Eq m m) with (Pos.compare_cont Eq m m).
    now rewrite Pos.compare_cont_refl.
Qed.

Lemma fin_below_not_neg (x : float) (k : Z) :
  fin_below false k (Prim2SF x) -> (x <? 0)%float = false.
Proof.
  intros H. rewrite FloatAxioms.ltb_spec, Prim2SF_zero.
  destruct H as [H|(m & e & H & _)]; rewrite H; reflexivity.
Qed.

Lemma fin_below_valid (x : float) (s : bool) (k : Z) :
  fin_below s k (Prim2SF x) -> fin_below s 1024 (Prim2SF x).
Proof.
  intros [H|(m & e & H & _)]; [now left|right].
  exists m, e. split; [assumption|].
  pose proof (Prim2SF_valid x) as V. rewrite H in V.
  apply valid_finite in V. lia.
Qed.

Lemma SFldexp_below (x : spec_float) (e k : Z) (s : bool) :
  fin_below s k x -> k + e <= 1023 ->
  exists k', fin_below s k' (SFldexp prec emax x e).
Proof.
  intros [->|(m & ex & -> & Hk)] Hke; [exists 0; now left|].
  cbn [SFldexp]. change (IntDef.Z.add ex e) with (ex + e).
  destruct (binary_round_shape s m (ex + e)) as (m2 & e2 & Hm2 & He2 & Heq).
  rewrite Heq. rewrite fexp_eq in He2.
  destruct (round_result_finite s m2 e2 Hm2 ltac:(lia)) as [Hz|[m' Hf]].
  - exists 0. now left.
  - exists (Zpos (digits2_pos m') + e2). right. exists m', e2. split; [assumption|lia].
Qed.

Lemma binary_normalize_below (r : Z) :
  0 <= r < 2 ^ 53 ->
  exists k, fin_below false k (binary_normalize prec emax r 0 false).
Proof.
  intros Hr. destruct r as [|p|p]; [exists 0; now left| |lia].
  cbn [binary_normalize].
  destruct (binary_round_shape false p 0) as (m2 & e2 & Hm2 & He2 & Heq).
  rewrite Heq. rewrite fexp_eq in He2.
  assert (Zdigits2 (Zpos p) <= 53) by (apply Zdigits2_le_of_lt_pow; lia).
  cbn [Zdigits2] in *.
  destruct (round_result_finite false m2 e2 Hm2 ltac:(lia)) as [Hz|[m' Hf]].
  - exists 0. now left.
  - exists (Zpos (digits2_pos m') + e2). right. exists m', e2. split; [assumption|lia].
Qed.

Lemma round_result_below (x : float) (s : bool) (m2 e2 : Z) :
  Prim2SF x = round_result s m2 e2 -> 0 <= m2 -> e2 <= 971 ->
  fin_below s (e2 + 53) (Prim2SF x).
Proof.
  intros Hx Hm He. pose proof (Prim2SF_valid x) as V. rewrite Hx in *.
  destruct (round_result_finite s m2 e2 Hm He) as [Hz|[m Hf]].
  - now left.
  - right. exists m, e2. split; [assumption|].
    rewrite Hf in V. apply valid_finite in V. lia.
Qed.

Lemma of_uint63_below (r : Z) :
  0 <= r < 2 ^ 53 ->
  fin_below false 54 (Prim2SF (of_uint63 (of_Z r))).
Proof.
  intros Hr. pose proof (of_uint63_spec (of_Z r)) as Hs.
  rewrite of_Z_spec in Hs.
  rewrite Z.mod_small in Hs
    by (split; [lia|]; apply Z.lt_trans with (2 ^ 53); [lia|reflexivity]).
  destruct r as [|p|p]; [left; exact Hs| |lia].
  cbn [binary_normalize] in Hs.
  destruct (binary_round_shape false p 0) as (m2 & e2 & Hm2 & He2 & Heq).
  rewrite Heq in Hs. rewrite fexp_eq in He2.
  assert (Zdigits2 (Zpos p) <= 53) by (apply Zdigits2_le_of_lt_pow; lia).
  cbn [Zdigits2] in *.
  assert (He : e2 <= 1) by lia.
  pose proof (round_result_below _ _ _ _ Hs Hm2 ltac:(lia)) as [Hz|(m & e & Hf & Hk)].
  - now left.
  - right. exists m, e. split; [assumption|].
    rewrite Hs in Hf.
    destruct m2 as [|q|q]; [discriminate| |discriminate].
    cbn [round_result] in Hf. destruct (_ <=? _); [|discriminate].
    injection Hf as _ <-. lia.
Qed.

Lemma ldexp_below (f : float) (e k : Z) :
  fin_below false k (Prim2SF f) -> k + e <= 1000 ->
  fin_below false (Z.max (k + e + 1) (-1020)) (Prim2SF (Z.ldexp f e)).
Proof.
  intros Hf Hke. pose proof (Z_ldexp_spec f e) as Hs.
  destruct Hf as [Hz|(m & ex & Hf & Hk)]; rewrite ?Hz, ?Hf in Hs.
  - left. exact Hs.
  - cbn [SFldexp] in Hs. change (IntDef.Z.add ex e) with (ex + e) in Hs.
    destruct (binary_round_shape false m (ex + e)) as (m2 & e2 & Hm2 & He2 & Heq).
    rewrite Heq in Hs. rewrite fexp_eq in He2.
    pose proof (round_result_below _ _ _ _ Hs Hm2 ltac:(lia)) as [Hz|(m' & e' & Hf' & Hk')].
    + now left.
    + right. exists m', e'. split; [assumption|]. lia.
Qed.

Lemma fmod1_below (x : float) (k : Z) :
  fin_below false k (Prim2SF x) ->
  fin_below false 54 (Prim2SF (Py.fmod1 x)).
Proof.
  intros Hx. unfold Py.fmod1.
  destruct Hx as [Hz|(m & e & Hf & Hk)].
  - rewrite Hz. left. exact Hz.
  - rewrite Hf. destruct (Z.leb_spec 0 e) as [He|He]; [now left|].
    assert (Hr : 0 <= Zpos m mod 2 ^ (- e) < 2 ^ 53).
    { pose proof (Prim2SF_valid x) as V. rewrite Hf in V. apply valid_finite in V.
      pose proof (digits2_pos_bounds m) as [_ Hu].
      assert (2 ^ Zpos (digits2_pos m) <= 2 ^ 53) by (apply Z.pow_le_mono_r; lia).
      pose proof (Z.mod_pos_bound (Zpos m) (2 ^ (- e)) ltac:(apply Z.pow_pos_nonneg; lia)).
      pose proof (Z.mod_le (Zpos m) (2 ^ (- e)) ltac:(lia) ltac:(apply Z.pow_pos_nonneg; lia)).
      lia. }
    pose proof (ldexp_below _ e 54 (of_uint63_below _ Hr) ltac:(lia)) as Hl.
    destruct Hl as [Hl|(m' & e' & Hl & Hk')]; [now left|].
    right. exists m', e'. split; [assumption|lia].
Qed.

Lemma mod1_below (x : float) (k : Z) :
  fin_below false k (Prim2SF x) ->
  fin_below false 54 (Prim2SF (Py.mod1 x)).
Proof.
  intros Hx. pose proof (fmod1_below x k Hx) as Hm. unfold Py.mod1.
  rewrite (fin_below_not_nan _ _ Hm), (fin_below_not_neg _ _ Hm).
  destruct (_ =? _)%float; [now left|exact Hm].
Qed.

Lemma SFeqb_refl_finite (s : bool) (m : positive) (e : Z) :
  SFeqb (S754_finite s m e) (S754_finite s m e) = true.
Proof.
  unfold SFeqb, SFcompare.
  change (IntDef.Z.compare e e) with (e ?= e). rewrite Z.compare_refl.
  change (PosDef.Pos.compare_cont Eq m m) with (Pos.compare_cont Eq m m).
  rewrite Pos.compare_cont_refl. now destruct s.
Qed.

Lemma is_nan_spec (x : float) : is_nan x = true <-> Prim2SF x = S754_nan.
Proof.
  unfold is_nan. rewrite FloatAxioms.eqb_spec.
  destruct (Prim2SF x) as [s|s| |s m e].
  - destruct s; cbn; split; discriminate.
  - destruct s; cbn; split; discriminate.
  - cbn. split; reflexivity.
  - rewrite SFeqb_refl_finite. cbn; split; discriminate.
Qed.

Lemma is_infinity_spec (x : float) :
  is_infinity x = true <-> exists s, Prim2SF x = S754_infinity s.
Proof.
  unfold is_infinity. rewrite FloatAxioms.eqb_spec, abs_spec.
  change (Prim2SF infinity) with (S754_infinity false).
  destruct (Prim2SF x) as [s|s| |s m e]; cbn.
  - split; [discriminate|intros [? ?]; discriminate].
  - split; [intros _; now exists s|reflexivity].
  - split; [discriminate|intros [? ?]; discriminate].
  - split; [discriminate|intros [? ?]; discriminate].
Qed.

Lemma is_finite_spec (x : float) :
  is_finite x = true <-> exists s k, fin_below s k (Prim2SF x).
Proof.
  unfold is_finite. rewrite negb_true_iff, orb_false_iff.
  split.
  - intros [Hn Hi].
    destruct (Prim2SF x) as [s|s| |s m e] eqn:E.
    + exists s, 0. now left.
    + exfalso. assert (is_infinity x = true) by (apply is_infinity_spec; now exists s).
      congruence.
    + exfalso. assert (is_nan x = true) by now apply is_nan_spec. congruence.
    + exists s, (Zpos (digits2_pos m) + e). right. exists m, e. split; [reflexivity|lia].
  - intros (s & k & [H|(m & e & H & _)]); split.
    all: try (destruct (is_nan x) eqn:E; [apply is_nan_spec in E; congruence|reflexivity]).
    all: destruct (is_infinity x) eqn:E; [apply is_infinity_spec in E; destruct E; congruence|reflexivity].
Qed.

Lemma int_ok (x : float) (s : bool) (k : Z) :
  fin_below s k (Prim2SF x) -> exists n, Py.int x = Ok n.
Proof.
  unfold Py.int. intros [H|(m & e & H & _)]; rewrite H; eexists; reflexivity.
Qed.

Lemma mul_const_finite (a c : float) (mc : positive) (ec k : Z) :
  Prim2SF c = S754_finite false mc ec ->
  fin_below false k (Prim2SF a) ->
  k + (Zpos (digits2_pos mc) + ec) <= 1023 ->
  exists k', fin_below false k' (Prim2SF (a * c)).
Proof.
  intros Hc Ha Hk. rewrite FloatAxioms.mul_spec, Hc.
  pose proof (Prim2SF_valid a) as Va. pose proof (Prim2SF_valid c) as Vc.
  rewrite Hc in Vc.
  destruct Ha as [Hz|(m & e & Hf & Hm)]; rewrite ?Hz, ?Hf in *.
  - exists 0. now left.
  - apply (SFmul_finite false false m mc e ec Va Vc). lia.
Qed.

Lemma mul_const_inv (a c : float) (mc : positive) (ec : Z) (s : bool) (k : Z) :
  Prim2SF c = S754_finite false mc ec ->
  SFabs (Prim2SF a) = Prim2SF a ->
  fin_below s k (Prim2SF (a * c)) ->
  fin_below false (1025 - (Zpos (digits2_pos mc) + ec)) (Prim2SF a).
Proof.
  intros Hc Ha. rewrite FloatAxioms.mul_spec, Hc.
  destruct (Prim2SF a) as [s0|s0| |s0 m e]; cbn [SFabs] in Ha.
  - intros _. left. congruence.
  - cbn. intros [H|(? & ? & H & _)]; discriminate.
  - cbn. intros [H|(? & ? & H & _)]; discriminate.
  - intros H. apply SFmul_finite_inv in H.
    right. exists m, e. split; [congruence|lia].
Qed.

End Rounding.

(** ** prime_encode: the loop *)

Section Encode.

Local Open Scope Z_scope.

Lemma Prim2SF_15 : Prim2SF 15 = S754_finite false 8444249301319680 (-49).
Proof. reflexivity. Qed.

Lemma Prim2SF_phi :
  Prim2SF GOLDEN_RATIO = S754_finite false 7286977268806824 (-52).
Proof. reflexivity. Qed.

Lemma float_of_int_len :
  Py.float_of_int (len FUNDAMENTAL_PRIMES) = Ok 15%float.
Proof. reflexivity. Qed.

Lemma mul_nonneg_sign (a c : float) (mc : positive) (ec : Z) (s : bool) (k : Z) :
  Prim2SF c = S754_finite false mc ec ->
  SFabs (Prim2SF a) = Prim2SF a ->
  fin_below s k (Prim2SF (a * c)) ->
  fin_below false k (Prim2SF (a * c)).
Proof.
  intros Hc Ha. rewrite FloatAxioms.mul_spec, Hc.
  destruct (Prim2SF a) as [s0|s0| |s0 m e]; cbn [SFabs] in Ha.
  - injection Ha as <-. intros _. now left.
  - cbn. intros [H|(? & ? & H & _)]; discriminate.
  - cbn. intros [H|(? & ? & H & _)]; discriminate.
  - injection Ha as <-. unfold SF64mul. cbn [SFmul].
    destruct (binary_round_aux_shape (xorb false false) (Zpos (m * mc)) (e + ec)
                loc_Exact ltac:(lia)) as (m2 & e2 & Hm2 & He2 & Heq & _).
    change (IntDef.Z.add e ec) with (e + ec).
    change (PosDef.Pos.mul m mc) with (m * mc)%positive.
    rewrite Heq. cbn [xorb].
    destruct m2 as [|p|p]; cbn [round_result]; [now left| |lia].
    destruct (_ <=? _).
    + intros [H|(m' & e' & H & Hk)]; [discriminate|].
      right. exists m', e'. split; [|assumption]. congruence.
    + intros [H|(? & ? & H & _)]; discriminate.
Qed.

Lemma fin_below_abs_form (x : spec_float) (k : Z) :
  fin_below false k x -> SFabs x = x.
Proof. intros [->|(m & e & -> & _)]; reflexivity. Qed.

Lemma int_floor (x : float) (k : Z) :
  fin_below false k (Prim2SF x) -> Py.int x = Ok (floor x).
Proof.
  unfold Py.int, floor. intros [H|(m & e & H & _)]; rewrite H; [reflexivity|].
  destruct (0 <=? e) eqn:E; f_equal.
  - apply Z.leb_le in E. now rewrite Z.shiftl_mul_pow2.
  - apply Z.leb_gt in E. rewrite Z.shiftr_div_pow2 by lia. reflexivity.
Qed.

Lemma getitem_table (z : Z) :
  Py.getitem FUNDAMENTAL_PRIMES (z mod 15)
  = Ok (nth (Z.to_nat (z mod 15)) FUNDAMENTAL_PRIMES 0).
Proof.
  pose proof (Z.mod_pos_bound z 15 ltac:(lia)) as Hb.
  unfold Py.getitem. destruct (Z.ltb_spec (z mod 15) 0); [lia|].
  assert (Hn : (Z.to_nat (z mod 15) < List.length FUNDAMENTAL_PRIMES)%nat)
    by (cbn; lia).
  rewrite (nth_error_nth' _ 0 Hn). reflexivity.
Qed.


Lemma state_ok_advance (a : float) : state_ok a -> state_ok (advance a).
Proof.
  intros [Ha [k Hk]].
  pose proof (mul_const_inv a 15 _ _ false k Prim2SF_15 Ha Hk) as Hb.
  cbn in Hb.
  destruct (mul_const_finite a GOLDEN_RATIO _ _ 1021 Prim2SF_phi Hb ltac:(cbn; lia))
    as [k' Hphi].
  pose proof (mod1_below _ _ Hphi) as Hm. fold (advance a) in Hm.
  split; [now apply fin_below_abs_form with 54|].
  apply (mul_const_finite (advance a) 15 _ _ 54 Prim2SF_15 Hm). cbn; lia.
Qed.

Lemma body_ok (primes : list Z) (a : float) (i : Z) :
  state_ok a -> i < 15 ->
  prime_encode_body (primes, a) i = Ok (primes ++ [select a], advance a).
Proof.
  intros [Ha [k Hk]] Hi. unfold prime_encode_body.
  change (len FUNDAMENTAL_PRIMES) with 15 at 1.
  destruct (Z.ltb_spec i 15); [|lia].
  rewrite float_of_int_len. cbn [bind].
  rewrite (int_floor _ _ Hk). cbn [bind].
  change (len FUNDAMENTAL_PRIMES) with 15.
  rewrite getitem_table. reflexivity.
Qed.

Lemma body_skip (st : list Z * float) (i : Z) :
  15 <= i -> prime_encode_body st i = Ok st.
Proof.
  intros Hi. unfold prime_encode_body. destruct st as [primes a].
  change (len FUNDAMENTAL_PRIMES) with 15 at 1.
  destruct (Z.ltb_spec i 15); [lia|reflexivity].
Qed.

Lemma loop_ok (n i : nat) (primes : list Z) (a : float) :
  state_ok a ->
  exists a', for_each prime_encode_body (map Z.of_nat (seq i n)) (primes, a)
             = Ok (primes ++ selections (Nat.min n (15 - i)) a, a').
Proof.
  revert i primes a. induction n as [|n IH]; intros i primes a Ha.
  - exists a. cbn. now rewrite app_nil_r.
  - cbn [seq map for_each].
    destruct (Nat.lt_ge_cases i 15) as [Hi|Hi].
    + rewrite (body_ok primes a (Z.of_nat i) Ha ltac:(lia)). cbn [bind].
      destruct (IH (S i) (primes ++ [select a]) (advance a) (state_ok_advance a Ha))
        as [a' E].
      exists a'. rewrite E. f_equal. f_equal.
      rewrite <- app_assoc. f_equal.
      replace (Nat.min (S n) (15 - i)) with (S (Nat.min n (15 - S i))) by lia.
      reflexivity.
    + rewrite (body_skip (primes, a) (Z.of_nat i) ltac:(lia)). cbn [bind].
      destruct (IH (S i) primes a Ha) as [a' E].
      exists a'. rewrite E.
      replace (Nat.min (S n) (15 - i)) with (Nat.min n (15 - S i)) by lia.
      reflexivity.
Qed.

Lemma state_ok_abs (v : float) :
  is_finite (abs v * 15) = true -> state_ok (abs v).
Proof.
  intros H. apply is_finite_spec in H. destruct H as (s & k & H).
  assert (Ha : SFabs (Prim2SF (abs v)) = Prim2SF (abs v)).
  { rewrite abs_spec. now destruct (Prim2SF v). }
  split; [exact Ha|]. exists k.
  exact (mul_nonneg_sign _ _ _ _ _ _ Prim2SF_15 Ha H).
Qed.

Lemma prime_encode_refines (v : float) (k : Z) :
  is_finite (abs v * 15) = true ->
  prime_encode v k = Ok (prime_encode_spec v k).
Proof.
  intros H. unfold prime_encode, range.
  destruct (loop_ok (Z.to_nat k) 0 [] (abs v) (state_ok_abs v H)) as [a' E].
  rewrite E. cbn [bind fst app]. unfold prime_encode_spec, table_size.
  replace (Z.to_nat (Z.min k 15)) with (Nat.min (Z.to_nat k) (15 - 0)) by lia.
  reflexivity.
Qed.

(** *** The sorted set of the selected primes *)

Lemma insert_perm (x : Z) (l : list Z) : Permutation (Py.insert x l) (x :: l).
Proof.
  induction l as [|y l IH]; cbn; [reflexivity|].
  destruct (x <=? y); [reflexivity|].
  rewrite IH. apply perm_swap.
Qed.

Lemma sorted_perm (l : list Z) : Permutation (Py.sorted l) l.
Proof.
  induction l as [|x l IH]; cbn; [reflexivity|].
  unfold Py.sorted in IH. now rewrite insert_perm, IH.
Qed.

Lemma insert_sorted (x : Z) (l : list Z) :
  StronglySorted Z.le l -> StronglySorted Z.le (Py.insert x l).
Proof.
  induction 1 as [|y l Hs IH Hy]; cbn.
  - repeat constructor.
  - destruct (Z.leb_spec x y) as [Hxy|Hxy].
    + constructor; [now constructor|].
      constructor; [assumption|].
      eapply Forall_impl; [|exact Hy]. cbn; intros; lia.
    + constructor; [assumption|].
      rewrite (Forall_forall). intros z Hz.
      apply (Permutation_in _ (insert_perm x l)) in Hz.
      destruct Hz as [<-|Hz]; [lia|].
      rewrite Forall_forall in Hy. now apply Hy.
Qed.

Lemma sorted_sorted (l : list Z) : StronglySorted Z.le (Py.sorted l).
Proof.
  induction l as [|x l IH]; cbn; [constructor|now apply insert_sorted].
Qed.

Lemma sorted_nodup_lt (l : list Z) :
  StronglySorted Z.le l -> NoDup l -> StronglySorted Z.lt l.
Proof.
  induction 1 as [|x l Hs IH Hx]; intros Hnd; [constructor|].
  inversion Hnd as [|? ? Hnin Hnd']; subst.
  constructor; [now apply IH|].
  rewrite Forall_forall in *. intros y Hy.
  specialize (Hx y Hy). assert (x <> y) by (intros ->; contradiction). lia.
Qed.

Lemma strongly_sorted_ascending (l : list Z) :
  StronglySorted Z.lt l -> strictly_ascending l.
Proof.
  induction 1 as [|x l Hs IH Hx]; intros i j Hij; [cbn in Hij; lia|].
  cbn [List.length] in Hij.
  destruct j as [|j]; [lia|]. cbn [nth].
  destruct i as [|i].
  - rewrite Forall_forall in Hx. apply Hx. apply nth_In. lia.
  - apply IH. lia.
Qed.

Lemma sorted_set_ascending (l : list Z) :
  strictly_ascending (Py.sorted (Py.set l)).
Proof.
  apply strongly_sorted_ascending, sorted_nodup_lt; [apply sorted_sorted|].
  apply (Permutation_NoDup (l := Py.set l)).
  - symmetry. apply sorted_perm.
  - apply NoDup_nodup.
Qed.

Lemma sorted_set_nodup (l : list Z) : NoDup (Py.sorted (Py.set l)).
Proof.
  apply (Permutation_NoDup (l := Py.set l)).
  - symmetry. apply sorted_perm.
  - apply NoDup_nodup.
Qed.

Lemma sorted_set_in (l : list Z) (p : Z) :
  In p (Py.sorted (Py.set l)) <-> In p l.
Proof.
  split; intros H.
  - apply (Permutation_in _ (sorted_perm _)) in H. now apply nodup_In in H.
  - apply (Permutation_in _ (Permutation_sym (sorted_perm _))).
    now apply nodup_In.
Qed.

Lemma sorted_set_length (l : list Z) :
  (List.length (Py.sorted (Py.set l)) <= List.length l)%nat.
Proof.
  rewrite (Permutation_length (sorted_perm _)).
  apply NoDup_incl_length; [apply NoDup_nodup|].
  intros x Hx. now apply nodup_In in Hx.
Qed.

Lemma select_in_table (v : float) : In (select v) FUNDAMENTAL_PRIMES.
Proof.
  unfold select, table_size. apply nth_In.
  pose proof (Z.mod_pos_bound (floor (v * 15)) 15 ltac:(lia)). cbn; lia.
Qed.

Lemma selections_in_table (n : nat) (v : float) (p : Z) :
  In p (selections n v) -> In p FUNDAMENTAL_PRIMES.
Proof.
  revert v. induction n as [|n IH]; intros v; cbn; [contradiction|].
  intros [<-|H]; [apply select_in_table|now apply IH with (advance v)].
Qed.

Lemma selections_length (n : nat) (v : float) :
  List.length (selections n v) = n.
Proof. revert v. induction n as [|n IH]; intros v; cbn; [|rewrite IH]; reflexivity. Qed.

Lemma spec_well_formed (v : float) (k : Z) :
  0 <= k ->
  strictly_ascending (prime_encode_spec v k) /\
  NoDup (prime_encode_spec v k) /\
  len (prime_encode_spec v k) <= Z.min k 15 /\
  forall p, In p (prime_encode_spec v k) -> In p FUNDAMENTAL_PRIMES.
Proof.
  intros Hk. unfold prime_encode_spec.
  split; [apply sorted_set_ascending|].
  split; [apply sorted_set_nodup|]. split.
  - unfold len. pose proof (sorted_set_length
      (selections (Z.to_nat (Z.min k table_size)) (abs v))) as H.
    rewrite selections_length in H. unfold table_size in *. lia.
  - intros p Hp. apply (proj1 (sorted_set_in _ _)) in Hp.
    now apply selections_in_table in Hp.
Qed.

Lemma encode_raises_first (v : float) (k : Z) (exc : string) :
  0 < k -> Py.int (abs v * 15) = Raise exc -> prime_encode v k = Raise exc.
Proof.
  intros Hk He. unfold prime_encode, range.
  destruct (Z.to_nat k) as [|n] eqn:E; [lia|].
  cbn [seq map for_each]. unfold prime_encode_body at 1.
  change (len FUNDAMENTAL_PRIMES) with 15 at 1. cbn [Z.of_nat Z.ltb Z.compare].
  rewrite float_of_int_len. cbn [bind]. rewrite He. reflexivity.
Qed.

Lemma encode_no_steps (v : float) (k : Z) : k <= 0 -> prime_encode v k = Ok [].
Proof.
  intros Hk. unfold prime_encode, range.
  replace (Z.to_nat k) with 0%nat by lia. reflexivity.
Qed.

Lemma int_nan (v : float) :
  is_nan v = true -> Py.int (abs v * 15) = Raise ValueError.
Proof.
  intros H. apply is_nan_spec in H. unfold Py.int.
  rewrite FloatAxioms.mul_spec, abs_spec, H. reflexivity.
Qed.

Lemma int_infinity (x : float) :
  is_infinity x = true -> Py.int x = Raise OverflowError.
Proof.
  intros H. apply is_infinity_spec in H. destruct H as [s H].
  unfold Py.int. now rewrite H.
Qed.

End Encode.

(** ** prime_encode: the claims *)

(** C3, as stated, fails at the finite value [1e308] with [k = 1]:
    [1e308 * 15] overflows to infinity and [int(inf)] raises OverflowError. *)
Lemma encode_well_formed_counterexample : ~ encode_well_formed 1e308 1.
Proof.
  intros H. destruct (H eq_refl ltac:(lia)) as (l & E & _).
  vm_compute in E. discriminate E.
Qed.

(** C3, amended: for every float [v] whose [|v| * 15] is finite and every
    [k >= 0], [prime_encode v k] returns a strictly ascending, duplicate-free
    list of length at most [min k 15], drawn from the 15-prime table. *)
Theorem encode_well_formed_in_range (v : float) (k : Z) :
  is_finite (abs v * 15) = true -> (0 <= k)%Z ->
  exists l, prime_encode v k = Ok l /\
    strictly_ascending l /\ NoDup l /\ (len l <= Z.min k 15)%Z /\
    forall p, In p l -> In p FUNDAMENTAL_PRIMES.
Proof.
  intros Hv Hk. exists (prime_encode_spec v k).
  split; [now apply prime_encode_refines|now apply spec_well_formed].
Qed.

Lemma encode_well_formed_in_range_witness :
  exists l, prime_encode 0.1 5 = Ok l /\
    strictly_ascending l /\ NoDup l /\ (len l <= Z.min 5 15)%Z /\
    forall p, In p l -> In p FUNDAMENTAL_PRIMES.
Proof.
  apply encode_well_formed_in_range; [reflexivity|lia].
Defined.

(** C4, as stated, fails at the finite value [1e308] with [num_primes = 1]:
    the first selection step raises OverflowError and nothing is returned. *)
Lemma encode_follows_spec_counterexample : ~ encode_follows_spec 1e308 1.
Proof.
  intros H. specialize (H eq_refl ltac:(lia)).
  vm_compute in H. discriminate H.
Qed.

(** C4, amended: for every float [value] whose [|value| * 15] is finite,
    [prime_encode] returns what [min(num_primes, 15)] selection steps give:
    each step selects [table[floor(v * 15) mod 15]] and advances to
    [(v * phi) mod 1], and the result is the deduplicated ascending sort. *)
Theorem encode_follows_spec_in_range (value : float) (num_primes : Z) :
  is_finite (abs value * 15) = true ->
  prime_encode value num_primes = Ok (prime_encode_spec value num_primes).
Proof. apply prime_encode_refines. Qed.

Lemma encode_follows_spec_in_range_witness :
  prime_encode 0.1 5 = Ok (prime_encode_spec 0.1 5).
Proof. apply encode_follows_spec_in_range. reflexivity. Defined.

(** C6, as stated, fails at the finite value [1e308] with [num_primes = 1]:
    [prime_encode] raises OverflowError. *)
Lemma encode_errors_counterexample : ~ encode_errors 1e308 1.
Proof.
  intros [H _]. destruct (H eq_refl) as [l E].
  vm_compute in E. discriminate E.
Qed.

(** C6, amended: [prime_encode] raises nothing when [|value| * 15] is finite
    or [num_primes <= 0]; with [num_primes > 0] a NaN raises ValueError and a
    value whose [|value| * 15] is infinite raises OverflowError. *)
Theorem encode_errors_by_case (value : float) (num_primes : Z) :
  (is_finite (abs value * 15) = true ->
   exists l, prime_encode value num_primes = Ok l) /\
  ((num_primes <= 0)%Z -> prime_encode value num_primes = Ok []) /\
  ((0 < num_primes)%Z -> is_nan value = true ->
   prime_encode value num_primes = Raise "ValueError") /\
  ((0 < num_primes)%Z -> is_infinity (abs value * 15) = true ->
   prime_encode value num_primes = Raise "OverflowError").
Proof.
  repeat split.
  - intros H. eexists. now apply prime_encode_refines.
  - apply encode_no_steps.
  - intros Hk Hn. apply encode_raises_first; [assumption|now apply int_nan].
  - intros Hk Hi. apply encode_raises_first; [assumption|now apply int_infinity].
Qed.

Lemma encode_errors_by_case_witness :
  (exists l, prime_encode 0.1 5 = Ok l) /\
  prime_encode nan 0 = Ok [] /\
  prime_encode nan 1 = Raise "ValueError" /\
  prime_encode infinity 1 = Raise "OverflowError" /\
  prime_encode 1e308 1 = Raise "OverflowError".
Proof.
  split; [apply (encode_errors_by_case 0.1 5); reflexivity|].
  split; [apply (encode_errors_by_case nan 0); lia|].
  split; [apply (encode_errors_by_case nan 1); [lia|reflexivity]|].
  split; [apply (encode_errors_by_case infinity 1); [lia|reflexivity]|].
  apply (encode_errors_by_case 1e308 1); [lia|reflexivity].
Defined.

(** ** merge: commutation *)

(** C8, amended: in binary64 [merge a b] and [merge b a] have the same
    confidence and the same count, bit for bit; their strengths are the same
    number in exact arithmetic, where [merge] commutes in all three fields,
    and can differ in the last place in binary64. *)
Theorem merge_commutes_up_to_rounding :
  (forall a b : TruthValue float,
     exists r r', merge a b = Ok r /\ merge b a = Ok r' /\
       confidence r = confidence r' /\ count r = count r') /\
  (forall a b : TruthValue R, merge a b = merge b a).
Proof.
  split; [|exact merge_exact_comm].
  intros a b. rewrite !merge_ok.
  do 2 eexists. split; [reflexivity|]. split; [reflexivity|]. cbn. split.
  - now rewrite (add_comm (confidence a)), (mul_comm (confidence a)).
  - apply add_comm.
Qed.

(** ** merge: the default TruthValue

    The default has confidence 0.0 and count 0.0, so merging with it adds
    and multiplies by zero; what follows are the binary64 identities this
    needs, for values that are finite and not negative. *)






Lemma Prim2SF_one : Prim2SF 1 = S754_finite false 4503599627370496 (-52).
Proof. reflexivity. Qed.

(** A value in (0, 1]. *)
Lemma pos_le_one_below (c : float) :
  (0 <? c) = true -> (c <=? 1) = true -> fin_below false 1 (Prim2SF c).
Proof.
  rewrite FloatAxioms.ltb_spec, FloatAxioms.leb_spec, Prim2SF_zero, Prim2SF_one.
  pose proof (Prim2SF_valid c) as V.
  destruct (Prim2SF c) as [s|s| |s m e];
    try (destruct s; discriminate); try discriminate.
  destruct s; [discriminate|]. intros _ Hle.
  right. exists m, e. split; [reflexivity|].
  apply valid_finite in V.
  unfold SFleb, SFcompare in Hle.
  change (IntDef.Z.compare e (-52)%Z) with (e ?= -52)%Z in Hle.
  destruct (Z.compare_spec e (-52)%Z); first [lia|discriminate].
Qed.

(** A value in [0, 1]: a zero of either sign, or a value in (0, 1]. *)
Lemma in_unit_cases (s : float) :
  in_unit s = true ->
  (exists sg, Prim2SF s = S754_zero sg) \/ fin_below false 1 (Prim2SF s).
Proof.
  unfold in_unit. intros H. apply andb_prop in H. destruct H as [H0 H1].
  destruct (0 <? s) eqn:Hp; [right; now apply pos_le_one_below|].
  left. revert H0 Hp.
  rewrite FloatAxioms.ltb_spec, FloatAxioms.leb_spec, Prim2SF_zero.
  destruct (Prim2SF s) as [sg|sg| |sg m e];
    try (destruct sg; discriminate); try discriminate.
  intros _ _. now exists sg.
Qed.

Lemma SFdiv_finite_not_nan (sx sy : bool) (mx my : positive) (ex ey : Z) :
  exists m2 e2, (0 <= m2)%Z /\
    SFdiv prec emax (S754_finite sx mx ex) (S754_finite sy my ey)
    = round_result (xorb sx sy) m2 e2.
Proof.
  cbn [SFdiv]. unfold SFdiv_core_binary.
  set (e' := IntDef.Z.min _ _).
  set (m' := match IntDef.Z.sub (IntDef.Z.sub ex ey) e' with
             | Z0 => Zpos mx | Zpos _ => _ | Zneg _ => Z0 end).
  assert (Hm' : (0 <= m')%Z).
  { unfold m'. destruct (IntDef.Z.sub _ e'); try lia.
    change (IntDef.Z.shiftl ?a ?b) with (Z.shiftl a b).
    apply Z.shiftl_nonneg. lia. }
  change (IntDef.Z.div_eucl m' (Zpos my)) with (Z.div_eucl m' (Zpos my)).
  pose proof (Z_div_mod m' (Zpos my) ltac:(lia)) as Hdm.
  destruct (Z.div_eucl m' (Zpos my)) as [q r]. destruct Hdm as [Hq Hr].
  assert (Hq0 : (0 <= q)%Z) by nia.
  destruct (binary_round_aux_shape (xorb sx sy) q e' (new_location (Zpos my) r) Hq0)
    as (m2 & e2 & Hm2 & _ & Heq & _).
  exists m2, e2. split; [assumption|exact Heq].
Qed.





(** ** Binary64 rounding: values against a power of two

    The exponent bounds above decide finiteness; the range of a result needs
    the value: a mantissa below [2 ^ (k - e)] rounds to one that is at most
    [2 ^ (k - e')]. *)

Section PowerOfTwo.

Local Open Scope Z_scope.

(** Rounding does not cross a power of two: a value below [2 ^ k] rounds to
    a value that is at most [2 ^ k]. *)
Lemma binary_round_aux_le_pow2 (sx : bool) (mx ex : Z) (lx : location) (k : Z) :
  0 <= mx < 2 ^ (k - ex) -> -1074 <= k ->
  exists m2 e2, 0 <= m2 <= 2 ^ (k - e2) /\ e2 <= k /\
    binary_round_aux prec emax sx mx ex lx = round_result sx m2 e2.
Proof.
  intros [Hmx Hlt] Hk.
  assert (Hex : ex <= k).
  { destruct (Z_le_gt_dec ex k) as [|Hgt]; [assumption|].
    rewrite Z.pow_neg_r in Hlt by lia. lia. }
  assert (Hdx : Zdigits2 mx <= k - ex) by (apply Zdigits2_le_of_lt_pow; lia).
  unfold binary_round_aux.
  pose proof (shr_fexp_snd mx ex lx) as Hs1.
  pose proof (shr_fexp_m mx ex lx Hmx) as Hm1.
  destruct (shr_fexp prec emax mx ex lx) as [mrs' e1].
  cbn [fst snd] in Hs1, Hm1. rewrite fexp_eq in Hs1, Hm1. rewrite <- Hs1 in Hm1.
  assert (He1 : ex <= e1 <= k) by lia.
  set (m1' := round_nearest_even (shr_m mrs') (loc_of_shr_record mrs')).
  pose proof (round_nearest_even_bounds (shr_m mrs') (loc_of_shr_record mrs')) as Hr.
  fold m1' in Hr.
  assert (H1 : 0 <= shr_m mrs' < 2 ^ (k - e1)).
  { rewrite Hm1. split; [apply Z.div_pos; [lia|apply Z.pow_pos_nonneg; lia]|].
    apply Z.div_lt_upper_bound; [apply Z.pow_pos_nonneg; lia|].
    rewrite <- Z.pow_add_r by lia.
    replace (e1 - ex + (k - e1)) with (k - ex) by lia. assumption. }
  assert (Hm1' : 0 <= m1' <= 2 ^ (k - e1)) by lia.
  pose proof (shr_fexp_snd m1' e1 loc_Exact) as Hs2.
  pose proof (shr_fexp_m m1' e1 loc_Exact (proj1 Hm1')) as Hm2.
  destruct (shr_fexp prec emax m1' e1 loc_Exact) as [mrs'' e2].
  cbn [fst snd] in Hs2, Hm2. rewrite fexp_eq in Hs2, Hm2. rewrite <- Hs2 in Hm2.
  assert (Hd1 : Zdigits2 m1' <= k - e1 + 1).
  { apply Zdigits2_le_of_lt_pow; [lia|]. split; [lia|].
    rewrite Z.pow_add_r by lia. change (2 ^ 1) with 2.
    pose proof (Z.pow_pos_nonneg 2 (k - e1)). lia. }
  assert (He2 : e1 <= e2 <= k) by (clearbody m1'; lia).
  exists (shr_m mrs''), e2. split; [|split; [lia|reflexivity]].
  rewrite Hm2. split; [apply Z.div_pos; [lia|apply Z.pow_pos_nonneg; lia]|].
  apply Z.div_le_upper_bound; [apply Z.pow_pos_nonneg; lia|].
  rewrite <- Z.pow_add_r by lia.
  replace (e2 - e1 + (k - e2)) with (k - e1) by lia. lia.
Qed.

Lemma iter_xO_value (m d : positive) :
  Zpos (Pos.iter xO m d) = Zpos m * 2 ^ Zpos d.
Proof.
  induction d as [|d IH] using Pos.peano_ind.
  - cbn. lia.
  - rewrite Pos.iter_succ, Pos2Z.inj_succ, Z.pow_succ_r by lia.
    change (Zpos (Pos.iter xO m d)~0) with (2 * Zpos (Pos.iter xO m d)). lia.
Qed.

Lemma shl_align_value (m : positive) (e e' : Z) :
  Zpos (fst (shl_align m e e')) = Zpos m * 2 ^ (e - Z.min e e') /\
  snd (shl_align m e e') = Z.min e e'.
Proof.
  unfold shl_align. change (IntDef.Z.sub e' e) with (e' - e).
  destruct (e' - e) as [|d|d] eqn:E; cbn [fst snd].
  - replace (e - Z.min e e') with 0 by lia. cbn. lia.
  - replace (e - Z.min e e') with 0 by lia. cbn. lia.
  - change (PosDef.Pos.iter xO m d) with (Pos.iter xO m d).
    rewrite iter_xO_value. replace (e - Z.min e e') with (Zpos d) by lia. lia.
Qed.

Lemma binary_round_le_pow2 (s : bool) (m : positive) (e k : Z) :
  Zpos m < 2 ^ (k - e) -> -1074 <= k ->
  exists m2 e2, 0 <= m2 <= 2 ^ (k - e2) /\ e2 <= k /\
    binary_round prec emax s m e = round_result s m2 e2.
Proof.
  intros Hm Hk. unfold binary_round.
  assert (He : e <= k).
  { destruct (Z_le_gt_dec e k) as [|Hgt]; [assumption|].
    rewrite Z.pow_neg_r in Hm by lia. lia. }
  destruct (shl_align_value m e
              (fexp prec emax (IntDef.Z.add (Zpos (digits2_pos m)) e))) as [Hv He'].
  destruct (shl_align m e _) as [mz ez]. cbn [fst snd] in Hv, He'.
  apply binary_round_aux_le_pow2; [|assumption].
  split; [lia|]. rewrite Hv, <- He'.
  replace (k - ez) with (k - e + (e - ez)) by lia.
  rewrite Z.pow_add_r by lia.
  apply Z.mul_lt_mono_pos_r; [apply Z.pow_pos_nonneg; lia|assumption].
Qed.

(** [<=] on two positive finite values, by exponent and then mantissa. *)
Lemma SFleb_finite_pos (p q : positive) (e1 e2 : Z) :
  e1 < e2 \/ (e1 = e2 /\ Zpos p <= Zpos q) ->
  SFleb (S754_finite false p e1) (S754_finite false q e2) = true.
Proof.
  intros H. unfold SFleb, SFcompare.
  change (IntDef.Z.compare e1 e2) with (e1 ?= e2).
  destruct (Z.compare_spec e1 e2) as [->|Hlt|Hgt]; [|reflexivity|lia].
  change (PosDef.Pos.compare_cont Eq p q) with (Pos.compare p q).
  destruct (Pos.compare_spec p q); first [reflexivity|lia].
Qed.

(** A rounded value that is at most [2 ^ 0] compares [<= 1.0]. *)
Lemma round_result_in_unit (z : float) (m2 e2 : Z) :
  Prim2SF z = round_result false m2 e2 ->
  0 <= m2 <= 2 ^ (0 - e2) -> e2 <= 0 -> in_unit z = true.
Proof.
  intros Hz [H0 Hm] He. unfold in_unit.
  rewrite !FloatAxioms.leb_spec, Prim2SF_zero, Prim2SF_one.
  pose proof (Prim2SF_valid z) as V. rewrite Hz in V |- *.
  destruct m2 as [|p|p]; [reflexivity| |lia].
  cbn [round_result] in V |- *.
  destruct (e2 <=? emax - prec) eqn:E;
    [|apply Z.leb_gt in E; change (emax - prec) with 971 in E; lia].
  apply valid_finite in V. destruct V as [V _].
  assert (Hd : Zpos (digits2_pos p) <= 0 - e2 + 1).
  { apply (Zdigits2_le_of_lt_pow (Zpos p)); [lia|]. split; [lia|].
    rewrite Z.pow_add_r by lia. change (2 ^ 1) with 2.
    pose proof (Z.pow_pos_nonneg 2 (0 - e2)). lia. }
  change (SFleb (S754_zero false) (S754_finite false p e2)) with true.
  cbn [andb]. apply SFleb_finite_pos.
  destruct (Z.eq_dec e2 (-52)) as [->|Hne]; [right|left; lia].
  split; [reflexivity|]. exact Hm.
Qed.

(** Half of a value below 1 is at most a half. *)
Lemma SFmul_half_bound (a m : positive) (sg : bool) (e : Z) :
  Zpos a = 2 ^ 52 -> Zpos (digits2_pos m) + e <= 0 ->
  exists m2 e2, 0 <= m2 <= 2 ^ (-1 - e2) /\ e2 <= -1 /\
    SFmul prec emax (S754_finite false a (-53)) (S754_finite sg m e)
    = round_result sg m2 e2.
Proof.
  intros Ha Hd. cbn [SFmul xorb].
  change (PosDef.Pos.mul a m) with (a * m)%positive.
  change (IntDef.Z.add (-53) e) with (-53 + e).
  destruct (digits2_pos_bounds m) as [_ Hu].
  assert (Hlt : Zpos m < 2 ^ (- e)).
  { eapply Z.lt_le_trans; [exact Hu|]. apply Z.pow_le_mono_r; lia. }
  apply binary_round_aux_le_pow2; [|lia].
  split; [lia|]. rewrite Pos2Z.inj_mul, Ha.
  replace (-1 - (-53 + e)) with (52 + - e) by lia.
  rewrite Z.pow_add_r by lia.
  apply Z.mul_lt_mono_pos_l; [apply Z.pow_pos_nonneg; lia|assumption].
Qed.

(** A half plus a value strictly between minus a half and a half. *)
Lemma SFadd_half_bound (a p : positive) (sg : bool) (e2 : Z) :
  Zpos a = 2 ^ 52 -> Zpos p < 2 ^ (-1 - e2) ->
  exists m3 e3, 0 <= m3 <= 2 ^ (0 - e3) /\ e3 <= 0 /\
    SFadd prec emax (S754_finite false a (-53)) (S754_finite sg p e2)
    = round_result false m3 e3.
Proof.
  intros Ha Hp.
  assert (He2 : e2 <= -1).
  { destruct (Z_le_gt_dec e2 (-1)) as [|Hgt]; [assumption|].
    rewrite Z.pow_neg_r in Hp by lia. lia. }
  cbn [SFadd]. change (IntDef.Z.min (-53) e2) with (Z.min (-53) e2).
  set (ez := Z.min (-53) e2).
  destruct (shl_align_value a (-53) ez) as [HA _].
  destruct (shl_align_value p e2 ez) as [HB _].
  replace (Z.min (-53) ez) with ez in HA by (unfold ez; lia).
  replace (Z.min e2 ez) with ez in HB by (unfold ez; lia).
  set (A := fst (shl_align a (-53) ez)) in *.
  set (B := fst (shl_align p e2 ez)) in *.
  assert (HA' : Zpos A = 2 ^ (-1 - ez)).
  { rewrite HA, Ha, <- Z.pow_add_r by (unfold ez; lia). f_equal. lia. }
  assert (HB' : Zpos B < 2 ^ (-1 - ez)).
  { rewrite HB. replace (-1 - ez) with (-1 - e2 + (e2 - ez)) by lia.
    rewrite Z.pow_add_r by (unfold ez; lia).
    apply Z.mul_lt_mono_pos_r; [apply Z.pow_pos_nonneg; unfold ez; lia|assumption]. }
  assert (H2 : 2 ^ (0 - ez) = 2 * 2 ^ (-1 - ez)).
  { replace (0 - ez) with (Z.succ (-1 - ez)) by lia.
    apply Z.pow_succ_r. unfold ez; lia. }
  assert (Hez : -1074 <= 0) by lia.
  cbn [cond_Zopp]. change (IntDef.Z.add ?x ?y) with (x + y).
  clearbody A B ez.
  destruct sg; cbn [cond_Zopp].
  - change (IntDef.Z.opp (Zpos B)) with (- Zpos B).
    destruct (Zpos A + - Zpos B) as [|M|M] eqn:EM; try lia.
    cbn [binary_normalize]. apply binary_round_le_pow2; lia.
  - destruct (Zpos A + Zpos B) as [|M|M] eqn:EM; try lia.
    cbn [binary_normalize]. apply binary_round_le_pow2; lia.
Qed.

Lemma SFleb_finite_pos_inv (p q : positive) (e1 e2 : Z) :
  SFleb (S754_finite false p e1) (S754_finite false q e2) = true ->
  e1 < e2 \/ (e1 = e2 /\ Zpos p <= Zpos q).
Proof.
  unfold SFleb, SFcompare.
  change (IntDef.Z.compare e1 e2) with (e1 ?= e2).
  destruct (Z.compare_spec e1 e2) as [->|Hlt|Hgt]; [|now left|discriminate].
  change (PosDef.Pos.compare_cont Eq p q) with (Pos.compare p q).
  destruct (Pos.compare_spec p q); first [discriminate|right; lia].
Qed.

Lemma SFleb_finite_neg_inv (p q : positive) (e1 e2 : Z) :
  SFleb (S754_finite true q e2) (S754_finite true p e1) = true ->
  e1 < e2 \/ (e1 = e2 /\ Zpos p <= Zpos q).
Proof.
  unfold SFleb, SFcompare.
  change (IntDef.Z.compare e2 e1) with (e2 ?= e1).
  destruct (Z.compare_spec e2 e1) as [->|Hlt|Hgt]; [|discriminate|now left].
  change (PosDef.Pos.compare_cont Eq q p) with (Pos.compare q p).
  destruct (Pos.compare_spec q p); cbn [CompOpp]; first [discriminate|right; lia].
Qed.

(** A valid mantissa at exponent [e] that is at most [2 ^ 52 * 2 ^ (e' - e)]
    in value: below the power of two, or the power of two itself. *)
Lemma valid_le_pow2 (s : bool) (m q : positive) (e k : Z) :
  SpecFloat.valid_binary prec emax (S754_finite s m e) = true ->
  Zpos q = 2 ^ 52 -> -1022 <= k ->
  e < k - 52 \/ (e = k - 52 /\ Zpos m <= Zpos q) ->
  Zpos (digits2_pos m) + e <= k \/ (m = q /\ e = k - 52).
Proof.
  intros V Hq Hk H. apply valid_finite in V. destruct V as [V _].
  destruct H as [Hlt|[-> Hle]]; [left; lia|].
  destruct (digits2_pos_bounds m) as [Hlo _].
  destruct (Z_le_gt_dec (Zpos (digits2_pos m)) 52) as [Hd|Hd]; [left; lia|right].
  assert (Hd' : Zpos (digits2_pos m) = 53) by lia.
  rewrite Hd' in Hlo. change (53 - 1) with 52 in Hlo.
  split; [|reflexivity]. apply Pos2Z.inj. lia.
Qed.

Lemma Prim2SF_m1 : Prim2SF (-1)%float = S754_finite true 4503599627370496 (-52).
Proof. reflexivity. Qed.

Lemma Z_2_52 : Zpos 4503599627370496 = 2 ^ 52.
Proof. reflexivity. Qed.

(** A value in [-1, 1]: a zero, a value of magnitude below 1, or 1 or -1. *)
Lemma sym_unit_cases (s : float) :
  ((-1 <=? s) && (s <=? 1))%float = true ->
  (exists sg, Prim2SF s = S754_zero sg) \/
  (exists sg m e, Prim2SF s = S754_finite sg m e /\
                  Zpos (digits2_pos m) + e <= 0) \/
  s = 1%float \/ s = (-1)%float.
Proof.
  intros H. apply andb_prop in H. destruct H as [Hlo Hhi].
  rewrite FloatAxioms.leb_spec, Prim2SF_m1 in Hlo.
  rewrite FloatAxioms.leb_spec, Prim2SF_one in Hhi.
  pose proof (Prim2SF_valid s) as V.
  destruct (Prim2SF s) as [sg|sg| |sg m e] eqn:Es.
  - left. now exists sg.
  - destruct sg; discriminate.
  - discriminate.
  - right. destruct sg.
    + apply SFleb_finite_neg_inv in Hlo.
      destruct (valid_le_pow2 true m _ e 0 V Z_2_52 ltac:(lia) Hlo) as [Hd|[-> ->]].
      * left. now exists true, m, e.
      * right; right. apply Prim2SF_inj. now rewrite Es, Prim2SF_m1.
    + apply SFleb_finite_pos_inv in Hhi.
      destruct (valid_le_pow2 false m _ e 0 V Z_2_52 ltac:(lia) Hhi) as [Hd|[-> ->]].
      * left. now exists false, m, e.
      * right; left. apply Prim2SF_inj. now rewrite Es, Prim2SF_one.
Qed.

Lemma Prim2SF_half : Prim2SF 0.5%float = S754_finite false 4503599627370496 (-53).
Proof. reflexivity. Qed.

(** [0.5 + 0.5 * s] for [s] in [-1, 1] is in [0, 1]: the rounded product is
    at most a half in magnitude and the rounded sum is at most 1. *)
Lemma half_plus_half_in_unit (s : float) :
  ((-1 <=? s) && (s <=? 1))%float = true ->
  in_unit (0.5 + 0.5 * s)%float = true.
Proof.
  intros H.
  assert (Hzero : forall sg, Prim2SF (0.5 * s)%float = S754_zero sg ->
                             in_unit (0.5 + 0.5 * s)%float = true).
  { intros sg Hy.
    replace (0.5 + 0.5 * s)%float with 0.5%float; [reflexivity|].
    apply Prim2SF_inj. rewrite FloatAxioms.add_spec, Hy, Prim2SF_half.
    reflexivity. }
  destruct (sym_unit_cases s H) as [[sg Hs]|[(sg & m & e & Hs & Hd)|[->| ->]]];
    [| |reflexivity|reflexivity].
  - apply (Hzero sg). rewrite FloatAxioms.mul_spec, Hs, Prim2SF_half.
    now destruct sg.
  - destruct (SFmul_half_bound _ m sg e Z_2_52 Hd) as (m2 & e2 & [H0 Hm2] & He2 & Hy).
    assert (Ey : Prim2SF (0.5 * s)%float = round_result sg m2 e2).
    { rewrite FloatAxioms.mul_spec, Hs, Prim2SF_half. exact Hy. }
    pose proof (Prim2SF_valid (0.5 * s)%float) as V. rewrite Ey in V.
    destruct m2 as [|p|p]; [now apply (Hzero sg)| |lia].
    cbn [round_result] in Ey, V.
    destruct (e2 <=? emax - prec) eqn:E;
      [|apply Z.leb_gt in E; change (emax - prec) with 971 in E; lia].
    destruct (Z_le_lt_eq_dec _ _ Hm2) as [Hlt|Heq].
    + destruct (SFadd_half_bound _ p sg e2 Z_2_52 Hlt) as (m3 & e3 & Hm3 & He3 & Hz).
      apply (round_result_in_unit _ m3 e3); [|assumption|assumption].
      rewrite FloatAxioms.add_spec, Ey, Prim2SF_half. exact Hz.
    + assert (Hv : Zpos (digits2_pos p) + e2 <= -1 \/
                   (p = 4503599627370496%positive /\ e2 = -1 - 52)).
      { apply (valid_le_pow2 sg p _ e2 (-1) V Z_2_52); [lia|].
        apply valid_finite in V. destruct V as [V _].
        destruct (digits2_pos_bounds p) as [Hlo Hhi].
        assert (Hdp : Zpos (digits2_pos p) = - e2).
        { assert (Zpos (digits2_pos p) <= -1 - e2 + 1).
          { apply (Zdigits2_le_of_lt_pow (Zpos p)); [lia|]. split; [lia|].
            rewrite Heq, Z.pow_add_r by lia. change (2 ^ 1) with 2.
            pose proof (Z.pow_pos_nonneg 2 (-1 - e2)). lia. }
          assert (-1 - e2 + 1 <= Zpos (digits2_pos p)).
          { apply (Zdigits2_ge_of_pow_le (Zpos p)); lia. }
          lia. }
        assert (He : e2 = -53) by lia. subst e2. right. split; [reflexivity|].
        rewrite Heq. reflexivity. }
      destruct Hv as [Hv|[-> ->]].
      * exfalso. destruct (digits2_pos_bounds p) as [_ Hhi].
        assert (2 ^ Zpos (digits2_pos p) <= 2 ^ (-1 - e2))
          by (apply Z.pow_le_mono_r; lia).
        lia.
      * assert (Ehalf : (0.5 * s)%float = if sg then (-0.5)%float else 0.5%float).
        { apply Prim2SF_inj. rewrite Ey. now destruct sg. }
        rewrite Ehalf. now destruct sg.
Qed.

End PowerOfTwo.

(** ** prime_encode: sign, saturation and growth *)

Lemma abs_opp (v : float) : abs (- v) = abs v.
Proof.
  apply Prim2SF_inj. rewrite !FloatAxioms.abs_spec, FloatAxioms.opp_spec.
  now destruct (Prim2SF v).
Qed.

(** X1: [prime_encode] ignores the sign of its value: for every float
    (NaN and the infinities included) and every [num_primes],
    [prime_encode (- value)] is [prime_encode value], the same list or the
    same exception. *)
Theorem prime_encode_ignores_sign (value : float) (num_primes : Z) :
  prime_encode (- value) num_primes = prime_encode value num_primes.
Proof. unfold prime_encode. now rewrite abs_opp. Qed.

Lemma for_each_app {S : Type} (body : S -> Z -> result S) (l1 l2 : list Z) (st : S) :
  for_each body (l1 ++ l2) st
  = (st' <- for_each body l1 st ;; for_each body l2 st').
Proof.
  revert st. induction l1 as [|i l1 IH]; intros st; cbn; [reflexivity|].
  destruct (body st i); cbn; [apply IH|reflexivity].
Qed.

Lemma for_each_skip (l : list Z) (st : list Z * float) :
  (forall i, In i l -> (15 <= i)%Z) -> for_each prime_encode_body l st = Ok st.
Proof.
  induction l as [|i l IH]; intros H; cbn; [reflexivity|].
  rewrite body_skip by (apply H; now left). cbn. apply IH.
  intros j Hj. apply H. now right.
Qed.

Lemma range_split (k : Z) :
  (15 <= k)%Z ->
  range k = range 15 ++ map Z.of_nat (seq 15 (Z.to_nat k - 15)).
Proof.
  intros Hk. unfold range. rewrite <- map_app. f_equal.
  change (Z.to_nat 15) with 15%nat.
  replace (Z.to_nat k) with (15 + (Z.to_nat k - 15))%nat at 1 by lia.
  apply seq_app.
Qed.

(** X2: asking for more primes than the table holds changes nothing: for
    [num_primes >= 15] the call behaves as with [num_primes = 15], for every
    value, since the loop body does nothing once [i] reaches the table's
    length. *)
Theorem prime_encode_saturates (value : float) (num_primes : Z) :
  (15 <= num_primes)%Z ->
  prime_encode value num_primes = prime_encode value 15.
Proof.
  intros Hk. unfold prime_encode. rewrite (range_split _ Hk), for_each_app.
  destruct (for_each prime_encode_body (range 15) ([], abs value)) as [st|e];
    cbn [bind]; [|reflexivity].
  rewrite for_each_skip; [reflexivity|].
  intros i Hi. apply in_map_iff in Hi. destruct Hi as (n & <- & Hn).
  apply in_seq in Hn. lia.
Qed.

Lemma prime_encode_saturates_witness :
  prime_encode 0.1 20 = prime_encode 0.1 15.
Proof. apply prime_encode_saturates. lia. Defined.

Lemma selections_mono (n n' : nat) (v : float) (p : Z) :
  (n <= n')%nat -> In p (selections n v) -> In p (selections n' v).
Proof.
  revert n' v. induction n as [|n IH]; intros n' v Hn; cbn; [tauto|].
  destruct n' as [|n']; [lia|]. cbn. intros [->|H]; [now left|right].
  apply IH; [lia|assumption].
Qed.

(** X3: when [|value| * 15] is finite, every prime of
    [prime_encode value k] is also in [prime_encode value k'] for [k <= k']:
    a larger request never drops a prime. *)
Theorem prime_encode_monotone (value : float) (k k' : Z) :
  is_finite (abs value * 15) = true -> (k <= k')%Z ->
  exists l l', prime_encode value k = Ok l /\ prime_encode value k' = Ok l' /\
    incl l l'.
Proof.
  intros Hf Hk. rewrite !(prime_encode_refines _ _ Hf).
  do 2 eexists. split; [reflexivity|]. split; [reflexivity|].
  intros p Hp. unfold prime_encode_spec in *.
  apply (proj1 (sorted_set_in _ _)) in Hp. apply (proj2 (sorted_set_in _ _)).
  revert Hp. apply selections_mono. unfold table_size. lia.
Qed.

Lemma prime_encode_monotone_witness :
  exists l l', prime_encode 0.1 2 = Ok l /\ prime_encode 0.1 5 = Ok l' /\
    incl l l'.
Proof. apply prime_encode_monotone; [reflexivity|lia]. Defined.

(** X4: when [|value| * 15] is finite and [num_primes >= 1], the result
    contains [FUNDAMENTAL_PRIMES[floor(|value| * 15) mod 15]], the prime
    the value itself selects; in particular it is not empty. *)
Theorem prime_encode_first (value : float) (num_primes : Z) :
  is_finite (abs value * 15) = true -> (1 <= num_primes)%Z ->
  exists l, prime_encode value num_primes = Ok l /\
    In (nth (Z.to_nat (floor (abs value * 15) mod 15)) FUNDAMENTAL_PRIMES 0%Z) l.
Proof.
  intros Hf Hk. rewrite (prime_encode_refines _ _ Hf).
  eexists. split; [reflexivity|]. unfold prime_encode_spec.
  apply (proj2 (sorted_set_in _ _)).
  destruct (Z.to_nat (Z.min num_primes table_size)) as [|n] eqn:E;
    [unfold table_size in E; lia|].
  cbn [selections]. left. reflexivity.
Qed.

Lemma prime_encode_first_witness :
  exists l, prime_encode 0.1 5 = Ok l /\
    In (nth (Z.to_nat (floor (abs 0.1 * 15) mod 15)) FUNDAMENTAL_PRIMES 0%Z) l.
Proof. apply prime_encode_first; [reflexivity|lia]. Defined.

(** ** compute_ppm_coherence: product and sum *)

Section CoherenceFacts.

Variable libm_sin : float -> float.

Lemma coherence_fold (P : list Z) (a b : Z) :
  fold_left (fun '(product, total) p => (product * p, total + p)%Z) P (a, b)
  = (a * fold_right Z.mul 1 P, b + fold_right Z.add 0 P)%Z.
Proof.
  revert a b. induction P as [|p P IH]; intros a b; cbn [fold_left fold_right].
  - f_equal; lia.
  - rewrite IH. f_equal; lia.
Qed.

(** The function in terms of the product and the sum of the list. *)
Lemma coherence_unfold (P : list Z) :
  compute_ppm_coherence libm_sin P
  = if (fold_right Z.add 0 P =? 0)%Z then Ok 0.5
    else
      sqrt_product <- math_sqrt (fold_right Z.mul 1%Z P) ;;
      t <- Py.float_of_int (fold_right Z.add 0%Z P) ;;
      q <- fdiv (sqrt_product * PI) t ;;
      s <- math_sin libm_sin q ;;
      Ok (0.5 + 0.5 * s).
Proof.
  destruct P as [|p P]; [reflexivity|].
  unfold compute_ppm_coherence. rewrite coherence_fold.
  rewrite Z.mul_1_l, Z.add_0_l. reflexivity.
Qed.

Lemma product_perm (P Q : list Z) :
  Permutation P Q -> fold_right Z.mul 1%Z P = fold_right Z.mul 1%Z Q.
Proof. induction 1; cbn; lia. Qed.

Lemma sum_perm (P Q : list Z) :
  Permutation P Q -> fold_right Z.add 0%Z P = fold_right Z.add 0%Z Q.
Proof. induction 1; cbn; lia. Qed.

(** X5: [compute_ppm_coherence] does not depend on the order of the list:
    two lists that are permutations of each other give the same float or
    the same exception, the integer product and sum being exact. *)
Theorem coherence_order_independent (P Q : list Z) :
  Permutation P Q ->
  compute_ppm_coherence libm_sin P = compute_ppm_coherence libm_sin Q.
Proof.
  intros H. rewrite !coherence_unfold.
  now rewrite (product_perm _ _ H), (sum_perm _ _ H).
Qed.

(** X6: a list whose sum is zero (the empty list, [[0]], [[3, -5, 2]])
    gives 0.5 whatever its product: the guard [total == 0] returns before
    the square root and the division. *)
Theorem coherence_zero_sum (P : list Z) :
  fold_right Z.add 0%Z P = 0%Z -> compute_ppm_coherence libm_sin P = Ok 0.5.
Proof. intros H. rewrite coherence_unfold, H. reflexivity. Qed.

End CoherenceFacts.

Lemma coherence_order_independent_witness :
  compute_ppm_coherence (fun x => x) [2; 3; 5]%Z
  = compute_ppm_coherence (fun x => x) [5; 2; 3]%Z.
Proof.
  apply coherence_order_independent.
  apply Permutation_sym, (Permutation_cons_app [2; 3]%Z [] 5%Z).
  rewrite app_nil_r. apply Permutation_refl.
Defined.

Lemma coherence_zero_sum_witness :
  compute_ppm_coherence (fun x => x) [3; -5; 2]%Z = Ok 0.5.
Proof. apply coherence_zero_sum. reflexivity. Defined.

(** ** Binary64 rounding: canonical results, conversions, roots and quotients *)

Section Canonical.

Local Open Scope Z_scope.

Lemma Zdigits2_eq (z d : Z) :
  0 < d -> 2 ^ (d - 1) <= z < 2 ^ d -> Zdigits2 z = d.
Proof.
  intros Hd [Hlo Hhi].
  assert (0 < z) by (pose proof (Z.pow_pos_nonneg 2 (d - 1)); lia).
  pose proof (Zdigits2_le_of_lt_pow z d ltac:(lia) ltac:(lia)).
  pose proof (Zdigits2_ge_of_pow_le z (d - 1) ltac:(lia) Hlo). lia.
Qed.

Lemma Zdigits2_pow2 (d : Z) : 0 <= d -> Zdigits2 (2 ^ d) = d + 1.
Proof.
  intros Hd. apply Zdigits2_eq; [lia|].
  replace (d + 1 - 1) with d by lia. split; [lia|].
  apply Z.pow_lt_mono_r; lia.
Qed.

Lemma Zdigits2_pos (z : Z) : 0 < z -> 0 < Zdigits2 z.
Proof. destruct z; cbn; lia. Qed.

(** Digits of a mantissa shifted right. *)
Lemma Zdigits2_div_pow2 (m j : Z) :
  0 < m -> 0 <= j ->
  (Zdigits2 m <= j /\ m / 2 ^ j = 0) \/
  (j < Zdigits2 m /\ Zdigits2 (m / 2 ^ j) = Zdigits2 m - j).
Proof.
  intros Hm Hj. destruct (Zdigits2_bounds m Hm) as [Hlo Hhi].
  pose proof (Zdigits2_pos m Hm) as Hd.
  destruct (Z_le_gt_dec (Zdigits2 m) j) as [Hle|Hgt]; [left|right].
  - split; [assumption|]. apply Z.div_small. split; [lia|].
    eapply Z.lt_le_trans; [exact Hhi|]. apply Z.pow_le_mono_r; lia.
  - split; [lia|]. apply Zdigits2_eq; [lia|].
    pose proof (Z.pow_pos_nonneg 2 j ltac:(lia) Hj) as Hp.
    split.
    + apply Z.div_le_lower_bound; [assumption|].
      rewrite <- Z.pow_add_r by lia.
      replace (j + (Zdigits2 m - j - 1)) with (Zdigits2 m - 1) by lia. assumption.
    + apply Z.div_lt_upper_bound; [assumption|].
      rewrite <- Z.pow_add_r by lia.
      replace (j + (Zdigits2 m - j)) with (Zdigits2 m) by lia. assumption.
Qed.

(** Digits of a mantissa after rounding up by at most one. *)
Lemma Zdigits2_round (m m' : Z) :
  0 < m -> m <= m' <= m + 1 ->
  Zdigits2 m' = Zdigits2 m \/
  (m' = 2 ^ Zdigits2 m /\ Zdigits2 m' = Zdigits2 m + 1).
Proof.
  intros Hm Hr. destruct (Zdigits2_bounds m Hm) as [Hlo Hhi].
  pose proof (Zdigits2_pos m Hm) as Hd.
  destruct (Z_lt_le_dec m' (2 ^ Zdigits2 m)) as [Hlt|Hge]; [left|right].
  - apply Zdigits2_eq; lia.
  - assert (E : m' = 2 ^ Zdigits2 m) by lia. split; [assumption|].
    rewrite E at 1. apply Zdigits2_pow2. lia.
Qed.

Lemma valid_round_result (s : bool) (m2 e2 : Z) :
  0 <= m2 ->
  (0 < m2 -> e2 = Z.max (Zdigits2 m2 + e2 - 53) (-1074)) ->
  SpecFloat.valid_binary prec emax (round_result s m2 e2) = true.
Proof.
  intros H0 Hc. destruct m2 as [|p|p]; [reflexivity| |lia].
  cbn [round_result]. destruct (e2 <=? emax - prec) eqn:E; [|reflexivity].
  cbn [SpecFloat.valid_binary].
  unfold SpecFloat.bounded, SpecFloat.canonical_mantissa.
  rewrite E, andb_true_r. apply Z.eqb_eq. rewrite fexp_eq.
  change (IntDef.Z.add ?a ?b) with (a + b).
  specialize (Hc ltac:(lia)). cbn [Zdigits2] in Hc. lia.
Qed.

(** The rounded mantissa is canonical: the result of [binary_round_aux] is a
    valid binary64 value when the input exponent is not above the one its
    magnitude calls for. *)
Lemma binary_round_aux_canonical (sx : bool) (mx ex : Z) (lx : location) :
  0 <= mx -> ex <= fexp prec emax (Zdigits2 mx + ex) ->
  exists m2 e2, 0 <= m2 /\
    (0 < m2 -> e2 = Z.max (Zdigits2 m2 + e2 - 53) (-1074)) /\
    binary_round_aux prec emax sx mx ex lx = round_result sx m2 e2.
Proof.
  intros Hmx Hex. rewrite fexp_eq in Hex. unfold binary_round_aux.
  pose proof (shr_fexp_snd mx ex lx) as Hs1.
  pose proof (shr_fexp_m mx ex lx Hmx) as Hm1.
  destruct (shr_fexp prec emax mx ex lx) as [mrs' e1].
  cbn [fst snd] in Hs1, Hm1. rewrite fexp_eq in Hs1, Hm1. rewrite <- Hs1 in Hm1.
  set (m1 := shr_m mrs') in *.
  set (m1' := round_nearest_even m1 (loc_of_shr_record mrs')).
  pose proof (round_nearest_even_bounds m1 (loc_of_shr_record mrs')) as Hr.
  fold m1' in Hr.
  assert (He1 : e1 = Z.max (Zdigits2 mx + ex - 53) (-1074)) by lia.
  assert (Hm1nn : 0 <= m1).
  { rewrite Hm1. apply Z.div_pos; [lia|apply Z.pow_pos_nonneg; lia]. }
  assert (Hm1' : 0 <= m1') by lia.
  pose proof (shr_fexp_snd m1' e1 loc_Exact) as Hs2.
  pose proof (shr_fexp_m m1' e1 loc_Exact Hm1') as Hm2.
  destruct (shr_fexp prec emax m1' e1 loc_Exact) as [mrs'' e2].
  cbn [fst snd] in Hs2, Hm2. rewrite fexp_eq in Hs2, Hm2. rewrite <- Hs2 in Hm2.
  set (m2 := shr_m mrs'') in *.
  assert (Hm2nn : 0 <= m2).
  { rewrite Hm2. apply Z.div_pos; [lia|apply Z.pow_pos_nonneg; lia]. }
  exists m2, e2. split; [assumption|]. split; [|reflexivity].
  intros Hpos.
  (* the digits of the first quotient *)
  assert (Hd1 : m1 = 0 /\ e1 = -1074 \/
                0 < m1 /\ Zdigits2 m1 + e1 = Zdigits2 mx + ex).
  { destruct (Z.eq_dec mx 0) as [Hz|Hnz].
    - left. subst mx. rewrite Z.div_0_l in Hm1 by (apply Z.pow_nonzero; lia).
      cbn [Zdigits2] in He1. lia.
    - destruct (Zdigits2_div_pow2 mx (e1 - ex) ltac:(lia) ltac:(lia))
        as [[Hle Hq]|[Hlt Hq]].
      + left. pose proof (Zdigits2_pos mx ltac:(lia)). lia.
      + right. rewrite <- Hm1 in Hq.
        assert (0 < Zdigits2 m1) by lia.
        split; [destruct m1; cbn in *; lia|lia]. }
  clearbody m1 m1' m2.
  destruct Hd1 as [[Hz He]|[Hp1 Hd1]].
  - (* everything was shifted out *)
    assert (Hone : m1' = 0 \/ m1' = 1) by lia.
    destruct Hone as [->| ->].
    + rewrite Z.div_0_l in Hm2 by (apply Z.pow_nonzero; lia). lia.
    + cbn [Zdigits2 digits2_pos] in Hs2.
      assert (Ee : e2 = e1) by lia. rewrite Ee in Hm2 |- *. clear Hs2.
      rewrite Z.sub_diag, Z.div_1_r in Hm2. subst m2.
      change (Zdigits2 1) with 1. lia.
  - destruct (Zdigits2_round m1 m1' Hp1 Hr) as [Hsame|[Hpow Hnext]].
    + assert (Ee : e2 = e1) by lia. rewrite Ee in Hm2 |- *. clear Hs2.
      rewrite Z.sub_diag, Z.div_1_r in Hm2. subst m2. lia.
    + destruct (Z_le_gt_dec (-1074) (Zdigits2 mx + ex - 53)) as [Hn|Hs].
      * assert (Hd53 : Zdigits2 m1 = 53) by lia.
        assert (Ee : e2 = e1 + 1) by lia. rewrite Ee in Hm2 |- *. clear Hs2.
        replace (e1 + 1 - e1) with 1 in Hm2 by lia.
        rewrite Hpow, Hd53 in Hm2. change (2 ^ 53 / 2 ^ 1) with (2 ^ 52) in Hm2.
        subst m2. rewrite (Zdigits2_pow2 52) by lia. lia.
      * assert (Ee : e2 = e1) by lia. rewrite Ee in Hm2 |- *. clear Hs2.
        rewrite Z.sub_diag, Z.div_1_r in Hm2. subst m2. lia.
Qed.

Lemma binary_round_aux_valid (sx : bool) (mx ex : Z) (lx : location) :
  0 <= mx -> ex <= fexp prec emax (Zdigits2 mx + ex) ->
  SpecFloat.valid_binary prec emax (binary_round_aux prec emax sx mx ex lx) = true.
Proof.
  intros Hmx Hex.
  destruct (binary_round_aux_canonical sx mx ex lx Hmx Hex) as (m2 & e2 & H0 & Hc & ->).
  now apply valid_round_result.
Qed.

Lemma binary_round_valid (s : bool) (m : positive) (e : Z) :
  SpecFloat.valid_binary prec emax (binary_round prec emax s m e) = true.
Proof.
  unfold binary_round.
  change (IntDef.Z.add (Zpos (digits2_pos m)) e) with (Zpos (digits2_pos m) + e).
  pose proof (shl_align_spec m e (fexp prec emax (Zpos (digits2_pos m) + e))) as [Hd Hs].
  destruct (shl_align m e _) as [mz ez]. cbn [fst snd] in Hd, Hs.
  apply binary_round_aux_valid; [lia|]. cbn [Zdigits2]. rewrite Hd. lia.
Qed.

(** [binary_round] with the sign of the result and what makes it non-zero. *)
Lemma binary_round_pos (s : bool) (m : positive) (e : Z) :
  let f := fexp prec emax (Zpos (digits2_pos m) + e) in
  -1074 < Zpos (digits2_pos m) + e ->
  exists m2 e2, 0 < m2 /\ f <= e2 <= f + 1 /\
    binary_round prec emax s m e = round_result s m2 e2.
Proof.
  intros f Hn. unfold binary_round.
  change (IntDef.Z.add (Zpos (digits2_pos m)) e) with (Zpos (digits2_pos m) + e).
  fold f.
  pose proof (shl_align_spec m e f) as [Hd Hs].
  destruct (shl_align m e f) as [mz ez]. cbn [fst snd] in Hd, Hs.
  destruct (binary_round_aux_shape s (Zpos mz) ez loc_Exact ltac:(lia))
    as (m2 & e2 & Hm2 & He2 & Heq & Hnz).
  cbn [Zdigits2] in He2, Hnz. rewrite Hd in He2, Hnz. fold f in He2.
  exists m2, e2. split; [|split; [|assumption]].
  - destruct (Z.eq_dec m2 0) as [Hz|]; [|lia].
    specialize (Hnz ltac:(lia) Hz). lia.
  - lia.
Qed.

Lemma round_result_finite_inv (s s' : bool) (m2 e2 : Z) (m : positive) (e : Z) :
  round_result s m2 e2 = S754_finite s' m e -> s = s' /\ m2 = Zpos m /\ e2 = e.
Proof.
  destruct m2 as [|p|p]; cbn [round_result]; try discriminate.
  destruct (e2 <=? emax - prec); [|discriminate].
  intros H. injection H as -> -> ->. now split.
Qed.

(** The conversion of a non-zero [int]: OverflowError, or a finite float of
    the same sign that is at least [2 ^ (digits - 1)] in magnitude. *)
Lemma float_of_int_nonzero (n : Z) (a : float) :
  n <> 0 -> Py.float_of_int n = Ok a ->
  exists m e, Prim2SF a = S754_finite (n <? 0) m e /\
              Zdigits2 n <= Zpos (digits2_pos m) + e.
Proof.
  intros Hn. unfold Py.float_of_int.
  assert (Hgen : forall (s : bool) (p : positive),
            binary_normalize prec emax n 0 false = binary_round prec emax s p 0 ->
            Zdigits2 n = Zpos (digits2_pos p) ->
            match binary_round prec emax s p 0 with
            | S754_infinity _ => Raise OverflowError
            | sf => Ok (SF2Prim sf)
            end = Ok a ->
            exists m e, Prim2SF a = S754_finite s m e /\
                        Zdigits2 n <= Zpos (digits2_pos m) + e).
  { intros s p _ Hd.
    pose proof (binary_round_valid s p 0) as V.
    destruct (binary_round_pos s p 0 ltac:(lia)) as (m2 & e2 & Hm2 & He2 & Heq).
    rewrite fexp_eq in He2. rewrite Heq in V |- *.
    destruct m2 as [|q|q]; try lia. cbn [round_result] in V |- *.
    revert V. destruct (e2 <=? emax - prec); [|discriminate].
    intros V H. exists q, e2.
    assert (Ha : a = SF2Prim (S754_finite s q e2)) by congruence.
    rewrite Ha, (FloatAxioms.Prim2SF_SF2Prim _ V). split; [reflexivity|].
    apply valid_finite in V. lia. }
  destruct n as [|p|p]; [contradiction| |]; cbn [binary_normalize].
  - intros H. apply (Hgen false p eq_refl eq_refl H).
  - intros H. apply (Hgen true p eq_refl eq_refl H).
Qed.

(** The conversion succeeds below [2 ^ 1023] and fails from [2 ^ 1024] on. *)
Lemma float_of_int_small (n : Z) :
  Z.abs n < 2 ^ 1023 -> exists a, Py.float_of_int n = Ok a.
Proof.
  intros Hn. unfold Py.float_of_int.
  assert (Hgen : forall (s : bool) (p : positive),
            Zpos p < 2 ^ 1023 ->
            exists a, match binary_round prec emax s p 0 with
                      | S754_infinity _ => Raise OverflowError
                      | sf => Ok (SF2Prim sf)
                      end = Ok a).
  { intros s p Hp.
    assert (Hd : Zdigits2 (Zpos p) <= 1023)
      by (apply Zdigits2_le_of_lt_pow; lia).
    cbn [Zdigits2] in Hd.
    destruct (binary_round_shape s p 0) as (m2 & e2 & Hm2 & He2 & Heq).
    rewrite fexp_eq in He2. rewrite Heq.
    destruct (round_result_finite s m2 e2 Hm2 ltac:(lia)) as [->|[m' ->]];
      eexists; reflexivity. }
  destruct n as [|p|p]; cbn [binary_normalize].
  - eexists; reflexivity.
  - apply Hgen. lia.
  - apply Hgen. lia.
Qed.

Lemma float_of_int_large (n : Z) :
  2 ^ 1024 <= Z.abs n -> Py.float_of_int n = Raise OverflowError.
Proof.
  intros Hn. unfold Py.float_of_int.
  assert (Hgen : forall (s : bool) (p : positive),
            2 ^ 1024 <= Zpos p ->
            match binary_round prec emax s p 0 with
            | S754_infinity _ => Raise OverflowError
            | sf => Ok (SF2Prim sf)
            end = Raise OverflowError).
  { intros s p Hp.
    assert (Hd : 1024 + 1 <= Zdigits2 (Zpos p))
      by (apply Zdigits2_ge_of_pow_le; lia).
    cbn [Zdigits2] in Hd.
    destruct (binary_round_pos s p 0 ltac:(lia)) as (m2 & e2 & Hm2 & He2 & Heq).
    rewrite fexp_eq in He2. rewrite Heq.
    destruct m2 as [|q|q]; try lia. cbn [round_result].
    destruct (e2 <=? emax - prec) eqn:E; [|reflexivity].
    apply Z.leb_le in E. change (emax - prec) with 971 in E. lia. }
  assert (0 < 2 ^ 1024) by (apply Z.pow_pos_nonneg; lia).
  destruct n as [|p|p]; cbn [binary_normalize].
  - cbn in Hn. lia.
  - apply Hgen. lia.
  - apply Hgen. lia.
Qed.

Lemma pow2_square_le (q j : Z) : 0 <= j -> 2 ^ j <= q -> 2 ^ (2 * j) <= q * q.
Proof.
  intros Hj Hq. replace (2 * j) with (j + j) by lia. rewrite Z.pow_add_r by lia.
  pose proof (Z.pow_pos_nonneg 2 j ltac:(lia) Hj). nia.
Qed.

(** The square root of a finite positive value is finite, at most [2 ^ 513]. *)
Lemma SFsqrt_below (m : positive) (e : Z) :
  SpecFloat.valid_binary prec emax (S754_finite false m e) = true ->
  exists m2 e2, 0 <= m2 <= 2 ^ (513 - e2) /\ e2 <= 513 /\
    SFsqrt prec emax (S754_finite false m e) = round_result false m2 e2.
Proof.
  intros V. apply valid_finite in V. destruct V as [Vc Ve].
  cbn [SFsqrt]. unfold SFsqrt_core_binary.
  change (IntDef.Z.add ?a ?b) with (a + b).
  change (IntDef.Z.sub ?a ?b) with (a - b).
  change (IntDef.Z.mul ?a ?b) with (a * b).
  change (IntDef.Z.min ?a ?b) with (Z.min a b).
  change (IntDef.Z.div2 ?a) with (Z.div2 a).
  change (IntDef.Z.shiftl ?a ?b) with (Z.shiftl a b).
  change (IntDef.Z.sqrtrem ?a) with (Z.sqrtrem a).
  rewrite fexp_eq, !Z.div2_div. cbn [Zdigits2].
  set (d := Zpos (digits2_pos m)) in *.
  set (e' := Z.min _ _).
  assert (He' : 2 * e' <= e /\ e' <= 485).
  { unfold e'. pose proof (Z.div_mod e 2 ltac:(lia)).
    pose proof (Z.mod_pos_bound e 2 ltac:(lia)). lia. }
  assert (Hd : 0 < d <= 53).
  { unfold d. split; [lia|]. lia. }
  set (m' := match e - 2 * e' with
             | 0 => Zpos m | Zpos _ => Z.shiftl (Zpos m) (e - 2 * e') | Zneg _ => 0
             end).
  assert (Hm' : m' = Zpos m * 2 ^ (e - 2 * e')).
  { unfold m'. destruct (e - 2 * e') as [|s|s] eqn:Es; [cbn; lia| |lia].
    apply Z.shiftl_mul_pow2. lia. }
  destruct (digits2_pos_bounds m) as [_ Hhi]. fold d in Hhi.
  assert (Hlt : m' < 2 ^ (2 * (513 - e'))).
  { rewrite Hm'. eapply Z.lt_le_trans.
    - apply Z.mul_lt_mono_pos_r; [apply Z.pow_pos_nonneg; lia|exact Hhi].
    - rewrite <- Z.pow_add_r by lia. apply Z.pow_le_mono_r; lia. }
  assert (Hm0 : 0 <= m').
  { rewrite Hm'. pose proof (Z.pow_pos_nonneg 2 (e - 2 * e')). lia. }
  pose proof (Z.sqrtrem_spec m' Hm0) as Hsq.
  clearbody m' e'.
  destruct (Z.sqrtrem m') as [q r]. destruct Hsq as [Hq Hr].
  apply binary_round_aux_le_pow2; [|lia].
  split; [lia|].
  destruct (Z_lt_le_dec q (2 ^ (513 - e'))) as [|Hge]; [assumption|exfalso].
  pose proof (pow2_square_le q (513 - e') ltac:(lia) Hge). lia.
Qed.

(** Dividing by a value that is at least 1. *)
Lemma SFdiv_below (sx : bool) (mx my : positive) (ex ey k : Z) :
  Zpos (digits2_pos mx) + ex <= k -> 1 <= Zpos (digits2_pos my) + ey ->
  -1074 <= k ->
  exists m2 e2, 0 <= m2 <= 2 ^ (k - e2) /\ e2 <= k /\
    SFdiv prec emax (S754_finite sx mx ex) (S754_finite false my ey)
    = round_result sx m2 e2.
Proof.
  intros Hx Hy Hk. cbn [SFdiv]. unfold SFdiv_core_binary.
  change (IntDef.Z.add ?a ?b) with (a + b).
  change (IntDef.Z.sub ?a ?b) with (a - b).
  change (IntDef.Z.min ?a ?b) with (Z.min a b).
  change (IntDef.Z.shiftl ?a ?b) with (Z.shiftl a b).
  change (IntDef.Z.div_eucl ?a ?b) with (Z.div_eucl a b).
  rewrite fexp_eq. cbn [Zdigits2].
  set (d1 := Zpos (digits2_pos mx)) in *. set (d2 := Zpos (digits2_pos my)) in *.
  set (e' := Z.min _ _).
  assert (He' : e' <= ex - ey) by (unfold e'; lia).
  set (m' := match ex - ey - e' with
             | 0 => Zpos mx | Zpos _ => Z.shiftl (Zpos mx) (ex - ey - e') | Zneg _ => 0
             end).
  assert (Hm' : m' = Zpos mx * 2 ^ (ex - ey - e')).
  { unfold m'. destruct (ex - ey - e') as [|s|s] eqn:Es; [cbn; lia| |lia].
    apply Z.shiftl_mul_pow2. lia. }
  destruct (digits2_pos_bounds mx) as [_ Hxhi]. fold d1 in Hxhi.
  destruct (digits2_pos_bounds my) as [Hylo _]. fold d2 in Hylo.
  assert (Hd2 : 0 < d2) by (unfold d2; lia).
  assert (Hd1 : 0 < d1) by (unfold d1; lia).
  assert (Hm0 : 0 <= m').
  { rewrite Hm'. pose proof (Z.pow_pos_nonneg 2 (ex - ey - e')). lia. }
  assert (Hlt : m' < 2 ^ (d2 - 1) * 2 ^ (k - e')).
  { rewrite Hm', <- Z.pow_add_r by lia. eapply Z.lt_le_trans.
    - apply Z.mul_lt_mono_pos_r; [apply Z.pow_pos_nonneg; lia|exact Hxhi].
    - rewrite <- Z.pow_add_r by lia. apply Z.pow_le_mono_r; lia. }
  pose proof (Z_div_mod m' (Zpos my) ltac:(lia)) as Hdm.
  assert (Hke : 0 <= k - e') by lia.
  pose proof (Z.pow_pos_nonneg 2 (d2 - 1) ltac:(lia) ltac:(lia)) as Hp2.
  pose proof (Z.pow_pos_nonneg 2 (k - e') ltac:(lia) Hke) as Hpk.
  clearbody m' e'.
  destruct (Z.div_eucl m' (Zpos my)) as [q r]. destruct Hdm as [Hq Hr].
  replace (xorb sx false) with sx by now destruct sx.
  apply binary_round_aux_le_pow2; [|lia].
  assert (Hq0 : 0 <= q) by nia.
  split; [assumption|].
  destruct (Z_lt_le_dec q (2 ^ (k - e'))) as [|Hge]; [assumption|exfalso].
  assert (2 ^ (d2 - 1) * 2 ^ (k - e') <= Zpos my * q) by nia.
  lia.
Qed.

Lemma le_pow2_below (s : bool) (m2 e2 k : Z) :
  0 <= m2 <= 2 ^ (k - e2) -> e2 <= k -> k <= 971 ->
  fin_below s (k + 1) (round_result s m2 e2).
Proof.
  intros [H0 Hm] He Hk. destruct m2 as [|p|p]; [now left| |lia].
  cbn [round_result]. destruct (e2 <=? emax - prec) eqn:E;
    [|apply Z.leb_gt in E; change (emax - prec) with 971 in E; lia].
  right. exists p, e2. split; [reflexivity|].
  assert (Zdigits2 (Zpos p) <= k - e2 + 1).
  { apply Zdigits2_le_of_lt_pow; [lia|]. split; [lia|].
    rewrite Z.pow_add_r by lia. change (2 ^ 1) with 2.
    pose proof (Z.pow_pos_nonneg 2 (k - e2)). lia. }
  cbn [Zdigits2] in *. lia.
Qed.

Lemma SFmul_below (sx sy : bool) (mx my : positive) (ex ey k1 k2 : Z) :
  Zpos (digits2_pos mx) + ex <= k1 -> Zpos (digits2_pos my) + ey <= k2 ->
  -1074 <= k1 + k2 ->
  exists m2 e2, 0 <= m2 <= 2 ^ (k1 + k2 - e2) /\ e2 <= k1 + k2 /\
    SFmul prec emax (S754_finite sx mx ex) (S754_finite sy my ey)
    = round_result (xorb sx sy) m2 e2.
Proof.
  intros Hx Hy Hk. cbn [SFmul].
  change (PosDef.Pos.mul mx my) with (mx * my)%positive.
  change (IntDef.Z.add ex ey) with (ex + ey).
  destruct (digits2_pos_bounds mx) as [_ Hxh].
  destruct (digits2_pos_bounds my) as [_ Hyh].
  apply binary_round_aux_le_pow2; [|assumption].
  split; [lia|]. rewrite Pos2Z.inj_mul.
  assert (Hle : 2 ^ Zpos (digits2_pos mx) * 2 ^ Zpos (digits2_pos my)
                <= 2 ^ (k1 + k2 - (ex + ey))).
  { rewrite <- Z.pow_add_r by lia. apply Z.pow_le_mono_r; lia. }
  eapply Z.lt_le_trans; [|exact Hle].
  apply Z.mul_lt_mono_nonneg; lia.
Qed.

Local Open Scope float_scope.

Lemma sqrt_below (a : float) (m : positive) (e : Z) :
  Prim2SF a = S754_finite false m e ->
  fin_below false 514 (Prim2SF (PrimFloat.sqrt a)).
Proof.
  intros Ha. pose proof (Prim2SF_valid a) as V. rewrite Ha in V.
  rewrite FloatAxioms.sqrt_spec, Ha. unfold SF64sqrt.
  destruct (SFsqrt_below m e V) as (m2 & e2 & Hm & He & ->).
  apply (le_pow2_below false m2 e2 513); [assumption|assumption|lia].
Qed.

Lemma mul_below (x c : float) (mc : positive) (ec k1 k2 : Z) :
  fin_below false k1 (Prim2SF x) -> Prim2SF c = S754_finite false mc ec ->
  (Zpos (digits2_pos mc) + ec <= k2)%Z -> (-1074 <= k1 + k2 <= 971)%Z ->
  fin_below false (k1 + k2 + 1) (Prim2SF (x * c)).
Proof.
  intros Hx Hc Hk2 Hk. rewrite FloatAxioms.mul_spec, Hc. unfold SF64mul.
  destruct Hx as [->|(m & e & -> & Hd)]; [now left|].
  destruct (SFmul_below false false m mc e ec k1 k2 Hd Hk2 ltac:(lia))
    as (m2 & e2 & Hm & He & ->).
  apply le_pow2_below; [assumption|assumption|lia].
Qed.

Lemma div_below (x b : float) (mb : positive) (eb k : Z) :
  fin_below false k (Prim2SF x) -> Prim2SF b = S754_finite false mb eb ->
  (1 <= Zpos (digits2_pos mb) + eb)%Z -> (-1074 <= k <= 971)%Z ->
  fin_below false (k + 1) (Prim2SF (x / b)).
Proof.
  intros Hx Hb Hd Hk. rewrite FloatAxioms.div_spec, Hb. unfold SF64div.
  destruct Hx as [->|(m & e & -> & Hm)]; [now left|].
  destruct (SFdiv_below false m mb e eb k Hm Hd ltac:(lia))
    as (m2 & e2 & Hm2 & He & ->).
  apply le_pow2_below; [assumption|assumption|lia].
Qed.

Lemma math_1_ok (f : float -> float) (x : float) :
  is_finite (f x) = true -> math_1 f x = Ok (f x).
Proof.
  unfold math_1, is_finite. intros H.
  apply negb_true_iff, orb_false_iff in H. destruct H as [-> ->]. reflexivity.
Qed.

Lemma sym_unit_finite (s : float) :
  (-1 <=? s) && (s <=? 1) = true -> is_finite s = true.
Proof.
  intros H. apply is_finite_spec.
  destruct (sym_unit_cases s H) as [[sg Hs]|[(sg & m & e & Hs & Hd)|[->| ->]]].
  - exists sg, 0%Z. now left.
  - exists sg, 0%Z. right. now exists m, e.
  - exists false, 1%Z. right. do 2 eexists. split; [reflexivity|]. cbn. lia.
  - exists true, 1%Z. right. do 2 eexists. split; [reflexivity|]. cbn. lia.
Qed.

End Canonical.

(** ** compute_ppm_coherence: the value and its range *)

Lemma Prim2SF_PI : Prim2SF PI = S754_finite false 7074237752028440 (-51).
Proof. reflexivity. Qed.

Lemma product_pos (P : list Z) :
  Forall (fun p => 0 < p)%Z P -> (0 < fold_right Z.mul 1 P)%Z.
Proof. induction 1; cbn [fold_right]; lia. Qed.

Lemma sum_pos (P : list Z) :
  P <> [] -> Forall (fun p => 0 < p)%Z P -> (0 < fold_right Z.add 0 P)%Z.
Proof.
  intros Hne H. destruct H as [|p P Hp H]; [contradiction|].
  cbn [fold_right].
  assert (0 <= fold_right Z.add 0 P)%Z; [|lia].
  clear Hne Hp. induction H; cbn [fold_right]; lia.
Qed.

Lemma finite_pos_neq0 (b : float) (m : positive) (e : Z) :
  Prim2SF b = S754_finite false m e -> (b =? 0) = false.
Proof. intros H. now rewrite FloatAxioms.eqb_spec, H. Qed.

(** X7: with a C library [sin] that maps finite arguments into [-1, 1], for
    every non-empty list of positive integers whose product and sum are below
    [2 ^ 1023], [compute_ppm_coherence] raises nothing and returns
    [0.5 + 0.5 * sin (sqrt (float product) * PI / float sum)], a float that
    compares within [0, 1]. *)
Theorem coherence_returns_in_unit (libm_sin : float -> float) (P : list Z) :
  (forall x, is_finite x = true ->
             (-1 <=? libm_sin x) && (libm_sin x <=? 1) = true) ->
  P <> [] -> Forall (fun p => 0 < p)%Z P ->
  (fold_right Z.mul 1 P < 2 ^ 1023)%Z -> (fold_right Z.add 0 P < 2 ^ 1023)%Z ->
  exists a b,
    Py.float_of_int (fold_right Z.mul 1%Z P) = Ok a /\
    Py.float_of_int (fold_right Z.add 0%Z P) = Ok b /\
    compute_ppm_coherence libm_sin P
    = Ok (0.5 + 0.5 * libm_sin (PrimFloat.sqrt a * PI / b)) /\
    in_unit (0.5 + 0.5 * libm_sin (PrimFloat.sqrt a * PI / b)) = true.
Proof.
  intros Hsin Hne Hpos Hprod Hsum.
  pose proof (product_pos P Hpos) as Hp0. pose proof (sum_pos P Hne Hpos) as Hs0.
  assert (Hpa : (Z.abs (fold_right Z.mul 1 P) < 2 ^ 1023)%Z)
    by (rewrite Z.abs_eq; lia).
  assert (Hsa : (Z.abs (fold_right Z.add 0 P) < 2 ^ 1023)%Z)
    by (rewrite Z.abs_eq; lia).
  destruct (float_of_int_small _ Hpa) as [a Ea].
  destruct (float_of_int_small _ Hsa) as [b Eb].
  assert (Hpn : fold_right Z.mul 1%Z P <> 0%Z) by lia.
  assert (Hsn : fold_right Z.add 0%Z P <> 0%Z) by lia.
  destruct (float_of_int_nonzero _ a Hpn Ea) as (ma & ea & Ha & _).
  destruct (float_of_int_nonzero _ b Hsn Eb) as (mb & eb & Hb & Hdb).
  replace (fold_right Z.mul 1%Z P <? 0)%Z with false in Ha by (symmetry; apply Z.ltb_ge; lia).
  replace (fold_right Z.add 0%Z P <? 0)%Z with false in Hb by (symmetry; apply Z.ltb_ge; lia).
  assert (Hdb' : (1 <= Zpos (digits2_pos mb) + eb)%Z).
  { pose proof (Zdigits2_pos _ Hs0). lia. }
  pose proof (sqrt_below a ma ea Ha) as Hr.
  pose proof (mul_below (PrimFloat.sqrt a) PI _ _ 514 2 Hr Prim2SF_PI ltac:(cbn; lia) ltac:(lia))
    as Hx.
  pose proof (div_below (PrimFloat.sqrt a * PI) b mb eb _ Hx Hb Hdb' ltac:(lia)) as Hq.
  assert (Hfr : is_finite (PrimFloat.sqrt a) = true) by (apply is_finite_spec; eauto).
  assert (Hfq : is_finite (PrimFloat.sqrt a * PI / b) = true) by (apply is_finite_spec; eauto).
  pose proof (Hsin _ Hfq) as Hs.
  exists a, b. split; [assumption|]. split; [assumption|].
  split; [|now apply half_plus_half_in_unit].
  rewrite coherence_unfold.
  replace (fold_right Z.add 0%Z P =? 0)%Z with false by (symmetry; apply Z.eqb_neq; lia).
  unfold math_sqrt. rewrite Ea, Eb. cbn [bind].
  rewrite (math_1_ok _ _ Hfr). cbn [bind fdiv binary64].
  rewrite (finite_pos_neq0 b mb eb Hb). cbn [bind].
  unfold math_sin. rewrite (math_1_ok _ _ (sym_unit_finite _ Hs)). reflexivity.
Qed.

Lemma coherence_returns_in_unit_witness :
  exists a b,
    Py.float_of_int (fold_right Z.mul 1%Z [2; 3; 5; 7]%Z) = Ok a /\
    Py.float_of_int (fold_right Z.add 0%Z [2; 3; 5; 7]%Z) = Ok b /\
    compute_ppm_coherence (fun _ => 1) [2; 3; 5; 7]%Z
    = Ok (0.5 + 0.5 * (fun _ => 1) (PrimFloat.sqrt a * PI / b)) /\
    in_unit (0.5 + 0.5 * (fun _ => 1) (PrimFloat.sqrt a * PI / b)) = true.
Proof.
  apply coherence_returns_in_unit.
  - intros x _. reflexivity.
  - discriminate.
  - repeat constructor.
  - reflexivity.
  - reflexivity.
Defined.

(** ** compute_ppm_coherence: exceptions *)

(** X8: when the sum is not zero and the product is [2 ^ 1024] or more in
    magnitude, [compute_ppm_coherence] raises OverflowError: [math.sqrt]
    cannot convert the product to a float. *)
Theorem coherence_overflow (libm_sin : float -> float) (P : list Z) :
  fold_right Z.add 0%Z P <> 0%Z ->
  (2 ^ 1024 <= Z.abs (fold_right Z.mul 1 P))%Z ->
  compute_ppm_coherence libm_sin P = Raise "OverflowError".
Proof.
  intros Hs Hp. rewrite coherence_unfold.
  replace (fold_right Z.add 0%Z P =? 0)%Z with false
    by (symmetry; now apply Z.eqb_neq).
  unfold math_sqrt. now rewrite (float_of_int_large _ Hp).
Qed.

Lemma coherence_overflow_witness :
  compute_ppm_coherence (fun x => x) [2 ^ 1024]%Z = Raise "OverflowError".
Proof. apply coherence_overflow; [discriminate|]. vm_compute. discriminate. Defined.

(** X9: when the sum is not zero and the product is negative (above
    [- 2 ^ 1023]), [compute_ppm_coherence] raises ValueError: the square root
    of a negative float is NaN, which [math.sqrt] reports as a domain
    error. *)
Theorem coherence_negative_product (libm_sin : float -> float) (P : list Z) :
  fold_right Z.add 0%Z P <> 0%Z ->
  (- 2 ^ 1023 < fold_right Z.mul 1 P < 0)%Z ->
  compute_ppm_coherence libm_sin P = Raise "ValueError".
Proof.
  intros Hs Hp. rewrite coherence_unfold.
  replace (fold_right Z.add 0%Z P =? 0)%Z with false
    by (symmetry; now apply Z.eqb_neq).
  assert (Hpa : (Z.abs (fold_right Z.mul 1 P) < 2 ^ 1023)%Z)
    by (rewrite Z.abs_neq; lia).
  destruct (float_of_int_small _ Hpa) as [a Ea].
  assert (Hpn : fold_right Z.mul 1%Z P <> 0%Z) by lia.
  destruct (float_of_int_nonzero _ a Hpn Ea) as (ma & ea & Ha & _).
  replace (fold_right Z.mul 1%Z P <? 0)%Z with true in Ha
    by (symmetry; apply Z.ltb_lt; lia).
  unfold math_sqrt. rewrite Ea. cbn [bind]. unfold math_1.
  assert (Hn : is_nan (PrimFloat.sqrt a) = true).
  { apply is_nan_spec. now rewrite FloatAxioms.sqrt_spec, Ha. }
  assert (Hna : is_nan a = false).
  { destruct (is_nan a) eqn:E; [|reflexivity].
    apply is_nan_spec in E. congruence. }
  rewrite Hn, Hna. reflexivity.
Qed.

Lemma coherence_negative_product_witness :
  compute_ppm_coherence (fun x => x) [-2; 3]%Z = Raise "ValueError".
Proof. apply coherence_negative_product; [discriminate|]. split; reflexivity. Defined.

Lemma math_1_cases (f : float -> float) (x : float) :
  math_1 f x = Ok (f x) \/ math_1 f x = Raise "ValueError".
Proof.
  unfold math_1. destruct (_ && _); [now right|].
  destruct (_ && _); [now right|now left].
Qed.

Lemma float_of_int_raises (n : Z) (e : string) :
  Py.float_of_int n = Raise e -> e = "OverflowError"%string.
Proof.
  unfold Py.float_of_int.
  destruct (binary_normalize _ _ _ _ _); intros H;
    first [discriminate H|now injection H as <-].
Qed.

(** X10: for every list of integers and every C library [sin],
    [compute_ppm_coherence] returns a float or raises OverflowError or
    ValueError; in particular the division by the sum never raises
    ZeroDivisionError. *)
Theorem coherence_errors (libm_sin : float -> float) (P : list Z) :
  (exists r, compute_ppm_coherence libm_sin P = Ok r) \/
  compute_ppm_coherence libm_sin P = Raise "OverflowError" \/
  compute_ppm_coherence libm_sin P = Raise "ValueError".
Proof.
  rewrite coherence_unfold.
  destruct (Z.eqb_spec (fold_right Z.add 0%Z P) 0) as [|Hs]; [left; eauto|].
  unfold math_sqrt.
  destruct (Py.float_of_int (fold_right Z.mul 1%Z P)) as [a|e] eqn:Ea; cbn [bind].
  2:{ right; left. now rewrite (float_of_int_raises _ _ Ea). }
  destruct (math_1_cases PrimFloat.sqrt a) as [-> | ->]; cbn [bind]; [|now right; right].
  destruct (Py.float_of_int (fold_right Z.add 0%Z P)) as [b|e] eqn:Eb; cbn [bind].
  2:{ right; left. now rewrite (float_of_int_raises _ _ Eb). }
  destruct (float_of_int_nonzero _ b Hs Eb) as (mb & eb & Hb & _).
  assert (Hb0 : (b =? 0) = false).
  { rewrite FloatAxioms.eqb_spec, Hb, Prim2SF_zero.
    now destruct (_ <? _)%Z. }
  cbn [fdiv binary64]. rewrite Hb0. cbn [bind]. unfold math_sin.
  destruct (math_1_cases libm_sin (PrimFloat.sqrt a * PI / b)) as [-> | ->];
    cbn [bind]; [left; eauto|now right; right].
Qed.

(** ** golden_spiral *)

Lemma float_of_int_below (n : Z) (a : float) :
  (0 <= n)%Z -> Py.float_of_int n = Ok a ->
  fin_below false (Zdigits2 n + 1) (Prim2SF a).
Proof.
  intros Hn. unfold Py.float_of_int.
  destruct n as [|p|p]; [| |lia]; cbn [binary_normalize].
  - intros H. assert (Ha : a = SF2Prim (S754_zero false)) by congruence.
    left. rewrite Ha. now apply FloatAxioms.Prim2SF_SF2Prim.
  - pose proof (binary_round_valid false p 0) as V.
    destruct (binary_round_shape false p 0) as (m2 & e2 & Hm2 & He2 & Heq).
    rewrite fexp_eq in He2. rewrite Heq in V |- *.
    destruct m2 as [|q|q]; [| |lia]; cbn [round_result] in V |- *.
    + intros H. assert (Ha : a = SF2Prim (S754_zero false)) by congruence.
      left. rewrite Ha. now apply FloatAxioms.Prim2SF_SF2Prim.
    + revert V. destruct (e2 <=? emax - prec)%Z; [|discriminate].
      intros V H.
      assert (Ha : a = SF2Prim (S754_finite false q e2)) by congruence.
      rewrite Ha, (FloatAxioms.Prim2SF_SF2Prim _ V).
      right. exists q, e2. split; [reflexivity|].
      apply valid_finite in V. cbn [Zdigits2]. lia.
Qed.

Section SpiralFacts.

Variables libm_cos libm_sin : float -> float.

Let body := golden_spiral_body libm_cos libm_sin.

(** The loop body only appends: what it adds depends on [i] alone. *)
Lemma spiral_body_appends (points : list (float * float)) (i : Z) :
  body points i
  = match body [] i with
    | Ok l => Ok (points ++ l)
    | Raise e => Raise e
    end.
Proof.
  unfold body, golden_spiral_body.
  destruct (Py.float_of_int (i * 2)); cbn [bind]; [|reflexivity].
  destruct (fdiv _ _); cbn [bind]; [|reflexivity].
  destruct (math_sqrt _); cbn [bind]; [|reflexivity].
  destruct (math_1 libm_cos _); cbn [bind]; [|reflexivity].
  destruct (math_1 libm_sin _); cbn [bind]; reflexivity.
Qed.

Lemma spiral_body_one (i : Z) (l : list (float * float)) :
  body [] i = Ok l -> List.length l = 1%nat.
Proof.
  unfold body, golden_spiral_body.
  destruct (Py.float_of_int (i * 2)); cbn [bind]; [|discriminate].
  destruct (fdiv _ _); cbn [bind]; [|discriminate].
  destruct (math_sqrt _); cbn [bind]; [|discriminate].
  destruct (math_1 libm_cos _); cbn [bind]; [|discriminate].
  destruct (math_1 libm_sin _); cbn [bind]; [|discriminate].
  intros H. injection H as <-. reflexivity.
Qed.

Lemma spiral_loop_appends (l : list Z) (points : list (float * float)) :
  for_each body l points
  = match for_each body l [] with
    | Ok r => Ok (points ++ r)
    | Raise e => Raise e
    end.
Proof.
  revert points. induction l as [|i l IH]; intros points; cbn [for_each].
  - now rewrite app_nil_r.
  - rewrite (spiral_body_appends points i).
    destruct (body [] i) as [p|e]; cbn [bind]; [|reflexivity].
    rewrite (IH (points ++ p)), (IH p).
    destruct (for_each body l []); [now rewrite app_assoc|reflexivity].
Qed.

Lemma spiral_loop_length (l : list Z) (r : list (float * float)) :
  for_each body l [] = Ok r -> List.length r = List.length l.
Proof.
  revert r. induction l as [|i l IH]; intros r; cbn [for_each].
  - intros H. now injection H as <-.
  - destruct (body [] i) as [p|e] eqn:Ep; cbn [bind]; [|discriminate].
    rewrite spiral_loop_appends.
    destruct (for_each body l []) as [r'|e]; [|discriminate].
    intros H. injection H as <-. rewrite length_app, (spiral_body_one _ _ Ep).
    now rewrite (IH r' eq_refl).
Qed.

Lemma fin_below_mono (s : bool) (k k' : Z) (x : spec_float) :
  fin_below s k x -> (k <= k')%Z -> fin_below s k' x.
Proof.
  intros [H|(m & e & H & Hd)] Hk; [now left|right].
  exists m, e. split; [assumption|lia].
Qed.

Hypothesis cos_finite : forall x, is_finite x = true -> is_finite (libm_cos x) = true.
Hypothesis sin_finite : forall x, is_finite x = true -> is_finite (libm_sin x) = true.

Lemma spiral_body_ok (i : Z) :
  (0 <= i < 2 ^ 960)%Z -> exists p, body [] i = Ok [p].
Proof.
  intros Hi. unfold body, golden_spiral_body.
  assert (Hi2 : (Z.abs (i * 2) < 2 ^ 1023)%Z) by (rewrite Z.abs_eq; lia).
  destruct (float_of_int_small _ Hi2) as [i2 E2]. rewrite E2. cbn [bind].
  assert (Hi0 : (0 <= i * 2)%Z) by lia.
  pose proof (float_of_int_below _ _ Hi0 E2) as B2.
  assert (Hd2 : (Zdigits2 (i * 2) <= 961)%Z).
  { apply Zdigits2_le_of_lt_pow; [lia|].
    change (2 ^ 961)%Z with (2 ^ 960 * 2)%Z. lia. }
  apply (fin_below_mono _ _ 962) in B2; [|lia].
  pose proof (mul_below i2 PI _ _ 962 2 B2 Prim2SF_PI ltac:(cbn; lia) ltac:(lia)) as Bx.
  pose proof (div_below (i2 * PI) GOLDEN_RATIO _ _ _ Bx Prim2SF_phi
                ltac:(cbn; lia) ltac:(lia)) as Bt.
  assert (Ht : is_finite (i2 * PI / GOLDEN_RATIO) = true)
    by (apply is_finite_spec; eauto).
  cbn [fdiv binary64]. change (GOLDEN_RATIO =? 0) with false. cbn [bind].
  assert (Hi1 : (Z.abs (i + 1) < 2 ^ 1023)%Z) by (rewrite Z.abs_eq; lia).
  destruct (float_of_int_small _ Hi1) as [a Ea].
  assert (Hn1 : (i + 1 <> 0)%Z) by lia.
  destruct (float_of_int_nonzero _ a Hn1 Ea) as (ma & ea & Ha & _).
  replace (i + 1 <? 0)%Z with false in Ha by (symmetry; apply Z.ltb_ge; lia).
  assert (Hr : is_finite (PrimFloat.sqrt a) = true).
  { apply is_finite_spec. exists false, 514%Z. now apply (sqrt_below a ma ea). }
  unfold math_sqrt. rewrite Ea. cbn [bind]. rewrite (math_1_ok _ _ Hr). cbn [bind].
  rewrite (math_1_ok _ _ (cos_finite _ Ht)). cbn [bind].
  rewrite (math_1_ok _ _ (sin_finite _ Ht)). cbn [bind].
  eexists. reflexivity.
Qed.

Lemma spiral_loop_ok (k s : nat) :
  (Z.of_nat (s + k) <= 2 ^ 960)%Z ->
  exists r, for_each body (map Z.of_nat (seq s k)) [] = Ok r.
Proof.
  revert s. induction k as [|k IH]; intros s Hs; cbn [seq map for_each].
  - eexists; reflexivity.
  - destruct (spiral_body_ok (Z.of_nat s) ltac:(lia)) as [p Ep].
    rewrite Ep. cbn [bind]. rewrite spiral_loop_appends.
    destruct (IH (S s) ltac:(lia)) as [r Er]. rewrite Er. eexists; reflexivity.
Qed.

(** X11: with C library [cos] and [sin] that map finite arguments to finite
    values, [golden_spiral n] raises nothing for [n <= 2 ^ 960] and returns
    exactly [max 0 n] points (none for [n <= 0]). *)
Theorem golden_spiral_returns (n : Z) :
  (n <= 2 ^ 960)%Z ->
  exists l, golden_spiral libm_cos libm_sin n = Ok l /\ len l = Z.max 0 n.
Proof.
  intros Hn. unfold golden_spiral, range. fold body.
  destruct (spiral_loop_ok (Z.to_nat n) 0) as [r Er].
  { assert (0 < 2 ^ 960)%Z by (apply Z.pow_pos_nonneg; lia). lia. }
  exists r. split; [assumption|].
  apply spiral_loop_length in Er. unfold len.
  rewrite Er, length_map, length_seq. lia.
Qed.

Lemma range_app (n m : Z) :
  (0 <= n <= m)%Z ->
  range m = range n ++ map Z.of_nat (seq (Z.to_nat n) (Z.to_nat (m - n))).
Proof.
  intros H. unfold range. rewrite <- map_app. f_equal.
  replace (Z.to_nat m) with (Z.to_nat n + Z.to_nat (m - n))%nat by lia.
  apply seq_app.
Qed.

(** X12: a shorter spiral is a prefix of a longer one: if
    [golden_spiral m] returns [l] and [0 <= n <= m], then [golden_spiral n]
    returns the first [n] points of [l]. *)
Theorem golden_spiral_prefix (n m : Z) (l : list (float * float)) :
  (0 <= n <= m)%Z ->
  golden_spiral libm_cos libm_sin m = Ok l ->
  golden_spiral libm_cos libm_sin n = Ok (firstn (Z.to_nat n) l).
Proof.
  intros Hnm. unfold golden_spiral. fold body.
  rewrite (range_app n m Hnm), for_each_app.
  destruct (for_each body (range n) []) as [r|e] eqn:Er; cbn [bind]; [|discriminate].
  rewrite spiral_loop_appends.
  destruct (for_each body (map _ _) []) as [r'|e]; [|discriminate].
  intros H. injection H as <-.
  pose proof (spiral_loop_length _ _ Er) as Hl.
  unfold range in Hl. rewrite length_map, length_seq in Hl.
  rewrite <- Hl, firstn_app, Nat.sub_diag, firstn_all. cbn. now rewrite app_nil_r.
Qed.

End SpiralFacts.

Lemma golden_spiral_returns_witness :
  exists l, golden_spiral (fun _ => 1) (fun _ => 0) 3 = Ok l /\ len l = Z.max 0 3.
Proof.
  apply golden_spiral_returns; [intros; reflexivity|intros; reflexivity|].
  vm_compute. discriminate.
Defined.

Lemma golden_spiral_prefix_witness :
  golden_spiral (fun _ => 1) (fun _ => 0) 1
  = Ok (firstn (Z.to_nat 1) [(1, 0); (0x1.6a09e667f3bcdp+0, 0)]).
Proof. apply (golden_spiral_prefix _ _ 1 2); [lia|reflexivity]. Defined.

(** ** merge: NaN and counts *)

(** X13: when the confidence of either argument is NaN, [merge] raises
    nothing and returns the strength 0.5 with a NaN confidence: the test
    [count > 0] is false for NaN, so the [else] branch is taken. *)
Theorem merge_nan_confidence (a b : TruthValue float) :
  is_nan (confidence a) = true \/ is_nan (confidence b) = true ->
  exists r, merge a b = Ok r /\ strength r = 0.5 /\ is_nan (confidence r) = true.
Proof.
  intros H. rewrite merge_ok.
  set (c := confidence a + confidence b - confidence a * confidence b).
  assert (Hc : Prim2SF c = S754_nan).
  { unfold c. rewrite FloatAxioms.sub_spec, FloatAxioms.add_spec, FloatAxioms.mul_spec.
    destruct H as [H|H]; apply is_nan_spec in H; rewrite H.
    - reflexivity.
    - now destruct (Prim2SF (confidence a)). }
  assert (Hpos : (0 <? c) = false) by now rewrite FloatAxioms.ltb_spec, Hc.
  eexists. split; [reflexivity|]. cbn [strength confidence tv]. rewrite Hpos.
  split; [reflexivity|]. now apply is_nan_spec.
Qed.

Lemma merge_nan_confidence_witness :
  exists r, merge (tv 0.3 nan 1) (tv 0.9 0.5 2) = Ok r /\
            strength r = 0.5 /\ is_nan (confidence r) = true.
Proof. apply merge_nan_confidence. left. reflexivity. Defined.

(** The sum of two floats that are not negative is not negative. *)
Lemma add_nonneg (x y : float) :
  (0 <=? x) = true -> (0 <=? y) = true -> (0 <=? x + y) = true.
Proof.
  rewrite !FloatAxioms.leb_spec, FloatAxioms.add_spec, Prim2SF_zero.
  destruct (Prim2SF x) as [sx|sx| |sx mx ex], (Prim2SF y) as [sy|sy| |sy my ey];
    intros Hx Hy; try discriminate;
    try (destruct sx; try discriminate Hx); try (destruct sy; try discriminate Hy);
    try reflexivity.
  unfold SF64add. cbn [SFadd cond_Zopp]. change (IntDef.Z.add ?p ?q) with (p + q)%Z.
  cbn [Z.add binary_normalize].
  destruct (binary_round_shape false
              (fst (shl_align mx ex (IntDef.Z.min ex ey))
               + fst (shl_align my ey (IntDef.Z.min ex ey)))
              (IntDef.Z.min ex ey)) as (m2 & e2 & Hm2 & _ & ->).
  destruct m2 as [|p|p]; [reflexivity| |lia].
  cbn [round_result]. now destruct (_ <=? _)%Z.
Qed.

(** X16: in binary64, when both counts are not negative (infinity
    included), [merge] returns a count that is not negative. *)
Theorem merge_count_nonneg (a b : TruthValue float) :
  (0 <=? count a) = true -> (0 <=? count b) = true ->
  exists r, merge a b = Ok r /\ (0 <=? count r) = true.
Proof.
  intros Ha Hb. rewrite merge_ok. eexists. split; [reflexivity|].
  cbn [count tv]. now apply add_nonneg.
Qed.

Lemma merge_count_nonneg_witness :
  exists r, merge (tv 0.3 0.2 1) (tv 0.9 0.5 2) = Ok r /\ (0 <=? count r) = true.
Proof. apply merge_count_nonneg; reflexivity. Defined.

(** ** Binary64 rounding: to nearest, ties to even *)

Section Nearest.

Local Open Scope Z_scope.

(** An invariant kept by each step is kept by [iter_pos]. *)
Lemma iter_pos_invariant {A : Type} (f : A -> A) (P : Z -> A -> Prop) :
  (forall k x, 0 <= k -> P k x -> P (k + 1) (f x)) ->
  forall (p : positive) (k : Z) (x : A),
    0 <= k -> P k x -> P (k + Zpos p) (SpecFloat.iter_pos f p x).
Proof.
  intros Hstep. induction p as [p IH|p IH|]; intros k x Hk Hx;
    cbn [SpecFloat.iter_pos].
  - replace (k + Zpos p~1) with (k + 1 + Zpos p + Zpos p) by lia.
    apply IH; [lia|]. apply IH; [lia|]. now apply Hstep.
  - replace (k + Zpos p~0) with (k + Zpos p + Zpos p) by lia.
    apply IH; [lia|]. now apply IH.
  - now apply Hstep.
Qed.

(** Where the exact value lies between two consecutive mantissas after [n]
    bits were shifted out: [r] is what was shifted out. *)
Lemma loc_of_remainder_step (mx n : Z) (mrs : shr_record) :
  0 <= mx -> 0 <= n ->
  shr_m mrs = mx / 2 ^ n ->
  loc_of_shr_record mrs
  = (if mx mod 2 ^ n =? 0 then loc_Exact
     else loc_Inexact (2 * (mx mod 2 ^ n) ?= 2 ^ n)) ->
  shr_m (shr_1 mrs) = mx / 2 ^ (n + 1) /\
  loc_of_shr_record (shr_1 mrs)
  = (if mx mod 2 ^ (n + 1) =? 0 then loc_Exact
     else loc_Inexact (2 * (mx mod 2 ^ (n + 1)) ?= 2 ^ (n + 1))).
Proof.
  intros Hmx Hn Hm Hl.
  pose proof (Z.pow_pos_nonneg 2 n ltac:(lia) Hn) as Ha.
  pose proof (Z.div_mod mx (2 ^ n) ltac:(lia)) as Hdm.
  pose proof (Z.mod_pos_bound mx (2 ^ n) Ha) as Hr.
  set (a := 2 ^ n) in *. set (m := mx / a) in *. set (r := mx mod a) in *.
  assert (Hm0 : 0 <= m) by (unfold m; apply Z.div_pos; lia).
  assert (Ha2 : 2 ^ (n + 1) = 2 * a) by (unfold a; rewrite Z.pow_add_r by lia; lia).
  rewrite Ha2.
  pose proof (Z.div_mod m 2 ltac:(lia)) as Hdm2.
  pose proof (Z.mod_pos_bound m 2 ltac:(lia)) as Hb.
  assert (Hq : mx / (2 * a) = m / 2 /\ mx mod (2 * a) = a * (m mod 2) + r).
  { symmetry in Hdm2.
    assert (E : mx = (2 * a) * (m / 2) + (a * (m mod 2) + r)) by nia.
    assert (B : 0 <= a * (m mod 2) + r < 2 * a) by nia.
    split; symmetry.
    - apply (Z.div_unique_pos mx (2 * a) (m / 2) (a * (m mod 2) + r) B E).
    - apply (Z.mod_unique_pos mx (2 * a) (m / 2) (a * (m mod 2) + r) B E). }
  destruct Hq as [Hq1 Hq2]. rewrite Hq1, Hq2.
  destruct mrs as [m0 r0 s0]. cbn [shr_m] in Hm. subst m0.
  assert (Hs : orb r0 s0 = negb (r =? 0)).
  { cbn [loc_of_shr_record] in Hl.
    destruct (Z.eqb_spec r 0); destruct r0, s0; cbn; congruence. }
  clear Hl.
  assert (Hshape : shr_1 (Build_shr_record m r0 s0)
                   = Build_shr_record (m / 2) (negb (m mod 2 =? 0)) (orb r0 s0)).
  { cbn [shr_1]. clear - Hm0. clearbody m.
    destruct m as [|p|p]; [reflexivity| |lia].
    destruct p as [p|p|]; cbn [negb].
    - change (Zpos p~1) with (2 * Zpos p + 1).
      replace ((2 * Zpos p + 1) / 2) with (Zpos p)
        by (apply (Z.div_unique_pos _ 2 (Zpos p) 1); lia).
      replace ((2 * Zpos p + 1) mod 2) with 1
        by (apply (Z.mod_unique_pos _ 2 (Zpos p) 1); lia).
      reflexivity.
    - change (Zpos p~0) with (2 * Zpos p).
      replace ((2 * Zpos p) / 2) with (Zpos p)
        by (apply (Z.div_unique_pos _ 2 (Zpos p) 0); lia).
      replace ((2 * Zpos p) mod 2) with 0
        by (apply (Z.mod_unique_pos _ 2 (Zpos p) 0); lia).
      reflexivity.
    - reflexivity. }
  rewrite Hshape. cbn [shr_m loc_of_shr_record]. split; [reflexivity|].
  rewrite Hs.
  destruct (Z.eqb_spec (m mod 2) 0) as [E0|E0]; cbn [negb].
  - rewrite E0, Z.mul_0_r, Z.add_0_l.
    destruct (Z.eqb_spec r 0) as [Er|Er]; cbn [negb]; [reflexivity|].
    f_equal. symmetry. apply Z.compare_lt_iff. lia.
  - assert (E1 : m mod 2 = 1) by lia. rewrite E1, Z.mul_1_r.
    destruct (Z.eqb_spec r 0) as [Er|Er]; cbn [negb].
    + rewrite Er, Z.add_0_r.
      destruct (Z.eqb_spec a 0); [lia|]. f_equal. symmetry.
      apply Z.compare_eq_iff. lia.
    + destruct (Z.eqb_spec (a + r) 0); [lia|]. f_equal. symmetry.
      apply Z.compare_gt_iff. lia.
Qed.

Lemma shr_exact_loc (mx e n : Z) :
  0 <= mx ->
  let mrs := fst (shr (shr_record_of_loc mx loc_Exact) e n) in
  let k := Z.max n 0 in
  shr_m mrs = mx / 2 ^ k /\
  loc_of_shr_record mrs
  = (if mx mod 2 ^ k =? 0 then loc_Exact
     else loc_Inexact (2 * (mx mod 2 ^ k) ?= 2 ^ k)).
Proof.
  intros Hmx. cbv zeta.
  assert (H0 : shr_m (shr_record_of_loc mx loc_Exact) = mx / 2 ^ 0 /\
               loc_of_shr_record (shr_record_of_loc mx loc_Exact)
               = (if mx mod 2 ^ 0 =? 0 then loc_Exact
                  else loc_Inexact (2 * (mx mod 2 ^ 0) ?= 2 ^ 0))).
  { cbn [shr_record_of_loc shr_m loc_of_shr_record].
    change (2 ^ 0) with 1. rewrite Z.div_1_r, Z.mod_1_r. now split. }
  destruct n as [|p|p]; cbn [shr fst]; try exact H0.
  replace (Z.max (Zpos p) 0) with (0 + Zpos p) by lia.
  apply (iter_pos_invariant shr_1
           (fun k mrs => shr_m mrs = mx / 2 ^ k /\
              loc_of_shr_record mrs
              = (if mx mod 2 ^ k =? 0 then loc_Exact
                 else loc_Inexact (2 * (mx mod 2 ^ k) ?= 2 ^ k))));
    [|lia|exact H0].
  intros k x Hk [Hm Hl]. now apply loc_of_remainder_step.
Qed.

Lemma round_nearest_even_spec (mx n : Z) :
  0 <= mx -> 0 <= n ->
  nearest_even (mx / 2 ^ n) (mx mod 2 ^ n) n
    (round_nearest_even (mx / 2 ^ n)
       (if mx mod 2 ^ n =? 0 then loc_Exact
        else loc_Inexact (2 * (mx mod 2 ^ n) ?= 2 ^ n))).
Proof.
  intros Hmx Hn. unfold nearest_even.
  pose proof (Z.pow_pos_nonneg 2 n ltac:(lia) Hn) as Ha.
  pose proof (Z.mod_pos_bound mx (2 ^ n) Ha) as Hr.
  set (q := mx / 2 ^ n). set (r := mx mod 2 ^ n) in *.
  destruct (Z.eqb_spec r 0) as [E|E]; cbn [round_nearest_even].
  - left. split; [reflexivity|]. left. lia.
  - destruct (Z.compare_spec (2 * r) (2 ^ n)) as [Hc|Hc|Hc]; cbn [round_nearest_even].
    + change (IntDef.Z.add q 1) with (q + 1).
      destruct (Z.even q) eqn:Ev; [left|right]; (split; [reflexivity|right; now split]).
    + left. split; [reflexivity|now left].
    + right. split; [reflexivity|now left].
Qed.

(** [binary_round_aux] on an exact input is rounding to nearest, ties to
    even, at the exponent the magnitude calls for; the result is canonical
    and carries the rounded mantissa exactly. *)
Lemma binary_round_aux_nearest (sx : bool) (mx ex : Z) :
  0 <= mx -> ex <= fexp prec emax (Zdigits2 mx + ex) ->
  let e1 := fexp prec emax (Zdigits2 mx + ex) in
  let n := e1 - ex in
  exists m2 e2, 0 <= m2 /\
    (0 < m2 -> e2 = Z.max (Zdigits2 m2 + e2 - 53) (-1074)) /\
    e1 <= e2 <= e1 + 1 /\
    nearest_even (mx / 2 ^ n) (mx mod 2 ^ n) n (m2 * 2 ^ (e2 - e1)) /\
    binary_round_aux prec emax sx mx ex loc_Exact = round_result sx m2 e2.
Proof.
  intros Hmx Hex e1 n. unfold binary_round_aux.
  pose proof (shr_fexp_snd mx ex loc_Exact) as Hs1.
  pose proof (shr_exact_loc mx ex (e1 - ex) Hmx) as Hloc. cbv zeta in Hloc.
  replace (Z.max (e1 - ex) 0) with n in Hloc by (unfold n; lia).
  unfold shr_fexp at 1 in Hs1. unfold shr_fexp at 1.
  change (IntDef.Z.sub (fexp prec emax (IntDef.Z.add (Zdigits2 mx) ex)) ex)
    with (e1 - ex) in *.
  destruct (shr (shr_record_of_loc mx loc_Exact) ex (e1 - ex)) as [mrs' e1'].
  cbn [fst snd] in Hs1, Hloc. destruct Hloc as [Hm1 Hl1].
  assert (He1' : e1' = e1) by (fold e1 in Hs1; lia). clear Hs1. subst e1'.
  rewrite Hl1, Hm1.
  pose proof (round_nearest_even_spec mx n Hmx ltac:(unfold n; lia)) as Hne.
  set (m1 := mx / 2 ^ n) in *.
  set (m1' := round_nearest_even m1 _) in *.
  assert (He1 : e1 = Z.max (Zdigits2 mx + ex - 53) (-1074)) by (unfold e1; apply fexp_eq).
  assert (Hm1nn : 0 <= m1).
  { unfold m1. apply Z.div_pos; [lia|apply Z.pow_pos_nonneg; unfold n; lia]. }
  assert (Hr : m1 <= m1' <= m1 + 1) by (unfold nearest_even in Hne; lia).
  assert (Hm1' : 0 <= m1') by lia.
  pose proof (shr_fexp_snd m1' e1 loc_Exact) as Hs2.
  pose proof (shr_fexp_m m1' e1 loc_Exact Hm1') as Hm2.
  destruct (shr_fexp prec emax m1' e1 loc_Exact) as [mrs'' e2].
  cbn [fst snd] in Hs2, Hm2. rewrite fexp_eq in Hs2, Hm2. rewrite <- Hs2 in Hm2.
  set (m2 := shr_m mrs'') in *.
  assert (Hm2nn : 0 <= m2).
  { rewrite Hm2. apply Z.div_pos; [lia|apply Z.pow_pos_nonneg; lia]. }
  exists m2, e2. split; [assumption|].
  assert (Hd1 : m1 = 0 /\ e1 = -1074 \/
                0 < m1 /\ Zdigits2 m1 + e1 = Zdigits2 mx + ex).
  { destruct (Z.eq_dec mx 0) as [Hz|Hnz].
    - left. unfold m1. rewrite Hz, Z.div_0_l by (apply Z.pow_nonzero; unfold n; lia).
      rewrite Hz in He1. cbn [Zdigits2] in He1. rewrite fexp_eq in Hex.
      rewrite Hz in Hex. cbn [Zdigits2] in Hex. lia.
    - destruct (Zdigits2_div_pow2 mx n ltac:(lia) ltac:(unfold n; lia))
        as [[Hle Hq]|[Hlt Hq]].
      + left. pose proof (Zdigits2_pos mx ltac:(lia)). unfold n in Hle.
        split; [exact Hq|lia].
      + right. fold m1 in Hq. unfold n in Hlt, Hq.
        assert (0 < Zdigits2 m1) by lia.
        split; [destruct m1; cbn in *; lia|lia]. }
  assert (Hn : n = e1 - ex) by reflexivity.
  clearbody m1 m1' m2 n. clearbody e1. clear Hex Hl1.
  assert (Hcases : (0 < m2 -> e2 = Z.max (Zdigits2 m2 + e2 - 53) (-1074)) /\
                   e1 <= e2 <= e1 + 1 /\ m2 * 2 ^ (e2 - e1) = m1').
  { destruct Hd1 as [[Hz He]|[Hp1 Hd1]].
    - assert (Hone : m1' = 0 \/ m1' = 1) by lia.
      destruct Hone as [E|E]; rewrite E in *.
      + rewrite Z.div_0_l in Hm2 by (apply Z.pow_nonzero; lia).
        cbn [Zdigits2] in Hs2. split; [lia|]. split; [lia|].
        rewrite Hm2. apply Z.mul_0_l.
      + cbn [Zdigits2 digits2_pos] in Hs2.
        assert (Ee : e2 = e1) by lia. rewrite Ee in Hm2 |- *. clear Hs2.
        rewrite Z.sub_diag, Z.div_1_r in Hm2. subst m2.
        rewrite Z.sub_diag. change (Zdigits2 1) with 1. change (2 ^ 0) with 1. lia.
    - destruct (Zdigits2_round m1 m1' Hp1 Hr) as [Hsame|[Hpow Hnext]].
      + assert (Ee : e2 = e1) by lia. rewrite Ee in Hm2 |- *. clear Hs2.
        rewrite Z.sub_diag, Z.div_1_r in Hm2. subst m2.
        rewrite Z.sub_diag. change (2 ^ 0) with 1. lia.
      + destruct (Z_le_gt_dec (-1074) (Zdigits2 mx + ex - 53)) as [Hnm|Hsub].
        * assert (Hd53 : Zdigits2 m1 = 53) by lia.
          assert (Ee : e2 = e1 + 1) by lia. rewrite Ee in Hm2 |- *. clear Hs2.
          replace (e1 + 1 - e1) with 1 in Hm2 |- * by lia.
          rewrite Hpow, Hd53 in Hm2 |- *.
          change (2 ^ 53 / 2 ^ 1) with (2 ^ 52) in Hm2.
          subst m2. rewrite (Zdigits2_pow2 52) by lia.
          split; [lia|]. split; [lia|]. reflexivity.
        * assert (Ee : e2 = e1) by lia. rewrite Ee in Hm2 |- *. clear Hs2.
          rewrite Z.sub_diag, Z.div_1_r in Hm2. subst m2.
          rewrite Z.sub_diag. change (2 ^ 0) with 1. lia. }
  destruct Hcases as (Hc & He2 & Hv).
  split; [assumption|]. split; [assumption|]. split; [|reflexivity].
  rewrite Hv. exact Hne.
Qed.

End Nearest.

(** ** Binary64 values in units of [2 ^ -1074] *)

Section Units.

Local Open Scope Z_scope.

Lemma Zdigits2_mul_pow2 (m c : Z) :
  0 < m -> 0 <= c -> Zdigits2 (m * 2 ^ c) = Zdigits2 m + c.
Proof.
  intros Hm Hc. destruct (Zdigits2_bounds m Hm) as [Hlo Hhi].
  pose proof (Zdigits2_pos m Hm) as Hd.
  pose proof (Z.pow_pos_nonneg 2 c ltac:(lia) Hc) as Hp.
  apply Zdigits2_eq; [lia|]. split.
  - replace (Zdigits2 m + c - 1) with (Zdigits2 m - 1 + c) by lia.
    rewrite Z.pow_add_r by lia. nia.
  - rewrite Z.pow_add_r by lia. nia.
Qed.

Lemma nearest_even_scale (q r n c m : Z) :
  0 <= n -> 0 <= c ->
  nearest_even q r n m -> nearest_even q (r * 2 ^ c) (n + c) m.
Proof.
  intros Hn Hc. unfold nearest_even.
  pose proof (Z.pow_pos_nonneg 2 c ltac:(lia) Hc) as Hp.
  rewrite Z.pow_add_r by lia.
  intros [[-> [H|[H E]]]|[-> [H|[H E]]]]; [left|left|right|right];
    (split; [reflexivity|]); first [left; nia|right; split; [nia|assumption]].
Qed.

(** [binary_round_aux] in units of [2 ^ b]. *)
Lemma round_aux_units (sx : bool) (mx ex b : Z) :
  0 < mx -> b <= ex -> b <= -1074 ->
  ex <= fexp prec emax (Zdigits2 mx + ex) ->
  exists m2 e2, 0 <= m2 /\
    (0 < m2 -> e2 = Z.max (Zdigits2 m2 + e2 - 53) (-1074)) /\
    -1074 <= e2 /\
    binary_round_aux prec emax sx mx ex loc_Exact = round_result sx m2 e2 /\
    rounds_to (-1074 - b) (mx * 2 ^ (ex - b)) (m2 * 2 ^ (e2 - b)).
Proof.
  intros Hmx Hb Hb' Hex.
  destruct (binary_round_aux_nearest sx mx ex ltac:(lia) Hex)
    as (m2 & e2 & Hm2 & Hc & He2 & Hne & Heq).
  rewrite fexp_eq in Hex, He2, Hne.
  set (e1 := Z.max (Zdigits2 mx + ex - 53) (-1074)) in *.
  exists m2, e2. split; [assumption|]. split; [assumption|].
  split; [lia|]. split; [assumption|].
  unfold rounds_to. rewrite (Zdigits2_mul_pow2 mx (ex - b)) by lia.
  replace (Z.max (Zdigits2 mx + (ex - b) - 53) (-1074 - b))
    with ((e1 - ex) + (ex - b)) by (unfold e1; lia).
  exists (m2 * 2 ^ (e2 - e1)). split.
  - rewrite <- Z.mul_assoc, <- Z.pow_add_r by lia. do 2 f_equal. lia.
  - rewrite (Z.pow_add_r 2 (e1 - ex) (ex - b)) by lia.
    pose proof (Z.pow_pos_nonneg 2 (ex - b) ltac:(lia) ltac:(lia)) as Hp.
    pose proof (Z.pow_pos_nonneg 2 (e1 - ex) ltac:(lia) ltac:(lia)) as Hp'.
    rewrite Z.div_mul_cancel_r by lia.
    rewrite Z.mul_mod_distr_r by lia.
    apply nearest_even_scale; [lia|lia|assumption].
Qed.

(** [binary_round] in units of [2 ^ b]. *)
Lemma round_units (s : bool) (M : positive) (ez b : Z) :
  b <= ez -> b <= -1074 ->
  exists m2 e2, 0 <= m2 /\
    (0 < m2 -> e2 = Z.max (Zdigits2 m2 + e2 - 53) (-1074)) /\
    -1074 <= e2 /\
    binary_round prec emax s M ez = round_result s m2 e2 /\
    rounds_to (-1074 - b) (Zpos M * 2 ^ (ez - b)) (m2 * 2 ^ (e2 - b)).
Proof.
  intros Hb Hb'. unfold binary_round.
  change (IntDef.Z.add (Zpos (digits2_pos M)) ez) with (Zpos (digits2_pos M) + ez).
  set (f := fexp prec emax (Zpos (digits2_pos M) + ez)).
  assert (Hf : -1074 <= f) by (unfold f; rewrite fexp_eq; lia).
  destruct (shl_align_value M ez f) as [Hv Hs].
  destruct (shl_align_spec M ez f) as [Hd _].
  destruct (shl_align M ez f) as [mz ez']. cbn [fst snd] in Hv, Hs, Hd.
  destruct (round_aux_units s (Zpos mz) ez' b ltac:(lia) ltac:(lia) Hb')
    as (m2 & e2 & H0 & Hc & He & Heq & Hr).
  { cbn [Zdigits2]. rewrite Hd. fold f. lia. }
  exists m2, e2. repeat (split; [assumption|]).
  replace (Zpos M * 2 ^ (ez - b)) with (Zpos mz * 2 ^ (ez' - b)); [assumption|].
  rewrite Hv, <- Z.mul_assoc, <- Z.pow_add_r by lia. do 2 f_equal. lia.
Qed.

Lemma Zdigits2_mono (a b : Z) : 0 <= a <= b -> Zdigits2 a <= Zdigits2 b.
Proof.
  intros [Ha Hab]. destruct (Z.eq_dec a 0) as [->|Hn]; [apply Zdigits2_nonneg|].
  destruct (Zdigits2_bounds b ltac:(lia)) as [_ Hb].
  apply Zdigits2_le_of_lt_pow; [apply Zdigits2_nonneg|lia].
Qed.

Lemma rounds_to_floor (gmin V R : Z) :
  0 <= gmin -> 0 <= V -> rounds_to gmin V R ->
  let g := Z.max (Zdigits2 V - 53) gmin in
  V / 2 ^ g * 2 ^ g <= R <= V / 2 ^ g * 2 ^ g + 2 ^ g.
Proof.
  intros Hg HV (m & -> & Hne) g. fold g in Hne |- *.
  pose proof (Z.pow_pos_nonneg 2 g ltac:(lia) ltac:(unfold g; lia)) as Hp.
  unfold nearest_even in Hne. nia.
Qed.

Lemma rounds_to_nonneg (gmin V R : Z) :
  0 <= gmin -> 0 <= V -> rounds_to gmin V R -> 0 <= R.
Proof.
  intros Hg HV HR. pose proof (rounds_to_floor gmin V R Hg HV HR) as [H _].
  set (g := Z.max (Zdigits2 V - 53) gmin) in *.
  pose proof (Z.pow_pos_nonneg 2 g ltac:(lia) ltac:(unfold g; lia)) as Hp.
  pose proof (Z.div_pos V (2 ^ g) HV Hp). nia.
Qed.

(** A grid point below the value is below the rounded value. *)
Lemma rounds_to_ge_div (gmin V R G : Z) :
  0 <= gmin -> 0 <= V -> rounds_to gmin V R ->
  G <= V -> (2 ^ Z.max (Zdigits2 V - 53) gmin | G) -> G <= R.
Proof.
  intros Hg HV HR HG [k ->].
  pose proof (rounds_to_floor gmin V R Hg HV HR) as [H _].
  set (g := Z.max (Zdigits2 V - 53) gmin) in *.
  pose proof (Z.pow_pos_nonneg 2 g ltac:(lia) ltac:(unfold g; lia)) as Hp.
  assert (k <= V / 2 ^ g) by (apply Z.div_le_lower_bound; lia). nia.
Qed.

(** A grid point above the value is above the rounded value. *)
Lemma rounds_to_le_div (gmin V R G : Z) :
  0 <= gmin -> 0 <= V -> rounds_to gmin V R ->
  V <= G -> (2 ^ Z.max (Zdigits2 V - 53) gmin | G) -> R <= G.
Proof.
  intros Hg HV (m & -> & Hne) HG [k ->].
  set (g := Z.max (Zdigits2 V - 53) gmin) in *.
  pose proof (Z.pow_pos_nonneg 2 g ltac:(lia) ltac:(unfold g; lia)) as Hp.
  pose proof (Z.div_mod V (2 ^ g) ltac:(lia)) as Hdm.
  pose proof (Z.mod_pos_bound V (2 ^ g) Hp) as Hr.
  assert (Hq : V / 2 ^ g <= k).
  { apply Z.div_le_upper_bound; lia. }
  unfold nearest_even in Hne.
  destruct (Z.eq_dec (V / 2 ^ g) k) as [E|E]; [|nia].
  assert (V mod 2 ^ g = 0) by nia. nia.
Qed.

(** Rounding up moves by at most half a grid step. *)
Lemma rounds_to_err_up (gmin V R : Z) :
  0 <= gmin -> 0 <= V -> rounds_to gmin V R ->
  2 * (R - V) <= 2 ^ Z.max (Zdigits2 V - 53) gmin.
Proof.
  intros Hg HV (m & -> & Hne).
  set (g := Z.max (Zdigits2 V - 53) gmin) in *.
  pose proof (Z.pow_pos_nonneg 2 g ltac:(lia) ltac:(unfold g; lia)) as Hp.
  pose proof (Z.div_mod V (2 ^ g) ltac:(lia)) as Hdm.
  pose proof (Z.mod_pos_bound V (2 ^ g) Hp) as Hr.
  unfold nearest_even in Hne. nia.
Qed.

Lemma units_nonneg (x : spec_float) : 0 <= units x.
Proof.
  destruct x as [s|s| |s m e]; cbn [units]; try lia.
  destruct s; [lia|]. pose proof (Z.pow_nonneg 2 (e + 1074)). lia.
Qed.

(** The units of a valid float sit on its own grid. *)
Lemma units_grid (m : positive) (e : Z) :
  SpecFloat.valid_binary prec emax (S754_finite false m e) = true ->
  0 <= e + 1074 /\
  Z.max (Zdigits2 (Zpos m * 2 ^ (e + 1074)) - 53) 0 = e + 1074.
Proof.
  intros V. apply valid_finite in V. destruct V as [Vc Ve].
  assert (He : 0 <= e + 1074) by lia. split; [assumption|].
  rewrite Zdigits2_mul_pow2 by lia. cbn [Zdigits2]. lia.
Qed.

Lemma units_rep (x : spec_float) :
  nonneg_finite x -> (2 ^ Z.max (Zdigits2 (units x) - 53) 0 | units x).
Proof.
  intros [[s ->]|(m & e & -> & V)]; cbn [units].
  - exists 0. lia.
  - destruct (units_grid m e V) as [He ->]. exists (Zpos m). reflexivity.
Qed.

(** A rounded result that is not too large is finite, and its units are the
    rounded value. *)
Lemma round_result_units (m2 e2 b R K : Z) :
  0 <= m2 -> (0 < m2 -> e2 = Z.max (Zdigits2 m2 + e2 - 53) (-1074)) ->
  -1074 <= e2 -> b <= -1074 ->
  R = m2 * 2 ^ (e2 - b) -> R < 2 ^ K -> K + b <= 971 ->
  nonneg_finite (round_result false m2 e2) /\
  units (round_result false m2 e2) * 2 ^ (-1074 - b) = R.
Proof.
  intros H0 Hc He Hb HR HK HKb.
  destruct m2 as [|p|p]; [| |lia]; cbn [round_result].
  - split; [left; now exists false|]. cbn [units]. lia.
  - specialize (Hc ltac:(lia)).
    assert (He2 : e2 <= 971).
    { destruct (Z_le_gt_dec e2 971) as [|Hgt]; [assumption|exfalso].
      assert (2 ^ K <= 2 ^ (e2 - b)) by (apply Z.pow_le_mono_r; lia).
      pose proof (Z.pow_pos_nonneg 2 (e2 - b) ltac:(lia) ltac:(lia)). nia. }
    destruct (e2 <=? emax - prec) eqn:E;
      [|apply Z.leb_gt in E; change (emax - prec) with 971 in E; lia].
    split.
    + right. exists p, e2. split; [reflexivity|].
      cbn [SpecFloat.valid_binary].
      unfold SpecFloat.bounded, SpecFloat.canonical_mantissa.
      rewrite E, andb_true_r. apply Z.eqb_eq. rewrite fexp_eq.
      change (IntDef.Z.add ?a ?c) with (a + c). cbn [Zdigits2] in Hc. lia.
    + cbn [units]. rewrite HR, <- Z.mul_assoc, <- Z.pow_add_r by lia.
      do 2 f_equal. lia.
Qed.

(** A rounded value is below the next power of two above the value. *)
Lemma rounds_to_lt_pow2 (gmin V R K : Z) :
  0 <= gmin -> 0 <= V -> rounds_to gmin V R ->
  V < 2 ^ K -> gmin < K -> R < 2 ^ (K + 1).
Proof.
  intros Hg HV HR HK HgK.
  pose proof (rounds_to_floor gmin V R Hg HV HR) as [_ Hhi].
  set (g := Z.max (Zdigits2 V - 53) gmin) in *.
  pose proof (Z.pow_pos_nonneg 2 g ltac:(lia) ltac:(unfold g; lia)) as Hp.
  assert (Hq : V / 2 ^ g * 2 ^ g <= V).
  { pose proof (Z.div_mod V (2 ^ g) ltac:(lia)).
    pose proof (Z.mod_pos_bound V (2 ^ g) Hp). nia. }
  assert (HgK' : g < K).
  { unfold g. assert (Zdigits2 V <= K); [|lia].
    apply Zdigits2_le_of_lt_pow; lia. }
  assert (2 ^ g < 2 ^ K) by (apply Z.pow_lt_mono_r; lia).
  rewrite Z.pow_add_r by lia. change (2 ^ 1) with 2. lia.
Qed.

(** A value on its own grid rounds to itself. *)
Lemma rounds_to_exact (gmin V : Z) :
  0 <= gmin -> 0 <= V ->
  (2 ^ Z.max (Zdigits2 V - 53) gmin | V) -> rounds_to gmin V V.
Proof.
  intros Hg HV [k Hk]. unfold rounds_to.
  set (g := Z.max (Zdigits2 V - 53) gmin) in *.
  pose proof (Z.pow_pos_nonneg 2 g ltac:(lia) ltac:(unfold g; lia)) as Hp.
  exists k. split; [assumption|].
  rewrite Hk at 1 2. rewrite Z.div_mul, Z.mod_mul by lia.
  left. split; [reflexivity|]. left. lia.
Qed.

Lemma rounds_to_zero (gmin : Z) : 0 <= gmin -> rounds_to gmin 0 0.
Proof.
  intros Hg. apply rounds_to_exact; [assumption|lia|]. exists 0. lia.
Qed.

(** On a coarser minimal grid a value of the finer grid still rounds to
    itself when it lies on the coarser one. *)
Lemma units_pos (m : positive) (e : Z) : 0 < Zpos m * 2 ^ (e + 1074) \/ e + 1074 < 0.
Proof.
  destruct (Z_lt_le_dec (e + 1074) 0); [now right|left].
  pose proof (Z.pow_pos_nonneg 2 (e + 1074)). lia.
Qed.

(** Valid floats: a smaller exponent is a smaller value. *)
Lemma units_lt_exp (m1 m2 : positive) (e1 e2 : Z) :
  SpecFloat.valid_binary prec emax (S754_finite false m1 e1) = true ->
  SpecFloat.valid_binary prec emax (S754_finite false m2 e2) = true ->
  e1 < e2 -> Zpos m1 * 2 ^ (e1 + 1074) < Zpos m2 * 2 ^ (e2 + 1074).
Proof.
  intros V1 V2 He.
  apply valid_finite in V1. apply valid_finite in V2.
  destruct V1 as [V1 _]. destruct V2 as [V2 _].
  assert (Hd2 : Zpos (digits2_pos m2) = 53) by lia.
  assert (Hd1 : Zpos (digits2_pos m1) <= 53) by lia.
  destruct (digits2_pos_bounds m1) as [_ H1]. destruct (digits2_pos_bounds m2) as [H2 _].
  rewrite Hd2 in H2. change (53 - 1) with 52 in H2.
  assert (H1' : Zpos m1 < 2 ^ 53).
  { eapply Z.lt_le_trans; [exact H1|]. apply Z.pow_le_mono_r; lia. }
  replace (e2 + 1074) with (e1 + 1074 + (e2 - e1)) by lia.
  rewrite (Z.pow_add_r 2 (e1 + 1074) (e2 - e1)) by lia.
  pose proof (Z.pow_pos_nonneg 2 (e1 + 1074) ltac:(lia) ltac:(lia)) as Hp.
  assert (2 ^ 1 <= 2 ^ (e2 - e1)) by (apply Z.pow_le_mono_r; lia).
  change (2 ^ 1) with 2 in *. change (2 ^ 53) with (2 * 2 ^ 52) in H1'.
  set (T := 2 ^ 52) in *. set (P := 2 ^ (e1 + 1074)) in *.
  set (Q := 2 ^ (e2 - e1)) in *.
  assert (HT : 0 < T) by reflexivity. clearbody T P Q.
  apply Z.lt_le_trans with (2 * T * P); [nia|].
  assert (2 * T <= Zpos m2 * Q) by nia.
  rewrite Z.mul_assoc, (Z.mul_comm (Zpos m2 * P) Q), Z.mul_assoc,
    (Z.mul_comm Q (Zpos m2)).
  apply Z.mul_le_mono_nonneg_r; lia.
Qed.

Lemma SFleb_units (x y : spec_float) :
  nonneg_finite x -> nonneg_finite y ->
  (SFleb x y = true <-> units x <= units y).
Proof.
  intros [[sx ->]|(mx & ex & -> & Vx)] [[sy ->]|(my & ey & -> & Vy)]; cbn [units].
  - split; [lia|reflexivity].
  - pose proof (valid_finite _ _ _ Vy) as [Hy _].
    pose proof (Z.pow_pos_nonneg 2 (ey + 1074) ltac:(lia) ltac:(lia)).
    split; [lia|reflexivity].
  - pose proof (valid_finite _ _ _ Vx) as [Hx _].
    pose proof (Z.pow_pos_nonneg 2 (ex + 1074) ltac:(lia) ltac:(lia)).
    split; [discriminate|lia].
  - pose proof (valid_finite _ _ _ Vx) as [Hx _].
    pose proof (valid_finite _ _ _ Vy) as [Hy _].
    pose proof (Z.pow_pos_nonneg 2 (ex + 1074) ltac:(lia) ltac:(lia)) as Hpx.
    split.
    + intros H. apply SFleb_finite_pos_inv in H. destruct H as [H|[-> H]].
      * pose proof (units_lt_exp mx my ex ey Vx Vy H). lia.
      * nia.
    + intros H. apply SFleb_finite_pos.
      destruct (Z.lt_trichotomy ex ey) as [Hlt|[Heq|Hgt]]; [now left| |].
      * right. split; [assumption|]. subst ey. nia.
      * pose proof (units_lt_exp my mx ey ex Vy Vx Hgt). lia.
Qed.

Lemma nonneg_finite_zero (s : bool) : nonneg_finite (S754_zero s).
Proof. left. now exists s. Qed.

(** What [binary_round] returns for a sum or difference of aligned
    mantissas, in units. *)
Lemma binary_round_units (M : positive) (ez : Z) (K : Z) :
  -1074 <= ez -> Zpos M * 2 ^ (ez + 1074) < 2 ^ K -> 0 < K <= 2044 ->
  nonneg_finite (binary_round prec emax false M ez) /\
  rounds_to 0 (Zpos M * 2 ^ (ez + 1074))
    (units (binary_round prec emax false M ez)).
Proof.
  intros Hez HK HK'.
  destruct (round_units false M ez (-1074) Hez ltac:(lia))
    as (m2 & e2 & H0 & Hc & He & -> & Hr).
  replace (-1074 - -1074) with 0 in Hr by lia.
  replace (ez - -1074) with (ez + 1074) in Hr by lia.
  assert (HV : 0 <= Zpos M * 2 ^ (ez + 1074)).
  { pose proof (Z.pow_nonneg 2 (ez + 1074)). lia. }
  pose proof (rounds_to_lt_pow2 0 _ _ K ltac:(lia) HV Hr HK ltac:(lia)) as Hlt.
  destruct (round_result_units m2 e2 (-1074) _ (K + 1) H0 Hc He ltac:(lia)
              eq_refl Hlt ltac:(lia)) as [Hn Hu].
  split; [assumption|].
  replace (-1074 - -1074) with 0 in Hu by lia.
  change (2 ^ 0) with 1 in Hu. rewrite Z.mul_1_r in Hu. now rewrite Hu.
Qed.

Lemma shl_align_units (m : positive) (e ez : Z) :
  -1074 <= ez -> ez <= e ->
  Zpos (fst (shl_align m e ez)) * 2 ^ (ez + 1074) = Zpos m * 2 ^ (e + 1074).
Proof.
  intros H1 H2. destruct (shl_align_value m e ez) as [Hv _].
  rewrite Hv. replace (Z.min e ez) with ez by lia.
  rewrite <- Z.mul_assoc, <- Z.pow_add_r by lia. do 2 f_equal. lia.
Qed.

Lemma SFadd_units (x y : spec_float) (K : Z) :
  nonneg_finite x -> nonneg_finite y ->
  units x + units y < 2 ^ K -> 0 < K <= 2044 ->
  nonneg_finite (SFadd prec emax x y) /\
  rounds_to 0 (units x + units y) (units (SFadd prec emax x y)).
Proof.
  intros Hx Hy HK HK'.
  pose proof (units_rep x Hx) as Rx. pose proof (units_rep y Hy) as Ry.
  pose proof (units_nonneg x) as Nx. pose proof (units_nonneg y) as Ny.
  destruct Hx as [[sx ->]|(mx & ex & -> & Vx)];
    destruct Hy as [[sy ->]|(my & ey & -> & Vy)].
  - split; [destruct sx, sy; apply nonneg_finite_zero|].
    replace (units (SFadd prec emax (S754_zero sx) (S754_zero sy))) with 0
      by now destruct sx, sy.
    cbn [units]. apply rounds_to_zero. lia.
  - cbn [SFadd]. split; [right; now exists my, ey|].
    change (units (S754_zero sx)) with 0. rewrite Z.add_0_l.
    apply rounds_to_exact; [lia|assumption|assumption].
  - cbn [SFadd]. split; [right; now exists mx, ex|].
    change (units (S754_zero sy)) with 0. rewrite Z.add_0_r.
    apply rounds_to_exact; [lia|assumption|assumption].
  - pose proof (valid_finite _ _ _ Vx) as [Hex _].
    pose proof (valid_finite _ _ _ Vy) as [Hey _].
    cbn [SFadd cond_Zopp units] in *.
    change (IntDef.Z.min ex ey) with (Z.min ex ey).
    change (IntDef.Z.add ?a ?b) with (a + b).
    set (ez := Z.min ex ey).
    pose proof (shl_align_units mx ex ez ltac:(unfold ez; lia) ltac:(unfold ez; lia)) as Ax.
    pose proof (shl_align_units my ey ez ltac:(unfold ez; lia) ltac:(unfold ez; lia)) as Ay.
    cbn [Z.add binary_normalize].
    set (M := (fst (shl_align mx ex ez) + fst (shl_align my ey ez))%positive).
    assert (HM : Zpos M * 2 ^ (ez + 1074)
                 = Zpos mx * 2 ^ (ex + 1074) + Zpos my * 2 ^ (ey + 1074)).
    { unfold M. rewrite Pos2Z.inj_add, Z.mul_add_distr_r, Ax, Ay. reflexivity. }
    rewrite <- HM in HK |- *.
    apply (binary_round_units M ez K); [unfold ez; lia|assumption|assumption].
Qed.

Lemma SFsub_units (x y : spec_float) (K : Z) :
  nonneg_finite x -> nonneg_finite y ->
  units y <= units x -> units x < 2 ^ K -> 0 < K <= 2044 ->
  nonneg_finite (SFsub prec emax x y) /\
  rounds_to 0 (units x - units y) (units (SFsub prec emax x y)).
Proof.
  intros Hx Hy Hle HK HK'.
  pose proof (units_rep x Hx) as Rx.
  pose proof (units_nonneg x) as Nx. pose proof (units_nonneg y) as Ny.
  destruct Hx as [[sx ->]|(mx & ex & -> & Vx)];
    destruct Hy as [[sy ->]|(my & ey & -> & Vy)].
  - split; [destruct sx, sy; apply nonneg_finite_zero|].
    replace (units (SFsub prec emax (S754_zero sx) (S754_zero sy))) with 0
      by now destruct sx, sy.
    cbn [units]. apply rounds_to_zero. lia.
  - exfalso. cbn [units] in Hle.
    pose proof (valid_finite _ _ _ Vy) as [Hey _].
    pose proof (Z.pow_pos_nonneg 2 (ey + 1074) ltac:(lia) ltac:(lia)). lia.
  - cbn [SFsub]. split; [right; now exists mx, ex|].
    change (units (S754_zero sy)) with 0. rewrite Z.sub_0_r.
    apply rounds_to_exact; [lia|assumption|assumption].
  - pose proof (valid_finite _ _ _ Vx) as [Hex _].
    pose proof (valid_finite _ _ _ Vy) as [Hey _].
    cbn [SFsub cond_Zopp units] in *.
    change (IntDef.Z.min ex ey) with (Z.min ex ey).
    change (IntDef.Z.sub ?a ?b) with (a - b).
    set (ez := Z.min ex ey).
    pose proof (shl_align_units mx ex ez ltac:(unfold ez; lia) ltac:(unfold ez; lia)) as Ax.
    pose proof (shl_align_units my ey ez ltac:(unfold ez; lia) ltac:(unfold ez; lia)) as Ay.
    set (A := Zpos (fst (shl_align mx ex ez))) in *.
    set (B := Zpos (fst (shl_align my ey ez))) in *.
    pose proof (Z.pow_pos_nonneg 2 (ez + 1074) ltac:(lia) ltac:(unfold ez; lia)) as Hp.
    assert (HAB : B <= A) by nia.
    rewrite <- Ax, <- Ay, <- Z.mul_sub_distr_r in *.
    destruct (A - B) as [|M|M] eqn:EM; [| |lia]; cbn [binary_normalize].
    + split; [apply nonneg_finite_zero|]. cbn [units]. rewrite Z.mul_0_l.
      apply rounds_to_zero. lia.
    + apply (binary_round_units M ez K); [unfold ez; lia| |assumption].
      assert (Zpos M <= A) by (unfold B in *; lia). nia.
Qed.

Lemma SFmul_units (x y : spec_float) (K : Z) :
  nonneg_finite x -> nonneg_finite y ->
  units x * units y < 2 ^ K -> 1074 < K <= 3118 ->
  nonneg_finite (SFmul prec emax x y) /\
  rounds_to 1074 (units x * units y) (units (SFmul prec emax x y) * 2 ^ 1074).
Proof.
  intros Hx Hy HK HK'.
  destruct Hx as [[sx ->]|(mx & ex & -> & Vx)];
    destruct Hy as [[sy ->]|(my & ey & -> & Vy)];
    try (cbn [SFmul units]; split; [apply nonneg_finite_zero|];
         rewrite ?Z.mul_0_l, ?Z.mul_0_r; apply rounds_to_zero; lia).
  pose proof (valid_finite _ _ _ Vx) as [Hex _].
  pose proof (valid_finite _ _ _ Vy) as [Hey _].
  cbn [SFmul units xorb] in *.
  change (PosDef.Pos.mul mx my) with (mx * my)%positive.
  change (IntDef.Z.add ex ey) with (ex + ey).
  pose proof (Zdigits2_mul mx my) as [Hdl _]. cbn [Zdigits2] in Hdl.
  assert (Hfx : ex + ey <= fexp prec emax (Zdigits2 (Zpos (mx * my)) + (ex + ey))).
  { rewrite fexp_eq. cbn [Zdigits2].
    pose proof (Pos2Z.is_pos (digits2_pos mx)). pose proof (Pos2Z.is_pos (digits2_pos my)).
    lia. }
  destruct (round_aux_units false (Zpos (mx * my)) (ex + ey) (-2148)
              ltac:(lia) ltac:(lia) ltac:(lia) Hfx)
    as (m2 & e2 & H0 & Hc & He & -> & Hr).
  replace (-1074 - -2148) with 1074 in Hr by lia.
  assert (HV : Zpos (mx * my) * 2 ^ (ex + ey - -2148)
               = Zpos mx * 2 ^ (ex + 1074) * (Zpos my * 2 ^ (ey + 1074))).
  { rewrite Pos2Z.inj_mul.
    replace (ex + ey - -2148) with ((ex + 1074) + (ey + 1074)) by lia.
    rewrite Z.pow_add_r by lia. ring. }
  rewrite HV in Hr.
  assert (HV0 : 0 <= Zpos mx * 2 ^ (ex + 1074) * (Zpos my * 2 ^ (ey + 1074))).
  { pose proof (Z.pow_nonneg 2 (ex + 1074)). pose proof (Z.pow_nonneg 2 (ey + 1074)).
    nia. }
  pose proof (rounds_to_lt_pow2 1074 _ _ K ltac:(lia) HV0 Hr HK ltac:(lia)) as Hlt.
  destruct (round_result_units m2 e2 (-2148) _ (K + 1) H0 Hc He ltac:(lia)
              eq_refl Hlt ltac:(lia)) as [Hn Hu].
  split; [assumption|].
  replace (-1074 - -2148) with 1074 in Hu by lia. now rewrite Hu.
Qed.

Lemma pow2_divide (a b : Z) : 0 <= a <= b -> (2 ^ a | 2 ^ b).
Proof.
  intros H. exists (2 ^ (b - a)). rewrite <- Z.pow_add_r by lia. f_equal. lia.
Qed.

Lemma divide_pow2_le (a b x : Z) : 0 <= a <= b -> (2 ^ b | x) -> (2 ^ a | x).
Proof. intros H Hx. eapply Z.divide_trans; [apply pow2_divide; eassumption|assumption]. Qed.

(** The grid of a product with a factor at most [2 ^ 1074] is no coarser
    than the grid of the other factor. *)
Lemma product_grid (x y : Z) :
  0 <= x -> 0 <= y <= 2 ^ 1074 ->
  Z.max (Zdigits2 (x * y) - 53) 1074 <= Z.max (Zdigits2 x - 53) 0 + 1074.
Proof.
  intros Hx Hy. destruct (Z.eq_dec x 0) as [->|Hn]; [cbn; lia|].
  assert (Zdigits2 (x * y) <= Zdigits2 (x * 2 ^ 1074)).
  { apply Zdigits2_mono. nia. }
  rewrite Zdigits2_mul_pow2 in H by lia. lia.
Qed.

(** I1: multiplying by a value at most 1 does not increase. *)
Lemma mul_units_le (x y P : Z) :
  0 <= x -> 0 <= y <= 2 ^ 1074 ->
  (2 ^ Z.max (Zdigits2 x - 53) 0 | x) ->
  rounds_to 1074 (x * y) (P * 2 ^ 1074) -> P <= x.
Proof.
  intros Hx Hy Rx HR.
  assert (HP : P * 2 ^ 1074 <= x * 2 ^ 1074).
  { apply (rounds_to_le_div 1074 (x * y) _ _ ltac:(lia) ltac:(nia) HR); [nia|].
    apply Z.divide_trans with (2 ^ (Z.max (Zdigits2 x - 53) 0 + 1074)).
    - apply pow2_divide. pose proof (product_grid x y Hx Hy). lia.
    - rewrite Z.pow_add_r by lia. now apply Z.mul_divide_mono_r. }
  assert (0 < 2 ^ 1074) by (apply Z.pow_pos_nonneg; lia). nia.
Qed.

(** I2: adding a value that is not negative does not decrease. *)
Lemma add_units_ge (x y S : Z) :
  0 <= x -> 0 <= y ->
  (2 ^ Z.max (Zdigits2 x - 53) 0 | x) ->
  rounds_to 0 (x + y) S -> x <= S.
Proof.
  intros Hx Hy Rx HR.
  destruct (Z.eq_dec x 0) as [->|Hn].
  { apply (rounds_to_nonneg 0 (0 + y) S); [lia|lia|assumption]. }
  pose proof (Zdigits2_mono x (x + y) ltac:(lia)) as Hd.
  destruct (Z.eq_dec (Z.max (Zdigits2 x - 53) 0) (Z.max (Zdigits2 (x + y) - 53) 0))
    as [E|E].
  - apply (rounds_to_ge_div 0 (x + y) S x); [lia|lia|assumption|lia|].
    now rewrite <- E.
  - pose proof (rounds_to_floor 0 (x + y) S ltac:(lia) ltac:(lia) HR) as [Hlo _].
    cbv zeta in Hlo.
    set (V := x + y) in *. set (g := Z.max (Zdigits2 V - 53) 0) in *.
    assert (Hg : g = Zdigits2 V - 53 /\ 0 < g /\ Zdigits2 x < Zdigits2 V) by lia.
    destruct Hg as (Hg & Hg0 & Hdx).
    destruct (Zdigits2_bounds V ltac:(lia)) as [HVlo _].
    destruct (Zdigits2_bounds x ltac:(lia)) as [_ Hxhi].
    pose proof (Z.pow_pos_nonneg 2 g ltac:(lia) ltac:(lia)) as Hp.
    assert (Hq : 2 ^ 52 <= V / 2 ^ g).
    { apply Z.div_le_lower_bound; [lia|].
      rewrite <- Z.pow_add_r by lia. replace (g + 52) with (Zdigits2 V - 1) by lia.
      assumption. }
    assert (Hx2 : 2 ^ Zdigits2 x <= 2 ^ (52 + g)).
    { apply Z.pow_le_mono_r; lia. }
    rewrite Z.pow_add_r in Hx2 by lia. nia.
Qed.

Lemma pow2_1074 : 2 ^ 1074 = 2 ^ 52 * 2 ^ 1022 /\ 2 ^ 1022 = 2 * 2 ^ 1021 /\
                  2 ^ 1075 = 2 * 2 ^ 1074 /\ 0 < 2 ^ 1021.
Proof.
  repeat split; rewrite <- Z.pow_add_r by lia; reflexivity.
Qed.

(** A value in (1, 2) has 1075 digits in units, so its grid is [2 ^ 1022]. *)
Lemma grid_above_one (D : Z) :
  2 ^ 1074 <= D < 2 ^ 1075 -> Z.max (Zdigits2 D - 53) 0 = 1022.
Proof.
  intros H. rewrite (Zdigits2_eq D 1075); [reflexivity|lia|].
  change (1075 - 1) with 1074. assumption.
Qed.

Lemma grid_up_to_one (D : Z) :
  0 <= D <= 2 ^ 1074 -> 0 <= Z.max (Zdigits2 D - 53) 0 <= 1074.
Proof.
  intros H. assert (Zdigits2 D <= 1075); [|lia].
  apply Zdigits2_le_of_lt_pow; [lia|].
  destruct pow2_1074 as (_ & _ & E & _). rewrite E.
  assert (0 < 2 ^ 1074) by (apply Z.pow_pos_nonneg; lia). lia.
Qed.

(** Rounding a value that is at most 1 plus half a step gives at most 1. *)
Lemma round_le_one (D c : Z) :
  0 <= D <= 2 ^ 1074 + 2 ^ 1021 -> rounds_to 0 D c -> c <= 2 ^ 1074.
Proof.
  intros [H0 Hhi] HR.
  destruct pow2_1074 as (E1 & E2 & E3 & Hu).
  destruct (Z_le_gt_dec D (2 ^ 1074)) as [Hle|Hgt].
  - apply (rounds_to_le_div 0 D c _ ltac:(lia) H0 HR Hle).
    apply pow2_divide. apply grid_up_to_one. lia.
  - assert (Hg : Z.max (Zdigits2 D - 53) 0 = 1022) by (apply grid_above_one; lia).
    destruct HR as (m & -> & Hne). rewrite Hg in *.
    set (ONE := 2 ^ 1074) in *. set (u := 2 ^ 1021) in *.
    set (w := 2 ^ 1022) in *. set (t := 2 ^ 52) in *.
    assert (Ht : Z.even t = true) by reflexivity.
    assert (Hq : D / w = t /\ D mod w = D - ONE).
    { assert (B : 0 <= D - ONE < w) by lia.
      assert (E : D = w * t + (D - ONE)) by lia.
      split; symmetry.
      - apply (Z.div_unique_pos D w t (D - ONE) B E).
      - apply (Z.mod_unique_pos D w t (D - ONE) B E). }
    destruct Hq as [Hq Hr]. rewrite Hq, Hr in Hne.
    unfold nearest_even in Hne. fold w in Hne.
    clearbody ONE u w t.
    destruct Hne as [[-> _]|[_ [H|[_ H]]]]; [lia|lia|congruence].
Qed.

(** The rounded product is at least [x + y - 1] when that is positive:
    [x + y - 1] lies on the grid of the product. *)
Lemma mul_units_ge (x y P : Z) :
  0 <= x <= 2 ^ 1074 -> 0 <= y <= 2 ^ 1074 ->
  (2 ^ Z.max (Zdigits2 x - 53) 0 | x) ->
  (2 ^ Z.max (Zdigits2 y - 53) 0 | y) ->
  2 ^ 1074 <= x + y ->
  rounds_to 1074 (x * y) (P * 2 ^ 1074) -> x + y - 2 ^ 1074 <= P.
Proof.
  intros Hx Hy Rx Ry Hxy HR.
  set (ONE := 2 ^ 1074) in *.
  assert (H1 : 0 < ONE) by (apply Z.pow_pos_nonneg; lia).
  assert (HP : (x + y - ONE) * ONE <= P * ONE); [|nia].
  apply (rounds_to_ge_div 1074 (x * y) _ _ ltac:(lia) ltac:(nia) HR); [nia|].
  set (h := Z.max (Zdigits2 (x * y) - 53) 1074).
  pose proof (product_grid x y ltac:(lia) Hy) as Gx.
  pose proof (product_grid y x ltac:(lia) Hx) as Gy.
  rewrite (Z.mul_comm y x) in Gy. fold h in Gx, Gy.
  pose proof (grid_up_to_one x Hx) as Bx.
  assert (Hh : 1074 <= h) by (unfold h; lia).
  replace h with ((h - 1074) + 1074) by lia.
  rewrite Z.pow_add_r by lia. fold ONE.
  apply Z.mul_divide_mono_r.
  apply Z.divide_sub_r; [apply Z.divide_add_r|].
  - apply (divide_pow2_le _ (Z.max (Zdigits2 x - 53) 0)); [lia|assumption].
  - apply (divide_pow2_le _ (Z.max (Zdigits2 y - 53) 0)); [lia|assumption].
  - apply pow2_divide. lia.
Qed.

(** I4: the confidence [merge] computes is at most 1. *)
Lemma conf_units_le_one (x y S P c : Z) :
  0 <= x <= 2 ^ 1074 -> 0 <= y <= 2 ^ 1074 ->
  (2 ^ Z.max (Zdigits2 x - 53) 0 | x) ->
  (2 ^ Z.max (Zdigits2 y - 53) 0 | y) ->
  rounds_to 0 (x + y) S ->
  rounds_to 1074 (x * y) (P * 2 ^ 1074) ->
  rounds_to 0 (S - P) c ->
  0 <= S - P /\ c <= 2 ^ 1074.
Proof.
  intros Hx Hy Rx Ry HS HP Hc.
  destruct pow2_1074 as (E1 & E2 & E3 & Hu).
  assert (H1 : 0 < 2 ^ 1074) by (apply Z.pow_pos_nonneg; lia).
  pose proof (mul_units_le x y P ltac:(lia) Hy Rx HP) as HPx.
  pose proof (add_units_ge x y S ltac:(lia) ltac:(lia) Rx HS) as HxS.
  assert (HP0 : 0 <= P).
  { pose proof (rounds_to_nonneg 1074 (x * y) _ ltac:(lia) ltac:(nia) HP). nia. }
  split; [lia|].
  apply (round_le_one (S - P) c); [|assumption]. split; [lia|].
  destruct (Z_le_gt_dec (x + y) (2 ^ 1074)) as [Hle|Hgt].
  - assert (S <= 2 ^ 1074); [|lia].
    apply (rounds_to_le_div 0 (x + y) S _ ltac:(lia) ltac:(lia) HS Hle).
    apply pow2_divide. apply grid_up_to_one. lia.
  - pose proof (mul_units_ge x y P Hx Hy Rx Ry ltac:(lia) HP) as Hz.
    destruct (Z.eq_dec (x + y) (2 ^ 1075)) as [E|E].
    + assert (S <= 2 ^ 1075); [|lia].
      apply (rounds_to_le_div 0 (x + y) S (2 ^ 1075) ltac:(lia) ltac:(lia) HS ltac:(lia)).
      rewrite E. apply pow2_divide.
      rewrite (Zdigits2_pow2 1075) by lia. lia.
    + pose proof (rounds_to_err_up 0 (x + y) S ltac:(lia) ltac:(lia) HS) as He.
      rewrite (grid_above_one (x + y)) in He by lia. lia.
Qed.

End Units.

(** ** merge: the unit interval in binary64 *)

Lemma units_one : units (Prim2SF 1) = (2 ^ 1074)%Z.
Proof.
  rewrite Prim2SF_one. cbn [units]. rewrite Z_2_52.
  rewrite <- Z.pow_add_r by lia. reflexivity.
Qed.

Lemma nonneg_finite_one : nonneg_finite (Prim2SF 1).
Proof.
  right. do 2 eexists. split; [apply Prim2SF_one|]. apply Prim2SF_valid.
Qed.

Lemma in_unit_units (v : float) :
  in_unit v = true ->
  nonneg_finite (Prim2SF v) /\ (units (Prim2SF v) <= 2 ^ 1074)%Z.
Proof.
  intros H.
  assert (Hn : nonneg_finite (Prim2SF v)).
  { pose proof (Prim2SF_valid v) as V.
    destruct (in_unit_cases v H) as [[sg Hz]|[Hz|(m & e & Hf & _)]].
    - left. now exists sg.
    - left. now exists false.
    - right. exists m, e. split; [assumption|assumption]. }
  split; [assumption|].
  unfold in_unit in H. apply andb_prop in H. destruct H as [_ H].
  rewrite FloatAxioms.leb_spec in H.
  apply (SFleb_units _ _ Hn nonneg_finite_one) in H. now rewrite units_one in H.
Qed.

Lemma units_in_unit (v : float) :
  nonneg_finite (Prim2SF v) -> (units (Prim2SF v) <= 2 ^ 1074)%Z ->
  in_unit v = true.
Proof.
  intros Hn Hu. unfold in_unit. rewrite !FloatAxioms.leb_spec, Prim2SF_zero.
  apply andb_true_intro. split.
  - apply (SFleb_units _ _ (nonneg_finite_zero false) Hn). cbn [units].
    apply units_nonneg.
  - apply (SFleb_units _ _ Hn nonneg_finite_one). now rewrite units_one.
Qed.

Lemma nonneg_finite_leb (v : float) :
  nonneg_finite (Prim2SF v) -> (0 <=? v) = true.
Proof.
  intros Hn. rewrite FloatAxioms.leb_spec, Prim2SF_zero.
  apply (SFleb_units _ _ (nonneg_finite_zero false) Hn). cbn [units].
  apply units_nonneg.
Qed.

(** The quotient of a value that is not negative by a positive one is not
    negative (it may be infinite). *)
Lemma div_nonneg (n c : float) :
  nonneg_finite (Prim2SF n) -> nonneg_finite (Prim2SF c) ->
  (0 <? c) = true -> (0 <=? n / c) = true.
Proof.
  intros Hn Hc Hp.
  rewrite FloatAxioms.ltb_spec, Prim2SF_zero in Hp.
  rewrite FloatAxioms.leb_spec, FloatAxioms.div_spec, Prim2SF_zero.
  destruct Hc as [[sc Ec]|(mc & ec & Ec & _)]; rewrite Ec in *; [discriminate|].
  destruct Hn as [[sn ->]|(mn & en & -> & _)].
  - now destruct sn.
  - destruct (SFdiv_finite_not_nan false false mn mc en ec) as (m2 & e2 & Hm2 & Heq).
    unfold SF64div. rewrite Heq. cbn [xorb].
    destruct m2 as [|p|p]; [reflexivity| |lia].
    cbn [round_result]. now destruct (_ <=? _)%Z.
Qed.

Section UnitInterval.


Lemma pow2_lt (a b : Z) : (0 <= a < b)%Z -> (2 ^ a < 2 ^ b)%Z.
Proof. intros H. apply Z.pow_lt_mono_r; lia. Qed.

(** A product of two values of the unit interval. *)
Lemma mul_unit (x y : float) :
  nonneg_finite (Prim2SF x) -> nonneg_finite (Prim2SF y) -> ((units (Prim2SF x)) <= 2 ^ 1074)%Z -> ((units (Prim2SF y)) <= 2 ^ 1074)%Z ->
  nonneg_finite (Prim2SF (x * y)) /\ ((units (Prim2SF (x * y))) <= (units (Prim2SF x)))%Z /\ ((units (Prim2SF (x * y))) <= (units (Prim2SF y)))%Z /\
  rounds_to 1074 ((units (Prim2SF x)) * (units (Prim2SF y))) ((units (Prim2SF (x * y))) * 2 ^ 1074).
Proof.
  intros Hx Hy Bx By.
  pose proof (units_nonneg (Prim2SF x)) as Nx.
  pose proof (units_nonneg (Prim2SF y)) as Ny.
  assert (H1 : (0 < 2 ^ 1074)%Z) by (apply Z.pow_pos_nonneg; lia).
  assert (HK : ((units (Prim2SF x)) * (units (Prim2SF y)) < 2 ^ 2149)%Z).
  { apply Z.le_lt_trans with (2 ^ 1074 * 2 ^ 1074)%Z; [nia|].
    rewrite <- Z.pow_add_r by lia. apply pow2_lt. lia. }
  rewrite FloatAxioms.mul_spec. unfold SF64mul.
  destruct (SFmul_units _ _ 2149 Hx Hy HK ltac:(lia)) as [Hn Hr].
  split; [assumption|]. split; [|split; [|assumption]].
  - apply (mul_units_le ((units (Prim2SF x))) ((units (Prim2SF y)))); [lia|lia|now apply units_rep|assumption].
  - apply (mul_units_le ((units (Prim2SF y))) ((units (Prim2SF x)))); [lia|lia|now apply units_rep|].
    now rewrite Z.mul_comm.
Qed.

(** A sum of two values that are at most 2. *)
Lemma add_unit (x y : float) :
  nonneg_finite (Prim2SF x) -> nonneg_finite (Prim2SF y) -> ((units (Prim2SF x)) <= 2 ^ 1075)%Z -> ((units (Prim2SF y)) <= 2 ^ 1075)%Z ->
  nonneg_finite (Prim2SF (x + y)) /\ ((units (Prim2SF x)) <= (units (Prim2SF (x + y))))%Z /\ ((units (Prim2SF (x + y))) < 2 ^ 1078)%Z /\
  rounds_to 0 ((units (Prim2SF x)) + (units (Prim2SF y))) ((units (Prim2SF (x + y)))).
Proof.
  intros Hx Hy Bx By.
  pose proof (units_nonneg (Prim2SF x)) as Nx.
  pose proof (units_nonneg (Prim2SF y)) as Ny.
  assert (HK : ((units (Prim2SF x)) + (units (Prim2SF y)) < 2 ^ 1077)%Z).
  { assert (E : (2 ^ 1075 + 2 ^ 1075 = 2 ^ 1076)%Z) by reflexivity.
    apply Z.le_lt_trans with (2 ^ 1076)%Z;
      [rewrite <- E; apply Z.add_le_mono; assumption|].
    apply pow2_lt. lia. }
  rewrite FloatAxioms.add_spec. unfold SF64add.
  destruct (SFadd_units _ _ 1077 Hx Hy HK ltac:(lia)) as [Hn Hr].
  split; [assumption|]. split; [|split; [|assumption]].
  - apply (add_units_ge ((units (Prim2SF x))) ((units (Prim2SF y)))); [lia|lia|now apply units_rep|assumption].
  - change (2 ^ 1078)%Z with (2 ^ (1077 + 1))%Z.
    apply (rounds_to_lt_pow2 0 ((units (Prim2SF x)) + (units (Prim2SF y)))%Z _ 1077); [lia|lia|assumption|assumption|lia].
Qed.

(** A difference of two values, the smaller taken from the larger. *)
Lemma sub_unit (x y : float) :
  nonneg_finite (Prim2SF x) -> nonneg_finite (Prim2SF y) -> ((units (Prim2SF y)) <= (units (Prim2SF x)))%Z -> ((units (Prim2SF x)) < 2 ^ 1078)%Z ->
  nonneg_finite (Prim2SF (x - y)) /\ rounds_to 0 ((units (Prim2SF x)) - (units (Prim2SF y))) ((units (Prim2SF (x - y)))).
Proof.
  intros Hx Hy Hle Bx.
  rewrite FloatAxioms.sub_spec. unfold SF64sub.
  apply (SFsub_units _ _ 1078 Hx Hy Hle Bx). lia.
Qed.

End UnitInterval.

Lemma merge_domain_binary64 (a b : TruthValue float) :
  in_domain a = true -> in_domain b = true ->
  exists r, merge a b = Ok r /\
    (0 <=? strength r) = true /\ in_unit (confidence r) = true /\
    (0 <=? count r) = true.
Proof.
  destruct a as [s1 c1 n1], b as [s2 c2 n2].
  unfold in_domain; cbn [strength confidence count].
  intros Ha Hb.
  apply andb_prop in Ha. destruct Ha as [Ha Hn1].
  apply andb_prop in Ha. destruct Ha as [Hs1 Hc1].
  apply andb_prop in Hb. destruct Hb as [Hb Hn2].
  apply andb_prop in Hb. destruct Hb as [Hs2 Hc2].
  destruct (in_unit_units s1 Hs1) as [Ns1 Us1].
  destruct (in_unit_units c1 Hc1) as [Nc1 Uc1].
  destruct (in_unit_units s2 Hs2) as [Ns2 Us2].
  destruct (in_unit_units c2 Hc2) as [Nc2 Uc2].
  assert (H12 : (2 ^ 1074 <= 2 ^ 1075)%Z) by (apply Z.pow_le_mono_r; lia).
  (* the confidence *)
  destruct (add_unit c1 c2 Nc1 Nc2 ltac:(lia) ltac:(lia)) as (NS & HS1 & HSb & RS).
  destruct (mul_unit c1 c2 Nc1 Nc2 Uc1 Uc2) as (NP & HP1 & _ & RP).
  destruct (sub_unit (c1 + c2) (c1 * c2) NS NP ltac:(lia) HSb) as (Nc & Rc).
  pose proof (units_nonneg (Prim2SF c1)) as P1.
  pose proof (units_nonneg (Prim2SF c2)) as P2.
  destruct (conf_units_le_one _ _ _ _ _ (conj P1 Uc1) (conj P2 Uc2)
              (units_rep _ Nc1) (units_rep _ Nc2) RS RP Rc) as [_ Hc].
  (* the numerator of the strength *)
  destruct (mul_unit s1 c1 Ns1 Nc1 Us1 Uc1) as (NA & HA1 & _ & _).
  destruct (mul_unit s2 c2 Ns2 Nc2 Us2 Uc2) as (NB & HB1 & _ & _).
  destruct (add_unit (s1 * c1) (s2 * c2) NA NB ltac:(lia) ltac:(lia))
    as (NX & HX1 & HXb & _).
  destruct (mul_unit (s1 * c1) c2 NA Nc2 ltac:(lia) Uc2) as (NT1 & HT1 & _ & _).
  destruct (mul_unit (s1 * c1 * c2) s2 NT1 Ns2 ltac:(lia) Us2) as (NT & HT & _ & _).
  destruct (sub_unit (s1 * c1 + s2 * c2) (s1 * c1 * c2 * s2) NX NT ltac:(lia) HXb)
    as (NN & _).
  rewrite merge_ok. cbn [strength confidence count].
  eexists. split; [reflexivity|]. cbn [strength confidence count tv].
  split; [|split].
  - destruct (0 <? c1 + c2 - c1 * c2) eqn:Hpos; [|reflexivity].
    now apply div_nonneg.
  - now apply units_in_unit.
  - now apply add_nonneg.
Qed.

(** C9, amended: for operands whose strength and confidence lie in [0,1]
    and whose count is not negative, binary64 [merge] returns, without
    raising, a result with strength at least 0, confidence in [0,1] and a
    count that is not negative.  The one bound that rounding can break is
    strength at most 1: it holds in exact arithmetic, where the result has
    its strength in [0,1] as well. *)
Theorem merge_preserves_domain_but_strength_le_1 :
  (forall a b : TruthValue float,
     in_domain a = true -> in_domain b = true ->
     exists r, merge a b = Ok r /\
       (0 <=? strength r)%float = true /\ in_unit (confidence r) = true /\
       (0 <=? count r)%float = true) /\
  (forall a b : TruthValue R,
     (0 <= strength a <= 1)%R -> (0 <= confidence a <= 1)%R ->
     (0 <= count a)%R ->
     (0 <= strength b <= 1)%R -> (0 <= confidence b <= 1)%R ->
     (0 <= count b)%R ->
     exists r, merge a b = Ok r /\
       (0 <= strength r <= 1)%R /\ (0 <= confidence r <= 1)%R /\
       (0 <= count r)%R).
Proof. split; [exact merge_domain_binary64|exact merge_exact_domain]. Qed.

Lemma merge_preserves_domain_but_strength_le_1_witness :
  (exists r, merge (tv 0 0.4 0) (tv 1 1 0) = Ok r /\
     (0 <=? strength r)%float = true /\ in_unit (confidence r) = true /\
     (0 <=? count r)%float = true) /\
  (exists r,
     merge (mkTruthValue (1 / 2) (1 / 2) 1)%R (mkTruthValue 1 1 0)%R = Ok r /\
     (0 <= strength r <= 1)%R /\ (0 <= confidence r <= 1)%R /\
     (0 <= count r)%R).
Proof.
  split.
  - apply (proj1 merge_preserves_domain_but_strength_le_1); reflexivity.
  - apply (proj2 merge_preserves_domain_but_strength_le_1); cbn; lra.
Defined.

(** ** merge: the strength against the default operand

    Merging with the default multiplies the strength by the confidence and
    divides the rounded product by the confidence again.  Division is
    brought back to the rounding of an exact value by folding the remainder
    into two sticky bits; rounding is monotone against every representable
    value; and the rounded product is within half a step of the exact one.
    Together: the quotient is the strength or a neighbour of it. *)

Section Quotient.

Local Open Scope Z_scope.

















































End Quotient.







(** The conditions cannot be dropped: an infinite confidence gives a NaN
    confidence, a product that underflows loses the strength, and a product
    that overflows gives a NaN strength. *)
Lemma default_infinite_confidence :
  exists r, merge (tv 1 infinity 0) TruthValue_default = Ok r /\
            (confidence r =? confidence r) = false.
Proof. eexists. split; reflexivity. Qed.

Lemma default_underflow :
  exists r, merge (tv 0.5 0x1p-1074 0) TruthValue_default = Ok r /\
            (strength r =? 0) = true.
Proof. eexists. split; reflexivity. Qed.

Lemma default_overflow :
  exists r, merge (tv 0x1p1023 4 0) TruthValue_default = Ok r /\
            (strength r =? strength r) = false.
Proof. eexists. split; reflexivity. Qed.


